(** * NodeModal: the path-addressed read/write engine of the node editor

    A shallow embedding of [src/features/modals/NodeModal/index.tsx]:
    [normalizeNodeData], [jsonPathToString], [getValueAtPath],
    [setValueAtPath], and the handlers of the modal (the effect run on
    selection, Edit, Cancel and [handleSave]).

    The functions run on JavaScript values.  Arrays and objects are
    references into a store, so that the assignments [cur[seg] = value] of
    [setValueAtPath] are seen through every alias of the container they
    hit.  Property access follows the language: keys are strings, a number
    used as a key is its decimal text, arrays own their positions and
    [length], strings own their characters and [length]. *)

From Stdlib Require Import ZArith NArith String Ascii List Bool Lia.
From Stdlib Require Import DecimalString DecimalN DecimalZ Sorted.
From stdpp Require Import base list.

Import ListNotations.
Local Open Scope string_scope.
Local Open Scope list_scope.

(** ** Decimal text of numbers *)

(** [String(n)] for a non-negative integer: its decimal digits. *)
Definition dec (n : N) : string := NilZero.string_of_uint (N.to_uint n).

(** [String(z)] for an integer. *)
Definition decZ (z : Z) : string := NilZero.string_of_int (Z.to_int z).

(** The bound of array indices: a key is an array index when it is the
    decimal text of an integer below [2^32 - 1]. *)
Definition max_index : N := 4294967295.

(** The position a property key names, when the key is an array index
    (the canonical decimal text of a number below [max_index]). *)
Definition array_index (k : string) : option N :=
  match NilZero.uint_of_string k with
  | Some d =>
      let n := N.of_uint d in
      if String.eqb (dec n) k && (n <? max_index)%N then Some n else None
  | None => None
  end.

(** ** Values and the store *)

(** A number is given by its integer value: the positions, lengths and
    integer literals of a document, printed in plain decimal (as the
    engine prints an integer below [10^21]).  A text is a Rocq string, one
    character of the program per character here.  [VRef] is a reference
    to an array or an object of the store. *)

Abbreviation loc := nat (only parsing).

Inductive value :=
| VUndefined
| VNull
| VBool (b : bool)
| VNum (n : Z)
| VStr (s : string)
| VRef (l : loc).

(** Own string-keyed properties, in insertion order. *)
Abbreviation props A := (list (string * A)) (only parsing).

(** A plain object, or an array: its positions (a hole is [None]) and the
    other own properties it may have been given. *)
Inductive object :=
| Obj (fields : props value)
| Arr (elems : list (option value)) (extra : props value).

Abbreviation heap := (list object) (only parsing).

Inductive exn :=
| TypeError
| RangeError
| SyntaxError (msg : string).

(** The result of a step: a value, an exception, or [HostDefined] when the
    step is carried out by the standard library of the host (a member
    inherited from a built-in prototype, the coercion of a non-number to
    an array length, the replacement of a prototype): what it does is
    fixed by the engine, not by this program. *)
Inductive outcome (A : Type) :=
| Ok (a : A)
| Throw (e : exn)
| HostDefined.
Arguments Ok {A} a.
Arguments Throw {A} e.
Arguments HostDefined {A}.

Definition bind {A B} (m : outcome A) (k : A -> outcome B) : outcome B :=
  match m with
  | Ok a => k a
  | Throw e => Throw e
  | HostDefined => HostDefined
  end.

Notation "'let*' x ':=' m 'in' k" := (bind m (fun x => k))
  (at level 10, x pattern, m at level 100, k at level 200).

(** ** Property lists *)

Section Props.
Context {A : Type}.

Fixpoint lookup_prop (k : string) (ps : props A) : option A :=
  match ps with
  | [] => None
  | (k', v) :: ps' => if String.eqb k k' then Some v else lookup_prop k ps'
  end.

(** [o[k] = v] on own data properties: an existing key keeps its place,
    a new one goes last. *)
Fixpoint upsert (k : string) (v : A) (ps : props A) : props A :=
  match ps with
  | [] => [(k, v)]
  | (k', v') :: ps' =>
      if String.eqb k k' then (k, v) :: ps' else (k', v') :: upsert k v ps'
  end.

(** Insertion of an index-keyed entry in ascending order of the index. *)
Fixpoint insert_sorted (n : N) (e : string * A) (l : list (N * (string * A)))
  : list (N * (string * A)) :=
  match l with
  | [] => [(n, e)]
  | (m, e') :: l' =>
      if (n <=? m)%N then (n, e) :: l
      else (m, e') :: insert_sorted n e l'
  end.

Fixpoint index_entries (ps : props A) : list (N * (string * A)) :=
  match ps with
  | [] => []
  | (k, v) :: ps' =>
      match array_index k with
      | Some n => insert_sorted n (k, v) (index_entries ps')
      | None => index_entries ps'
      end
  end.

Fixpoint named_entries (ps : props A) : props A :=
  match ps with
  | [] => []
  | (k, v) :: ps' =>
      match array_index k with
      | Some _ => named_entries ps'
      | None => (k, v) :: named_entries ps'
      end
  end.

(** The own properties in the order the language enumerates them:
    array-index keys in ascending numeric order, then the other keys in
    insertion order. *)
Definition own_entries (ps : props A) : props A :=
  map snd (index_entries ps) ++ named_entries ps.

(** Assignment to a key that is not an own property of an object.  Only
    [__proto__] is an accessor of the prototype chain: its setter ignores
    a primitive other than [null], and replaces the prototype when it is
    given [null] or an object ([is_proto]).  Every other key becomes a
    new own property, the last one. *)
Definition add_prop (is_proto : A -> bool) (key : string) (x : A)
  (ps : props A) : outcome (props A) :=
  if String.eqb key "__proto__" then
    if is_proto x then HostDefined else Ok ps
  else Ok (ps ++ [(key, x)]).

(** [o[key] = x] on the properties of an object. *)
Definition assign_prop (is_proto : A -> bool) (key : string) (x : A)
  (ps : props A) : outcome (props A) :=
  match lookup_prop key ps with
  | Some _ => Ok (upsert key x ps)
  | None => add_prop is_proto key x ps
  end.
End Props.

(** ** The built-in prototypes *)

Inductive kind := KObject | KArray | KString | KNumber | KBoolean.

(** What the host provides.  [inherited k key]: the prototype chain of a
    value of kind [k] has a member called [key] ([toString], [map],
    [__proto__], ...).  The list depends on the version of the engine. *)
Class Builtins := { inherited : kind -> string -> bool }.

Section Runtime.
Context `{Builtins}.

(** A key that is not an own property: taken from the prototype chain,
    [undefined] when the chain does not have it either. *)
Definition from_prototype (k : kind) (key : string) : outcome value :=
  if inherited k key then HostDefined else Ok VUndefined.

Definition char_at (s : string) (i : N) : option string :=
  match String.get (N.to_nat i) s with
  | Some c => Some (String c EmptyString)
  | None => None
  end.

(** The built-in prototype a value inherits from; none for [undefined]
    and [null]. *)
Definition kind_of (h : heap) (v : value) : option kind :=
  match v with
  | VUndefined | VNull => None
  | VBool _ => Some KBoolean
  | VNum _ => Some KNumber
  | VStr _ => Some KString
  | VRef l =>
      match h !! l with
      | Some (Obj _) => Some KObject
      | Some (Arr _ _) => Some KArray
      | None => None
      end
  end.

(** The own property [key] of a value: a member of an object; a
    position that is not a hole, [length] or another property of an
    array; a character or [length] of a string. *)
Definition own_prop (h : heap) (v : value) (key : string) : option value :=
  match v with
  | VUndefined | VNull | VBool _ | VNum _ => None
  | VStr s =>
      if String.eqb key "length" then Some (VNum (Z.of_nat (String.length s)))
      else match array_index key with
           | Some i => VStr <$> char_at s i
           | None => None
           end
  | VRef l =>
      match h !! l with
      | None => None
      | Some (Obj fields) => lookup_prop key fields
      | Some (Arr elems extra) =>
          if String.eqb key "length" then Some (VNum (Z.of_nat (length elems)))
          else match array_index key with
               | Some i => mjoin (elems !! N.to_nat i)
               | None => lookup_prop key extra
               end
      end
  end.

(** [v[key]]: the own property, else what the prototype chain gives. *)
Definition prop_get (h : heap) (v : value) (key : string) : outcome value :=
  match v with
  | VUndefined | VNull => Throw TypeError
  | _ =>
      match own_prop h v key with
      | Some x => Ok x
      | None =>
          match kind_of h v with
          | Some k => from_prototype k key
          | None => HostDefined
          end
      end
  end.

(** What the [__proto__] setter accepts as a prototype. *)
Definition value_is_proto (x : value) : bool :=
  match x with
  | VNull | VRef _ => true
  | _ => false
  end.

(** [a[i] = x] on the positions of an array: a position past the end
    extends the array with holes. *)
Definition set_elem (i : nat) (x : value) (elems : list (option value))
  : list (option value) :=
  if decide (i < length elems) then <[i := Some x]> elems
  else elems ++ replicate (i - length elems) None ++ [Some x].

(** [a.length = x] *)
Definition set_length (x : value) (elems : list (option value))
  : outcome (list (option value)) :=
  match x with
  | VNum n =>
      if ((0 <=? n) && (n <? 4294967296))%Z
      then Ok (resize (Z.to_nat n) None elems)
      else Throw RangeError
  | _ => HostDefined
  end.

(** [v[key] = x], in strict code (a module): assigning to a property of
    a primitive throws, except through the [__proto__] setter, which
    returns without doing anything on a primitive. *)
Definition prop_set (h : heap) (v : value) (key : string) (x : value)
  : outcome heap :=
  match v with
  | VUndefined | VNull => Throw TypeError
  | VBool _ | VNum _ | VStr _ =>
      if String.eqb key "__proto__" then Ok h else Throw TypeError
  | VRef l =>
      match h !! l with
      | None => HostDefined
      | Some (Obj fields) =>
          let* fields' := assign_prop value_is_proto key x fields in
          Ok (<[l := Obj fields']> h)
      | Some (Arr elems extra) =>
          if String.eqb key "length" then
            let* elems' := set_length x elems in
            Ok (<[l := Arr elems' extra]> h)
          else match array_index key with
               | Some i => Ok (<[l := Arr (set_elem (N.to_nat i) x elems) extra]> h)
               | None =>
                   let* extra' := assign_prop value_is_proto key x extra in
                   Ok (<[l := Arr elems extra']> h)
               end
      end
  end.

(** [Array.isArray(v)] *)
Definition isArray (h : heap) (v : value) : bool :=
  match v with
  | VRef l => match h !! l with Some (Arr _ _) => true | _ => false end
  | _ => false
  end.

(** A new object in the store. *)
Definition new_object (o : object) (h : heap) : value * heap :=
  (VRef (length h), h ++ [o]).

Fixpoint chars_from (i : N) (s : string) : props value :=
  match s with
  | EmptyString => []
  | String c s' => (dec i, VStr (String c EmptyString)) :: chars_from (N.succ i) s'
  end.

(** [[...v]] for an array [v]: the positions are read one by one, a hole
    reads as [undefined]; the other properties are not copied. *)
Definition spread_array (h : heap) (v : value) : outcome (value * heap) :=
  match v with
  | VRef l =>
      match h !! l with
      | Some (Arr elems _) =>
          Ok (new_object (Arr (map (fun e => Some (default VUndefined e)) elems) []) h)
      | _ => HostDefined
      end
  | _ => HostDefined
  end.

(** [{...v}]: the own enumerable properties of [v], in enumeration
    order; nothing for [undefined], [null], a number or a boolean; the
    characters for a string. *)
Definition spread_object (h : heap) (v : value) : outcome (value * heap) :=
  match v with
  | VUndefined | VNull | VBool _ | VNum _ => Ok (new_object (Obj []) h)
  | VStr s => Ok (new_object (Obj (chars_from 0 s)) h)
  | VRef l =>
      match h !! l with
      | Some (Obj fields) => Ok (new_object (Obj (own_entries fields)) h)
      | _ => HostDefined
      end
  end.
End Runtime.

(** ** Paths *)

(** A segment of [NodeData["path"]] (a [JSONPath]): a number, which the
    builder of the graph takes from the positions of an array, or a
    string, a key of an object. *)
Inductive segment :=
| Index (n : N)
| Key (s : string).

Abbreviation JSONPath := (list segment) (only parsing).

(** The property key [cur[seg]] uses. *)
Definition key_of (seg : segment) : string :=
  match seg with
  | Index n => dec n
  | Key s => s
  end.

(** [typeof seg === "number"] *)
Definition is_number (seg : segment) : bool :=
  match seg with
  | Index _ => true
  | Key _ => false
  end.

Section PathEngine.
Context `{Builtins}.

(** The loop of [getValueAtPath]. *)
Fixpoint walk (h : heap) (cur : value) (segs : JSONPath) : outcome value :=
  match segs with
  | [] => Ok cur
  | seg :: rest =>
      match cur with
      | VUndefined | VNull => Ok VUndefined
      | _ =>
          let* next := prop_get h cur (key_of seg) in
          walk h next rest
      end
  end.

Definition getValueAtPath (h : heap) (obj : value) (p : option JSONPath)
  : outcome value :=
  match p with
  | None | Some [] => Ok obj
  | Some segs => walk h obj segs
  end.

(** The container made for a missing step: [[]] when the next segment
    is a number, [{}] otherwise. *)
Definition empty_for (next : segment) : object :=
  if is_number next then Arr [] [] else Obj [].

Definition new_container (next : segment) (h : heap) : value * heap :=
  new_object (empty_for next) h.

(** The loop of [setValueAtPath], from the segment at hand. *)
Fixpoint assign (h : heap) (cur : value) (segs : JSONPath) (x : value)
  : outcome heap :=
  match segs with
  | [] => Ok h
  | [seg] => prop_set h cur (key_of seg) x
  | seg :: (next :: _) as rest =>
      let* c := prop_get h cur (key_of seg) in
      let* h1 :=
        match c with
        | VUndefined =>
            let '(fresh, h0) := new_container next h in
            prop_set h0 cur (key_of seg) fresh
        | _ => Ok h
        end in
      let* c' := prop_get h1 cur (key_of seg) in
      assign h1 c' rest x
  end.

Definition setValueAtPath (h : heap) (obj : value) (p : option JSONPath)
  (x : value) : outcome (value * heap) :=
  match p with
  | None | Some [] => Ok (x, h)
  | Some segs =>
      let* (clone, h1) :=
        if isArray h obj then spread_array h obj else spread_object h obj in
      let* h2 := assign h1 clone segs x in
      Ok (clone, h2)
  end.
End PathEngine.

(** ** Documents *)

(** The shape of a value, read through the store: what [JSON.parse]
    builds and what deep equality compares. *)
Unset Elimination Schemes.
Inductive tree :=
| TUndefined
| TNull
| TBool (b : bool)
| TNum (n : Z)
| TStr (s : string)
| TArr (items : list tree)
| TObj (members : props tree).
Set Elimination Schemes.

(** The store representation of a tree, its parts first.  The members of
    an object are defined in the order of the text, a repeated key keeping
    its first place and its last value. *)
Fixpoint alloc (t : tree) (h : heap) : value * heap :=
  match t with
  | TUndefined => (VUndefined, h)
  | TNull => (VNull, h)
  | TBool b => (VBool b, h)
  | TNum n => (VNum n, h)
  | TStr s => (VStr s, h)
  | TArr items =>
      let '(vs, h') :=
        (fix go (ts : list tree) (h : heap) : list (option value) * heap :=
           match ts with
           | [] => ([], h)
           | t :: ts' =>
               let '(v, h1) := alloc t h in
               let '(vs, h2) := go ts' h1 in
               (Some v :: vs, h2)
           end) items h in
      new_object (Arr vs []) h'
  | TObj members =>
      let '(ps, h') :=
        (fix go (ms : props tree) (h : heap) : props value * heap :=
           match ms with
           | [] => ([], h)
           | (k, t) :: ms' =>
               let '(v, h1) := alloc t h in
               let '(ps, h2) := go ms' h1 in
               ((k, v) :: ps, h2)
           end) members h in
      new_object (Obj (fold_left (fun acc kv => upsert kv.1 kv.2 acc) ps [])) h'
  end.

(** The items of an array and the members of an object, in the store. *)
Fixpoint alloc_items (ts : list tree) (h : heap) : list (option value) * heap :=
  match ts with
  | [] => ([], h)
  | t :: ts' =>
      let '(v, h1) := alloc t h in
      let '(vs, h2) := alloc_items ts' h1 in
      (Some v :: vs, h2)
  end.

Fixpoint alloc_members (ms : props tree) (h : heap) : props value * heap :=
  match ms with
  | [] => ([], h)
  | (k, t) :: ms' =>
      let '(v, h1) := alloc t h in
      let '(ps, h2) := alloc_members ms' h1 in
      ((k, v) :: ps, h2)
  end.

(** The tree a value stands for, down to [fuel] levels of containers. *)
Fixpoint snapshot (fuel : nat) (h : heap) (v : value) : option tree :=
  match v with
  | VUndefined => Some TUndefined
  | VNull => Some TNull
  | VBool b => Some (TBool b)
  | VNum n => Some (TNum n)
  | VStr s => Some (TStr s)
  | VRef l =>
      match fuel with
      | O => None
      | S fuel' =>
          match h !! l with
          | None => None
          | Some (Arr elems _) =>
              TArr <$> mapM (fun e => snapshot fuel' h (default VUndefined e)) elems
          | Some (Obj fields) =>
              TObj <$> mapM (fun kv => pair kv.1 <$> snapshot fuel' h kv.2)
                            (own_entries fields)
          end
      end
  end.

(** The snapshot of a value of an acyclic store: every chain of containers
    is shorter than the store. *)
Definition shape (h : heap) (v : value) : option tree :=
  snapshot (S (length h)) h v.

(** ** A host for the examples *)

Definition object_members : list string :=
  ["constructor"; "hasOwnProperty"; "isPrototypeOf"; "propertyIsEnumerable";
   "toLocaleString"; "toString"; "valueOf"; "__proto__";
   "__defineGetter__"; "__defineSetter__"; "__lookupGetter__"; "__lookupSetter__"].

Definition array_members : list string :=
  ["concat"; "copyWithin"; "entries"; "every"; "fill"; "filter"; "find";
   "findIndex"; "forEach"; "includes"; "indexOf"; "join"; "keys";
   "lastIndexOf"; "map"; "pop"; "push"; "reduce"; "reduceRight"; "reverse";
   "shift"; "slice"; "some"; "sort"; "splice"; "unshift"; "values"].

Definition string_members : list string :=
  ["charAt"; "charCodeAt"; "codePointAt"; "concat"; "endsWith"; "includes";
   "indexOf"; "lastIndexOf"; "localeCompare"; "match"; "normalize"; "repeat";
   "replace"; "search"; "slice"; "split"; "startsWith"; "substring";
   "toLowerCase"; "toUpperCase"; "trim"].

Definition number_members : list string :=
  ["toExponential"; "toFixed"; "toPrecision"].

Definition mem_string (s : string) (l : list string) : bool :=
  existsb (String.eqb s) l.

(** An engine for the examples: members of the built-in prototypes that
    every engine has.  The list is not complete; the properties below hold
    for any list. *)
Definition example_engine : Builtins :=
  {| inherited k key :=
       mem_string key object_members ||
       match k with
       | KObject | KBoolean => false
       | KArray => mem_string key array_members
       | KString => mem_string key string_members
       | KNumber => mem_string key number_members
       end |}.

(** ** Text *)

(** The double quote, as a character and as a one-character text. *)
Definition dquote : ascii := ascii_of_N 34.
Definition dq : string := String dquote EmptyString.

Definition hex_digit (n : N) : ascii :=
  ascii_of_N (if (n <? 10)%N then 48 + n else 87 + n).

(** A character inside a JSON string literal: the quote, the backslash
    and the control characters are escaped, everything else is kept. *)
Definition quote_char (c : ascii) : string :=
  let n := N_of_ascii c in
  if (n =? 34)%N then String.append "\" dq
  else if (n =? 92)%N then "\\"
  else if (n =? 8)%N then "\b"
  else if (n =? 9)%N then "\t"
  else if (n =? 10)%N then "\n"
  else if (n =? 12)%N then "\f"
  else if (n =? 13)%N then "\r"
  else if (n <? 32)%N then
    String.append "\u00"
      (String (hex_digit (n / 16)) (String (hex_digit (n mod 16)) EmptyString))
  else String c EmptyString.

Fixpoint quote_body (s : string) : string :=
  match s with
  | EmptyString => EmptyString
  | String c s' => String.append (quote_char c) (quote_body s')
  end.

(** The JSON string literal of a text. *)
Definition quote (s : string) : string :=
  String.append dq (String.append (quote_body s) dq).

(** The line feed. *)
Definition nl : string := String (ascii_of_N 10) EmptyString.

(** [open + members + close] as [JSON.stringify] lays a container out:
    on one line without a gap, one member per line at the inner
    indentation otherwise. *)
Definition layout (open close gap indent : string) (parts : list string)
  : string :=
  match parts with
  | [] => String.append open close
  | _ =>
      if String.eqb gap EmptyString then
        String.append open (String.append (String.concat "," parts) close)
      else
        let inner := String.append indent gap in
        String.append open (String.append nl (String.append inner
          (String.append (String.concat (String.append "," (String.append nl inner)) parts)
             (String.append nl (String.append indent close)))))
  end.

(** [JSON.stringify(t, null, gap)], at the indentation [indent]; [None]
    is [undefined].  A member whose value is [undefined] is left out of an
    object and written [null] in an array. *)
Fixpoint stringify (gap indent : string) (t : tree) : option string :=
  match t with
  | TUndefined => None
  | TNull => Some "null"
  | TBool b => Some (if b then "true" else "false")
  | TNum n => Some (decZ n)
  | TStr s => Some (quote s)
  | TArr items =>
      let inner := String.append indent gap in
      Some (layout "[" "]" gap indent
              ((fix go (ts : list tree) : list string :=
                  match ts with
                  | [] => []
                  | t :: ts' => default "null" (stringify gap inner t) :: go ts'
                  end) items))
  | TObj members =>
      let inner := String.append indent gap in
      let colon := if String.eqb gap EmptyString then ":" else ": " in
      Some (layout "{" "}" gap indent
              ((fix go (ms : props tree) : list string :=
                  match ms with
                  | [] => []
                  | (k, t) :: ms' =>
                      match stringify gap inner t with
                      | Some s => String.append (quote k) (String.append colon s) :: go ms'
                      | None => go ms'
                      end
                  end) members))
  end.

(** [JSON.stringify(t, null, 2)] *)
Definition stringify2 (t : tree) : option string :=
  stringify "  " EmptyString t.

(** [String(t)], the conversion a template literal applies: a text is
    kept as it is, an array is its items joined by commas ([null] and
    [undefined] items are empty), an object is [[object Object]]. *)
Fixpoint to_string (t : tree) : string :=
  match t with
  | TUndefined => "undefined"
  | TNull => "null"
  | TBool b => if b then "true" else "false"
  | TNum n => decZ n
  | TStr s => s
  | TArr items =>
      String.concat ","
        ((fix go (ts : list tree) : list string :=
            match ts with
            | [] => []
            | t :: ts' =>
                match t with
                | TUndefined | TNull => EmptyString
                | _ => to_string t
                end :: go ts'
            end) items)
  | TObj _ => "[object Object]"
  end.

Definition tree_is_proto (t : tree) : bool :=
  match t with
  | TNull | TArr _ | TObj _ => true
  | _ => false
  end.

(** ** The rows of a node *)

(** A row of [NodeData["text"]]: [key] is [None] when the row has none. *)
Record row := { key : option string; value_of : tree; type : string }.

(** [row.key] taken as a condition: a key that is there and not empty. *)
Definition truthy_key (r : row) : option string :=
  match key r with
  | Some k => if String.eqb k EmptyString then None else Some k
  | None => None
  end.

(** [row.type !== "array" && row.type !== "object"] *)
Definition is_scalar_row (r : row) : bool :=
  negb (String.eqb (type r) "array") && negb (String.eqb (type r) "object").

(** The body of the [forEach]: one row on the object being built. *)
Definition add_row (obj : props tree) (r : row) : outcome (props tree) :=
  if is_scalar_row r then
    match truthy_key r with
    | Some k => assign_prop tree_is_proto k (value_of r) obj
    | None => Ok obj
    end
  else Ok obj.

Fixpoint add_rows (obj : props tree) (rows : list row) : outcome (props tree) :=
  match rows with
  | [] => Ok obj
  | r :: rows' =>
      let* obj' := add_row obj r in
      add_rows obj' rows'
  end.

Definition normalizeNodeData (nodeRows : list row) : outcome (option string) :=
  match nodeRows with
  | [] => Ok (Some "{}")
  | r :: rest =>
      if Nat.eqb (length nodeRows) 1 && negb (bool_decide (is_Some (truthy_key r)))
      then Ok (Some (to_string (value_of r)))
      else
        let* obj := add_rows [] nodeRows in
        Ok (stringify2 (TObj (own_entries obj)))
  end.

(** ** The path shown under the content *)

(** A segment as [map] leaves it: the number, or the key between quotes. *)
Definition segment_text (seg : segment) : string :=
  match seg with
  | Index n => dec n
  | Key s => String.append dq (String.append s dq)
  end.

Definition jsonPathToString (p : option JSONPath) : string :=
  match p with
  | None | Some [] => "$"
  | Some segs =>
      String.append "$[" (String.append (String.concat "][" (map segment_text segs)) "]")
  end.

(** ** The modal *)

(** What the modal reads of a [NodeData]. *)
Record node := { path : option JSONPath; text : list row }.

(** The state of the component; [editValue] is [None] when it holds
    [undefined]. *)
Record modal := {
  editing : bool;
  editValue : option string;
  error : option string
}.

(** What the modal reads from the stores: the selected node and the text
    [getJson()] returns. *)
Record stores := { selectedNode : option node; getJson : string }.

(** The calls the modal makes on the stores. *)
Inductive event :=
| SetContents (contents : option string) (hasChanges : bool)
| SetGraph (text : option string)
| SetSelectedNode (n : node).

(** [try { m } catch (e) { handler(e) }] *)
Definition try_catch {A} (m : outcome A) (handler : exn -> outcome A)
  : outcome A :=
  match m with
  | Throw e => handler e
  | _ => m
  end.

Definition segment_tree (seg : segment) : tree :=
  match seg with
  | Index n => TNum (Z.of_N n)
  | Key s => TStr s
  end.

(** [JSON.stringify(p)] for a path that may be [undefined]. *)
Definition path_text (p : option JSONPath) : option string :=
  match p with
  | None => None
  | Some segs => stringify EmptyString EmptyString (TArr (map segment_tree segs))
  end.

Section Modal.
Context `{Builtins}.

(** [JSON.parse]: the value of a text, or a [SyntaxError]. *)
Variable JSON_parse : string -> outcome tree.

(** [useGraph.getState().setGraph(text)] followed by the read of
    [useGraph.getState().nodes]: the nodes of the rebuilt graph. *)
Variable setGraph : option string -> outcome (list node).

(** The messages the engine gives its own errors. *)
Variable type_error_text range_error_text : string.

(** [err.message] *)
Definition message (e : exn) : string :=
  match e with
  | SyntaxError msg => msg
  | TypeError => type_error_text
  | RangeError => range_error_text
  end.

(** [JSON.parse(text)] into the store. *)
Definition parse_in (text : string) (h : heap) : outcome (value * heap) :=
  let* t := JSON_parse text in
  Ok (alloc t h).

(** [JSON.stringify(v, null, 2)]; a cyclic value is a [TypeError]. *)
Definition stringify_value (h : heap) (v : value) : outcome (option string) :=
  match shape h v with
  | Some t => Ok (stringify2 t)
  | None => Throw TypeError
  end.

Definition path_of (s : stores) : option JSONPath :=
  match selectedNode s with
  | Some n => path n
  | None => None
  end.

Definition rows_of (s : stores) : list row :=
  match selectedNode s with
  | Some n => text n
  | None => []
  end.

(** The text computed for [setEditValue] on selection, Edit and Cancel. *)
Definition current_text (s : stores) : outcome (option string) :=
  try_catch
    (let* (parsed, h) := parse_in (getJson s) [] in
     let* current := getValueAtPath h parsed (path_of s) in
     stringify_value h current)
    (fun _ => normalizeNodeData (rows_of s)).

(** The effect run when the selected node changes. *)
Definition on_select (m : modal) (s : stores) : outcome modal :=
  let* text := current_text s in
  Ok {| editing := false; error := None; editValue := text |}.

(** The Edit button. *)
Definition on_edit (m : modal) (s : stores) : outcome modal :=
  let* text := current_text s in
  Ok {| editing := true; error := error m; editValue := text |}.

(** The Cancel button. *)
Definition on_cancel (m : modal) (s : stores) : outcome modal :=
  let* text := current_text s in
  Ok {| editing := false; error := None; editValue := text |}.

(** What the content area shows. *)
Definition displayed (m : modal) (s : stores) : outcome (option string) :=
  if editing m then Ok (editValue m) else normalizeNodeData (rows_of s).

(** The text [JSON.parse] is given for the edit buffer. *)
Definition buffer_text (m : modal) : string :=
  default "undefined" (editValue m).

Definition same_path (target : string) (n : node) : bool :=
  match path_text (path n) with
  | Some t => String.eqb t target
  | None => false
  end.

(** The inner [try]: the graph is rebuilt from the new text and the
    node at the saved path selected again; an exception is dropped. *)
Definition reselect (s : stores) (h : heap) (updated : value)
  : outcome (list event) :=
  try_catch
    (let* text := stringify_value h updated in
     try_catch
       (let* nodes := setGraph text in
        match path_text (path_of s) with
        | Some target =>
            if String.eqb target EmptyString then Ok [SetGraph text]
            else match find (same_path target) nodes with
                 | Some found => Ok [SetGraph text; SetSelectedNode found]
                 | None => Ok [SetGraph text]
                 end
        | None => Ok [SetGraph text]
        end)
       (fun _ => Ok [SetGraph text]))
    (fun _ => Ok []).

(** The Save button.  Every step of the outer [try] that can throw comes
    before the first call on a store, so a caught exception leaves no
    event behind. *)
Definition handleSave (m : modal) (s : stores) : outcome (modal * list event) :=
  try_catch
    (let* (parsedNew, h1) := parse_in (buffer_text m) [] in
     let* (whole, h2) := parse_in (getJson s) h1 in
     let* (updated, h3) := setValueAtPath h2 whole (path_of s) parsedNew in
     let* contents := stringify_value h3 updated in
     let* rebuilt := reselect s h3 updated in
     Ok ({| editing := false; error := None; editValue := editValue m |},
         SetContents contents true :: rebuilt))
    (fun e =>
       Ok ({| editing := editing m; error := Some (message e);
              editValue := editValue m |}, [])).
End Modal.

(** ** Reference definitions *)

(** The rendering of one segment in the path expression: [[n]] for a
    number, the key between quotes and brackets for a string. *)
Definition bracket (seg : segment) : string :=
  match seg with
  | Index n => String.append "[" (String.append (dec n) "]")
  | Key s => String.append "[" (String.append dq (String.append s (String.append dq "]")))
  end.

Fixpoint brackets (segs : JSONPath) : string :=
  match segs with
  | [] => EmptyString
  | seg :: rest => String.append (bracket seg) (brackets rest)
  end.

(** A row whose key is the empty text, with the key taken away. *)
Definition without_empty_key (r : row) : row :=
  match key r with
  | Some k =>
      if String.eqb k EmptyString
      then {| key := None; value_of := value_of r; type := type r |}
      else r
  | None => r
  end.

(** The normalization as the specification words it: a lone row without
    a key is its value as JSON text; otherwise the rows that have a key and
    are not containers, as the members of an object, in row order. *)
Definition spec_member (r : row) : option (string * tree) :=
  match key r with
  | Some k => if is_scalar_row r then Some (k, value_of r) else None
  | None => None
  end.

Definition normalize_spec (rows : list row) : option string :=
  match rows with
  | [] => Some "{}"
  | [r] =>
      match key r with
      | None => stringify2 (value_of r)
      | Some _ => stringify2 (TObj (omap spec_member rows))
      end
  | _ => stringify2 (TObj (omap spec_member rows))
  end.

(** What the code computes, said without the object being filled: the
    rows that count are those with a key that is neither absent nor empty
    and a type other than [array] and [object]. *)
Definition kept (r : row) : option (string * tree) :=
  if is_scalar_row r then
    match truthy_key r with
    | Some k => Some (k, value_of r)
    | None => None
    end
  else None.

(** The keys of a list of members, each at its first occurrence. *)
Fixpoint first_keys {A} (ms : props A) : list string :=
  match ms with
  | [] => []
  | (k, _) :: ms' => k :: filter (fun k' => negb (String.eqb k' k)) (first_keys ms')
  end.

(** The value of the last member with the key [k]. *)
Definition last_value {A} (k : string) (ms : props A) : option A :=
  lookup_prop k (rev ms).

(** One member per key: the key at its first place, with its last value. *)
Definition mapping {A} (ms : props A) : props A :=
  omap (fun k => pair k <$> last_value k ms) (first_keys ms).

Definition normalize_ref (rows : list row) : option string :=
  match rows with
  | [] => Some "{}"
  | r :: rest =>
      match rest, truthy_key r with
      | [], None => Some (to_string (value_of r))
      | _, _ => stringify2 (TObj (own_entries (mapping (omap kept rows))))
      end
  end.

(** No row that counts has the key [__proto__], the one key an
    assignment does not turn into an own property. *)
Definition proto_free (rows : list row) : bool :=
  forallb (fun r =>
             match kept r with
             | Some (k, _) => negb (String.eqb k "__proto__")
             | None => true
             end) rows.

(** ** Notions the properties are stated with *)

(** The segment names nothing in [c]: [c] is [undefined] or [null], or
    [key] is neither an own property of [c] nor a member of its
    prototype chain. *)
Definition missing `{Builtins} (h : heap) (c : value) (key : string) : bool :=
  match c with
  | VUndefined | VNull => true
  | _ =>
      match own_prop h c key, kind_of h c with
      | None, Some k => negb (inherited k key)
      | _, _ => false
      end
  end.

(** The last segment is the key [__proto__]. *)
Definition proto_last (p : option JSONPath) : bool :=
  match p with
  | Some segs =>
      match last (map key_of segs) with
      | Some k => String.eqb k "__proto__"
      | None => false
      end
  | None => false
  end.



(** Deep equality of two values, each read in its store: the same shape
    at every depth. *)
Definition deep_equal (h1 : heap) (v1 : value) (h2 : heap) (v2 : value) : Prop :=
  forall fuel, snapshot fuel h1 v1 = snapshot fuel h2 v2.

(** The values an object holds. *)
Definition children (o : object) : list value :=
  match o with
  | Obj fields => map snd fields
  | Arr elems extra => omap id elems ++ map snd extra
  end.

Definition below (l : loc) (v : value) : Prop :=
  match v with
  | VRef l' => l' < l
  | _ => True
  end.

(** A value whose containers, all at [lo] or above, hold only values
    made before them: what [alloc] builds. *)
Unset Elimination Schemes.
Inductive otree (h : heap) (lo : nat) : value -> Prop :=
| ot_undefined : otree h lo VUndefined
| ot_null : otree h lo VNull
| ot_bool b : otree h lo (VBool b)
| ot_num n : otree h lo (VNum n)
| ot_str s : otree h lo (VStr s)
| ot_ref l o :
    h !! l = Some o ->
    lo <= l ->
    Forall (fun v => below l v /\ otree h lo v) (children o) ->
    otree h lo (VRef l).
Set Elimination Schemes.

Definition is_ref (v : value) : bool :=
  match v with
  | VRef _ => true
  | _ => false
  end.

Definition is_array_object (o : object) : bool :=
  match o with
  | Arr _ _ => true
  | Obj _ => false
  end.

(** An index entry is filed under the index its key names. *)
Definition filed {A} (x : N * (string * A)) : Prop :=
  array_index x.2.1 = Some x.1.

(** The order of index entries. *)
Definition by_index {A} (x y : N * (string * A)) : Prop := (x.1 <= y.1)%N.

(** ** A host for the examples *)

(** [JSON.parse] on the texts of the examples; what it does on another
    text is left to the engine. *)
Definition example_parse (text : string) : outcome tree :=
  if String.eqb text "{}" then Ok (TObj [])
  else if String.eqb text "1" then Ok (TNum 1)
  else if String.eqb text "{invalid" then Throw (SyntaxError "Unexpected token i")
  else HostDefined.

(** The documents of the examples, in an empty store. *)
Definition example_object : value * heap :=
  alloc (TObj [("a", TNull); ("b", TArr [TNum 10])]) [].

Definition example_array : value * heap :=
  alloc (TArr [TNum 10; TNum 20]) [].

(** A graph store whose rebuilt graph has no node. *)
Definition example_graph (text : option string) : outcome (list node) := Ok [].

(** ** The session of the modal *)

(** The state the component starts in: [useState(false)],
    [useState("")], [useState(null)]. *)
Definition initial : modal :=
  {| editing := false; editValue := Some EmptyString; error := None |}.

(** [onChange] of the text area: [setEditValue(e.currentTarget.value)]. *)
Definition on_change (m : modal) (typed : string) : modal :=
  {| editing := editing m; editValue := Some typed; error := error m |}.

Section Session.
Context `{Builtins}.
Variable JSON_parse : string -> outcome tree.
Variable setGraph : option string -> outcome (list node).
Variable type_error_text range_error_text : string.

(** What can happen to the state.  The selected node may change at any
    time; the Edit button is rendered when [editing] is false; the text
    area, Save and Cancel when it is true. *)
Inductive step : modal -> modal -> Prop :=
| step_select m s m' :
    on_select JSON_parse m s = Ok m' -> step m m'
| step_edit m s m' :
    editing m = false -> on_edit JSON_parse m s = Ok m' -> step m m'
| step_change m typed :
    editing m = true -> step m (on_change m typed)
| step_save m s m' events :
    editing m = true ->
    handleSave JSON_parse setGraph type_error_text range_error_text m s
    = Ok (m', events) ->
    step m m'
| step_cancel m s m' :
    editing m = true -> on_cancel JSON_parse m s = Ok m' -> step m m'.

Inductive reachable : modal -> Prop :=
| reach_initial : reachable initial
| reach_step m m' : reachable m -> step m m' -> reachable m'.
End Session.

(** [JSON.parse] on two more texts. *)
Definition example_parse_more (text : string) : outcome tree :=
  if String.eqb text "[null]" then Ok (TArr [TNull])
  else if String.eqb text "[[1]]" then Ok (TArr [TArr [TNum 1]])
  else if String.eqb text "undefined" then Throw (SyntaxError "Unexpected token u")
  else example_parse text.

(** A graph store whose rebuilt graph has the root node and a node at
    the path [a]. *)
Definition example_graph_two (text : option string) : outcome (list node) :=
  Ok [ {| path := Some []; text := [] |};
       {| path := Some [Key "a"]; text := [] |} ].

(** ** The text of a path *)

(** [JSON.stringify] of one segment: the number in decimal, the key as a
    string literal. *)
Definition segment_json (seg : segment) : string :=
  match seg with
  | Index n => decZ (Z.of_N n)
  | Key s => quote s
  end.

(** What follows the first segment in the text of a path: a comma before
    each further segment, and the closing bracket. *)
Fixpoint path_tail (segs : JSONPath) : string :=
  match segs with
  | [] => "]"
  | seg :: rest => String.append "," (String.append (segment_json seg) (path_tail rest))
  end.

(** A text that starts with a comma or a closing bracket. *)
Definition separated_text (r : string) : bool :=
  match r with
  | String c _ => Ascii.eqb c "," || Ascii.eqb c "]"
  | EmptyString => false
  end.

Definition all_ascii : list ascii := map ascii_of_nat (seq 0 256).

(** The escapes of [quote_char] checked character by character: none
    starts with the quote, and none is the start of another. *)
Definition quote_code_ok : bool :=
  forallb
    (fun c1 =>
       match quote_char c1 with
       | String a _ => negb (Ascii.eqb a dquote)
       | EmptyString => false
       end
       && forallb
            (fun c2 =>
               implb (String.prefix (quote_char c1) (quote_char c2))
                     (Ascii.eqb c1 c2))
            all_ascii)
    all_ascii.

(** ** Keys that show as they are *)

(** A text without a double quote. *)
Fixpoint quote_free (s : string) : bool :=
  match s with
  | EmptyString => true
  | String c s' => negb (Ascii.eqb c dquote) && quote_free s'
  end.

(** A number, or a key without a double quote. *)
Definition plain_key (seg : segment) : bool :=
  match seg with
  | Index _ => true
  | Key s => quote_free s
  end.

(** ** The document a text stands for *)

(** What [JSON.stringify] sees of the value [JSON.parse] built from a
    tree: of the members of an object with the same key the first keeps
    its place and the last its value, and the keys that are array indices
    come first, in ascending order. *)
Fixpoint canon (t : tree) : tree :=
  match t with
  | TArr items => TArr (map canon items)
  | TObj members =>
      TObj (own_entries
              (fold_left (fun acc kv => upsert kv.1 kv.2 acc)
                 ((fix go (ms : props tree) : props tree :=
                     match ms with
                     | [] => []
                     | (k, t) :: ms' => (k, canon t) :: go ms'
                     end) members) []))
  | _ => t
  end.

(** The members of an object, each with its canonical value. *)
Fixpoint canon_members (ms : props tree) : props tree :=
  match ms with
  | [] => []
  | (k, t) :: ms' => (k, canon t) :: canon_members ms'
  end.

(** A store that holds every object of another. *)
Definition extends (h' h : heap) : Prop :=
  forall l o, h !! l = Some o -> h' !! l = Some o.

(** A value of the store that [JSON.parse] built from the tree [t], in a
    store that still holds it. *)
Definition holds (h : heap) (v : value) (t : tree) : Prop :=
  exists h0 h1, alloc t h0 = (v, h1) /\ extends h h1.

(** ** Reading a tree *)

Section TreeRead.
Context `{Builtins}.

Definition tree_proto (k : kind) (key : string) : outcome tree :=
  if inherited k key then HostDefined else Ok TUndefined.

(** [t[key]] on the tree of a value: a member of an object, an item or
    the length of an array, a character or the length of a text; else
    what the prototype chain gives. *)
Definition tree_get (t : tree) (key : string) : outcome tree :=
  match t with
  | TUndefined | TNull => Throw TypeError
  | TBool _ => tree_proto KBoolean key
  | TNum _ => tree_proto KNumber key
  | TStr s =>
      if String.eqb key "length" then Ok (TNum (Z.of_nat (String.length s)))
      else match array_index key with
           | Some i =>
               match char_at s i with
               | Some c => Ok (TStr c)
               | None => tree_proto KString key
               end
           | None => tree_proto KString key
           end
  | TArr items =>
      if String.eqb key "length" then Ok (TNum (Z.of_nat (length items)))
      else match array_index key with
           | Some i =>
               match items !! N.to_nat i with
               | Some item => Ok item
               | None => tree_proto KArray key
               end
           | None => tree_proto KArray key
           end
  | TObj members =>
      match lookup_prop key members with
      | Some member => Ok member
      | None => tree_proto KObject key
      end
  end.

(** The walk of [getValueAtPath], on a tree. *)
Fixpoint tree_walk (t : tree) (segs : JSONPath) : outcome tree :=
  match segs with
  | [] => Ok t
  | seg :: rest =>
      match t with
      | TUndefined | TNull => Ok TUndefined
      | _ =>
          let* next := tree_get t (key_of seg) in
          tree_walk next rest
      end
  end.
End TreeRead.

(** ** Writing a member of a tree *)

(** [items[i] = x] on the items of an array: a position past the end
    leaves holes, which read as [undefined]. *)
Definition set_item (i : nat) (x : tree) (items : list tree) : list tree :=
  if decide (i < length items) then <[i := x]> items
  else items ++ replicate (i - length items) TUndefined ++ [x].

(** [t[key] = x] as the next [JSON.stringify] sees it, for a key of an
    object other than [__proto__] and a position of an array: the member
    is replaced where it is, a new one goes last, and the keys are
    enumerated again. *)
Definition tree_put (t : tree) (key : string) (x : tree) : option tree :=
  match t with
  | TObj members =>
      if String.eqb key "__proto__" then None
      else Some (TObj (own_entries (upsert key x members)))
  | TArr items =>
      match array_index key with
      | Some i => Some (TArr (set_item (N.to_nat i) x items))
      | None => None
      end
  | _ => None
  end.

(** ** Writing along a path of a tree *)

(** The member of a tree at a key: of an object, or at a position of an
    array. *)
Definition tree_member (t : tree) (key : string) : option tree :=
  match t with
  | TObj members => lookup_prop key members
  | TArr items =>
      match array_index key with
      | Some i => items !! N.to_nat i
      | None => None
      end
  | _ => None
  end.

(** The tree with the sub-tree at a path replaced, for a path that goes
    through members that are there: every step but the last enters a
    member, the last puts the new one. *)
Fixpoint tree_set (t : tree) (segs : JSONPath) (x : tree) : option tree :=
  match segs with
  | [] => Some x
  | [seg] => tree_put t (key_of seg) x
  | seg :: (_ :: _) as rest =>
      match tree_member t (key_of seg) with
      | Some sub =>
          match tree_set sub rest x with
          | Some sub' => tree_put t (key_of seg) sub'
          | None => None
          end
      | None => None
      end
  end.

(** ** Containers that share nothing *)


(** Two values that share nothing: one lies wholly above the other. *)
Definition separate (h : heap) (v w : value) : Prop :=
  exists mid, (below mid v /\ otree h mid w) \/ (below mid w /\ otree h mid v).

(** A member as the parser left it under the container at [l]: built
    from a tree in the part of the store below [l], and read as the tree
    [m]. *)
Definition member_of (h : heap) (l : loc) (w : value) (m : tree) : Prop :=
  exists sub hp,
    holds hp w sub /\ extends h hp /\ length hp <= l /\ m = canon sub.

(** The container at [l] reads as the tree [t], member by member, and its
    members share nothing. *)
Definition built (h : heap) (l : loc) (t : tree) : Prop :=
  match h !! l with
  | Some (Obj fields) =>
      exists ms,
        t = TObj (own_entries ms)
        /\ List.NoDup (map fst ms)
        /\ Forall2 (fun p m => p.1 = m.1 /\ member_of h l p.2 m.2) fields ms
        /\ forall p q, p ∈ fields -> q ∈ fields -> p.1 <> q.1 ->
                       separate h p.2 q.2
  | Some (Arr elems _) =>
      exists items,
        t = TArr items
        /\ Forall2 (fun e m => exists w, e = Some w /\ member_of h l w m)
                   elems items
        /\ forall i j v w,
             elems !! i = Some (Some v) -> elems !! j = Some (Some w) -> i <> j ->
             separate h v w
  | None => False
  end.
(** * Properties *)

Lemma append_assoc (a b c : string) :
  String.append (String.append a b) c = String.append a (String.append b c).
Proof. induction a as [|x a IH]; simpl; [reflexivity | now rewrite IH]. Qed.

Lemma append_nil_r (a : string) : String.append a EmptyString = a.
Proof. induction a as [|x a IH]; simpl; [reflexivity | now rewrite IH]. Qed.

(** ** The path expression *)

Lemma joined_brackets (seg : segment) (rest : JSONPath) :
  String.append "[" (String.append (String.concat "][" (map segment_text (seg :: rest))) "]")
  = brackets (seg :: rest).
Proof.
  revert seg. induction rest as [|seg' rest IH]; intros seg.
  - destruct seg; simpl; rewrite ?append_assoc, ?append_nil_r; reflexivity.
  - change (String.concat "][" (map segment_text (seg :: seg' :: rest)))
      with (String.append (segment_text seg)
              (String.append "][" (String.concat "][" (map segment_text (seg' :: rest))))).
    change (brackets (seg :: seg' :: rest))
      with (String.append (bracket seg) (brackets (seg' :: rest))).
    rewrite <- IH.
    destruct seg; simpl; rewrite ?append_assoc; reflexivity.
Qed.

(** C9: [jsonPathToString] is a total function of the path alone; the
    absent and the empty path give [$]; otherwise the result is [$]
    followed by the segments in order, a number [n] as [[n]] and a string
    as the key between quotes and brackets, the key unchanged; the three
    examples of the specification hold. *)
Theorem jsonPathToString_brackets :
  jsonPathToString None = "$"
  /\ jsonPathToString (Some []) = "$"
  /\ (forall segs : JSONPath,
        jsonPathToString (Some segs) = String.append "$" (brackets segs))
  /\ jsonPathToString (Some [Key "a"; Key "b"])
     = String.append "$[" (String.append dq (String.append "a" (String.append dq
         (String.append "][" (String.append dq (String.append "b" (String.append dq "]")))))))
  /\ jsonPathToString (Some [Key "items"; Index 2])
     = String.append "$[" (String.append dq (String.append "items" (String.append dq "][2]"))).
Proof.
  repeat split; try reflexivity.
  intros [|seg rest]; [reflexivity|].
  unfold jsonPathToString.
  rewrite <- joined_brackets. reflexivity.
Qed.

(** ** The rows of a node *)

Lemma truthy_without_empty_key (r : row) :
  truthy_key (without_empty_key r) = truthy_key r.
Proof.
  unfold without_empty_key, truthy_key.
  destruct (key r) as [k|] eqn:Hk; [|now rewrite Hk].
  destruct (String.eqb k EmptyString) eqn:Hempty; simpl; [reflexivity|].
  now rewrite Hk, Hempty.
Qed.

Lemma add_row_without_empty_key (obj : props tree) (r : row) :
  add_row obj (without_empty_key r) = add_row obj r.
Proof.
  unfold add_row. rewrite truthy_without_empty_key.
  assert (is_scalar_row (without_empty_key r) = is_scalar_row r) as ->.
  { unfold without_empty_key. destruct (key r) as [k|]; [|reflexivity].
    now destruct (String.eqb k EmptyString). }
  assert (value_of (without_empty_key r) = value_of r) as ->.
  { unfold without_empty_key. destruct (key r) as [k|]; [|reflexivity].
    now destruct (String.eqb k EmptyString). }
  reflexivity.
Qed.

Lemma add_rows_without_empty_key (rows : list row) (obj : props tree) :
  add_rows obj (map without_empty_key rows) = add_rows obj rows.
Proof.
  revert obj. induction rows as [|r rows IH]; intros obj; simpl; [reflexivity|].
  rewrite add_row_without_empty_key.
  destruct (add_row obj r); simpl; auto.
Qed.

(** C10: a row whose key is the empty text is treated as a row without a
    key: taking the empty keys away changes no result of
    [normalizeNodeData]; a lone row with the empty key is rendered by the
    bare branch, as its value alone; and in the loop such a row leaves the
    object as it is. *)
Theorem empty_key_is_no_key :
  (forall rows : list row,
      normalizeNodeData (map without_empty_key rows) = normalizeNodeData rows)
  /\ (forall (v : tree) (t : string),
        normalizeNodeData [{| key := Some EmptyString; value_of := v; type := t |}]
        = Ok (Some (to_string v)))
  /\ (forall (obj : props tree) (r : row),
        key r = Some EmptyString -> add_row obj r = Ok obj).
Proof.
  split; [|split].
  - intros [|r rest]; [reflexivity|].
    cbn [map normalizeNodeData].
    rewrite truthy_without_empty_key.
    change (without_empty_key r :: map without_empty_key rest)
      with (map without_empty_key (r :: rest)).
    rewrite add_rows_without_empty_key.
    rewrite length_map. assert (value_of (without_empty_key r) = value_of r) as ->; [|reflexivity].
    unfold without_empty_key. destruct (key r) as [k|]; [|reflexivity].
    now destruct (String.eqb k EmptyString).
  - reflexivity.
  - intros obj r Hk. unfold add_row, truthy_key. rewrite Hk. simpl.
    now destruct (is_scalar_row r).
Qed.

Lemma empty_key_is_no_key_example :
  add_row [("a", TNum 1)] {| key := Some EmptyString; value_of := TNum 2; type := "number" |}
  = Ok [("a", TNum 1)].
Proof.
  apply (proj2 (proj2 empty_key_is_no_key)). reflexivity.
Defined.

(** *** Property lists: keys and values *)

Section PropsFacts.
Context {A : Type}.
Implicit Types (ps ms : props A) (k : string) (v : A).

Lemma lookup_prop_None ps k :
  lookup_prop k ps = None <-> ~ In k (map fst ps).
Proof.
  induction ps as [|[k' v'] ps IH]; simpl; [tauto|].
  destruct (String.eqb_spec k k') as [->|Hne].
  - split; [discriminate | intros Hn; exfalso; apply Hn; now left].
  - rewrite IH. split; [intros Hn [Heq|Hin]; [congruence | tauto] | tauto].
Qed.

Lemma lookup_prop_Some_In ps k v :
  lookup_prop k ps = Some v -> In k (map fst ps).
Proof.
  intros Hl. destruct (in_dec string_dec k (map fst ps)) as [Hin|Hn]; [exact Hin|].
  apply lookup_prop_None in Hn. congruence.
Qed.

Lemma upsert_fresh ps k v :
  lookup_prop k ps = None -> upsert k v ps = ps ++ [(k, v)].
Proof.
  induction ps as [|[k' v'] ps IH]; simpl; [reflexivity|].
  destruct (String.eqb k k'); [discriminate|].
  intros Hl. now rewrite IH.
Qed.

Lemma lookup_upsert ps k v k' :
  lookup_prop k' (upsert k v ps)
  = if String.eqb k' k then Some v else lookup_prop k' ps.
Proof.
  induction ps as [|[k0 v0] ps IH]; simpl.
  - now destruct (String.eqb k' k).
  - destruct (String.eqb_spec k k0) as [->|Hne]; simpl.
    + now destruct (String.eqb k' k0).
    + rewrite IH. destruct (String.eqb_spec k' k0) as [->|Hne'];
        [|reflexivity].
      destruct (String.eqb_spec k0 k); [congruence | reflexivity].
Qed.

Lemma keys_upsert ps k v :
  map fst (upsert k v ps)
  = if mem_string k (map fst ps) then map fst ps else map fst ps ++ [k].
Proof.
  induction ps as [|[k0 v0] ps IH]; simpl; [reflexivity|].
  destruct (String.eqb_spec k k0) as [->|Hne]; simpl; [reflexivity|].
  rewrite IH. now destruct (mem_string k (map fst ps)).
Qed.

Lemma mem_string_In k (l : list string) : mem_string k l = true <-> In k l.
Proof.
  unfold mem_string. rewrite existsb_exists. split.
  - intros (x & Hin & Heq). apply String.eqb_eq in Heq. now subst.
  - intros Hin. exists k. split; [exact Hin | apply String.eqb_refl].
Qed.

(** Two property lists with the same keys, none repeated, and the same
    value at every key are the same list. *)
Lemma props_ext ps ms :
  List.NoDup (map fst ps) ->
  map fst ps = map fst ms ->
  (forall k, lookup_prop k ps = lookup_prop k ms) ->
  ps = ms.
Proof.
  revert ms. induction ps as [|[k v] ps IH]; intros [|[k' v'] ms] Hnd Hkeys Hlook;
    try discriminate; [reflexivity|].
  simpl in Hkeys. injection Hkeys as <- Hkeys.
  inversion Hnd as [|? ? Hnotin Hnd']; subst.
  pose proof (Hlook k) as Hk. simpl in Hk. rewrite String.eqb_refl in Hk.
  injection Hk as <-.
  f_equal. apply IH; [exact Hnd' | exact Hkeys |].
  intros k0. specialize (Hlook k0). simpl in Hlook.
  destruct (String.eqb k0 k) eqn:Heq; [|exact Hlook].
  apply String.eqb_eq in Heq. subst k0.
  transitivity (@None A).
  - now apply lookup_prop_None.
  - symmetry. apply lookup_prop_None. now rewrite <- Hkeys.
Qed.

Lemma first_keys_In ms k : In k (first_keys ms) <-> In k (map fst ms).
Proof.
  induction ms as [|[k0 v0] ms IH]; simpl; [tauto|].
  rewrite <- IH, <- !list_elem_of_In, list_elem_of_filter.
  destruct (String.eqb_spec k k0) as [->|Hne]; simpl; [tauto|].
  split; [intros [Heq|[_ Hin]]; [congruence | now right] | intros [Heq|Hin]; [congruence|]].
  right. split; [exact I | exact Hin].
Qed.

Lemma first_keys_NoDup ms : List.NoDup (first_keys ms).
Proof.
  induction ms as [|[k0 v0] ms IH]; simpl; [constructor|].
  constructor.
  - rewrite <- list_elem_of_In, list_elem_of_filter.
    intros [Hne _]. rewrite String.eqb_refl in Hne. exact Hne.
  - apply NoDup_ListNoDup, NoDup_filter, NoDup_ListNoDup, IH.
Qed.

Lemma first_keys_snoc ms k v :
  first_keys (ms ++ [(k, v)])
  = if mem_string k (map fst ms) then first_keys ms else first_keys ms ++ [k].
Proof.
  induction ms as [|[k0 v0] ms IH]; simpl; [reflexivity|].
  rewrite IH.
  destruct (String.eqb_spec k k0) as [->|Hne]; simpl.
  - destruct (mem_string k0 (map fst ms)); [reflexivity|].
    rewrite filter_app, filter_cons. simpl. rewrite decide_False.
    + now rewrite filter_nil, app_nil_r.
    + rewrite String.eqb_refl. simpl. tauto.
  - destruct (mem_string k (map fst ms)); [reflexivity|].
    rewrite filter_app, filter_cons, decide_True, filter_nil; [reflexivity|].
    destruct (String.eqb_spec k k0); [congruence | exact I].
Qed.

Lemma last_value_snoc ms k v k' :
  last_value k' (ms ++ [(k, v)])
  = if String.eqb k' k then Some v else last_value k' ms.
Proof. unfold last_value. now rewrite rev_unit. Qed.

Lemma last_value_None ms k : last_value k ms = None <-> ~ In k (map fst ms).
Proof.
  unfold last_value. rewrite lookup_prop_None, map_rev, <- in_rev. tauto.
Qed.

Lemma lookup_prop_omap (f : string -> option A) (l : list string) k :
  lookup_prop k (omap (fun k' => pair k' <$> f k') l)
  = if mem_string k l then f k else None.
Proof.
  induction l as [|k0 l IH]; simpl; [reflexivity|].
  destruct (f k0) as [a|] eqn:Hf; simpl.
  - destruct (String.eqb k k0) eqn:Heq; simpl; [|exact IH].
    apply String.eqb_eq in Heq. now rewrite Heq, Hf.
  - fold (omap (fun k' => pair k' <$> f k') l). rewrite IH.
    destruct (String.eqb k k0) eqn:Heq; simpl; [|reflexivity].
    apply String.eqb_eq in Heq. rewrite Heq, Hf. now destruct (mem_string k0 l).
Qed.

Lemma keys_omap (f : string -> option A) (l : list string) :
  (forall k, In k l -> f k <> None) ->
  map fst (omap (fun k' => pair k' <$> f k') l) = l.
Proof.
  induction l as [|k0 l IH]; intros Hall; simpl; [reflexivity|].
  destruct (f k0) as [a|] eqn:Hf; simpl.
  - f_equal. apply IH. intros k Hin. apply Hall. now right.
  - exfalso. apply (Hall k0); [now left | exact Hf].
Qed.

Lemma keys_mapping ms : map fst (mapping ms) = first_keys ms.
Proof.
  apply keys_omap. intros k Hin Hnone.
  apply last_value_None in Hnone. apply Hnone, first_keys_In, Hin.
Qed.

Lemma lookup_mapping ms k : lookup_prop k (mapping ms) = last_value k ms.
Proof.
  unfold mapping. rewrite lookup_prop_omap.
  destruct (mem_string k (first_keys ms)) eqn:Hmem; [reflexivity|].
  symmetry. apply last_value_None. rewrite <- first_keys_In, <- mem_string_In.
  congruence.
Qed.

(** Filling an object member by member gives one member per key, at the
    place of the first and with the value of the last. *)
Lemma fold_upsert_mapping ms :
  fold_left (fun acc kv => upsert kv.1 kv.2 acc) ms [] = mapping ms.
Proof.
  induction ms as [|[k v] ms IH] using rev_ind; [reflexivity|].
  rewrite fold_left_app. simpl. rewrite IH.
  apply props_ext.
  - rewrite keys_upsert, keys_mapping.
    destruct (mem_string k (first_keys ms)) eqn:Hmem; [apply first_keys_NoDup|].
    apply NoDup_ListNoDup, NoDup_app. split; [|split].
    + apply NoDup_ListNoDup, first_keys_NoDup.
    + intros x Hx Hx'. apply list_elem_of_singleton in Hx'. subst x.
      apply list_elem_of_In, mem_string_In in Hx. congruence.
    + apply NoDup_singleton.
  - rewrite keys_upsert, !keys_mapping, first_keys_snoc.
    assert (mem_string k (first_keys ms) = mem_string k (map fst ms)) as ->;
      [|reflexivity].
    apply eq_true_iff_eq. rewrite !mem_string_In. apply first_keys_In.
  - intros k'. now rewrite lookup_upsert, !lookup_mapping, last_value_snoc.
Qed.
End PropsFacts.

Lemma add_rows_fold (rows : list row) (obj : props tree) :
  proto_free rows = true ->
  add_rows obj rows
  = Ok (fold_left (fun acc kv => upsert kv.1 kv.2 acc) (omap kept rows) obj).
Proof.
  revert obj. induction rows as [|r rows IH]; intros obj Hfree; [reflexivity|].
  simpl in Hfree. apply andb_true_iff in Hfree as [Hr Hfree].
  cbn [add_rows omap list_omap]. unfold add_row, kept in *.
  destruct (is_scalar_row r); [|now apply IH].
  destruct (truthy_key r) as [k|]; [|now apply IH].
  unfold assign_prop, add_prop.
  destruct (lookup_prop k obj) eqn:Hl; simpl; [now apply IH|].
  apply negb_true_iff in Hr. rewrite Hr. simpl.
  rewrite IH by exact Hfree. now rewrite upsert_fresh.
Qed.

(** C8 (amended): [normalizeNodeData] equals [normalize_ref]: no row
    gives the text of the empty object; a lone row whose key is absent or
    empty gives its value converted to text as a template literal does
    (a string without quotes); otherwise the result is the 2-space JSON
    text of the object with one member per key of the rows that count
    (key neither absent nor empty, type neither array nor object), each
    key with the value of its last row, array-index keys first in
    ascending order and the other keys in the order of their first row.
    Stated for rows where [__proto__] is not such a key. *)
Theorem normalizeNodeData_ref (rows : list row) :
  proto_free rows = true ->
  normalizeNodeData rows = Ok (normalize_ref rows).
Proof.
  intros Hfree. destruct rows as [|r rest]; [reflexivity|].
  unfold normalizeNodeData, normalize_ref.
  rewrite add_rows_fold by exact Hfree. rewrite fold_upsert_mapping.
  destruct rest as [|r' rest]; simpl length; simpl Nat.eqb; simpl bind.
  - destruct (truthy_key r); reflexivity.
  - destruct (truthy_key r); reflexivity.
Qed.

Lemma normalizeNodeData_ref_example :
  normalizeNodeData
    [ {| key := Some "a"; value_of := TNum 1; type := "number" |};
      {| key := Some "b"; value_of := TArr []; type := "array" |} ]
  = Ok (Some (String.append "{" (String.append nl (String.append "  "
         (String.append dq (String.append "a" (String.append dq
         (String.append ": 1" (String.append nl "}")))))))))
  /\ normalizeNodeData [ {| key := None; value_of := TNum 42; type := "number" |} ]
     = Ok (Some "42").
Proof.
  split.
  - exact (normalizeNodeData_ref
             [ {| key := Some "a"; value_of := TNum 1; type := "number" |};
               {| key := Some "b"; value_of := TArr []; type := "array" |} ]
             eq_refl).
  - reflexivity.
Defined.

(** C8, as stated, fails: a lone row without a key whose value is a
    string is rendered without quotes, which is not its JSON text. *)
Lemma normalize_spec_differs :
  normalizeNodeData [ {| key := None; value_of := TStr "hi"; type := "string" |} ]
  = Ok (Some "hi")
  /\ normalize_spec [ {| key := None; value_of := TStr "hi"; type := "string" |} ]
     = Some (String.append dq (String.append "hi" dq))
  /\ normalizeNodeData [ {| key := None; value_of := TStr "hi"; type := "string" |} ]
     <> Ok (normalize_spec [ {| key := None; value_of := TStr "hi"; type := "string" |} ]).
Proof.
  split; [reflexivity | split; [reflexivity | discriminate]].
Qed.

(** ** Resolution *)

Section Resolution.
Context `{Builtins}.

Lemma walk_app (h : heap) (segs rest : JSONPath) (v : value) :
  walk h v (segs ++ rest) = let* c := walk h v segs in walk h c rest.
Proof.
  revert v. induction segs as [|seg segs IH]; intros v; [reflexivity|].
  simpl. destruct v; try (destruct rest, segs; reflexivity);
    (destruct (prop_get h _ (key_of seg)) as [c| |]; simpl; [apply IH | reflexivity ..]).
Qed.

Lemma getValueAtPath_walk (h : heap) (v : value) (segs : JSONPath) :
  getValueAtPath h v (Some segs) = walk h v segs.
Proof. now destruct segs. Qed.

Lemma prop_get_total (h : heap) (v : value) (key : string) (e : exn) :
  v <> VUndefined -> v <> VNull -> prop_get h v key <> Throw e.
Proof.
  intros Hu Hn. unfold prop_get, from_prototype.
  destruct v; try congruence;
    (destruct (own_prop h _ key); [discriminate|];
     destruct (kind_of h _) as [k|]; [|discriminate];
     destruct (inherited k key); discriminate).
Qed.

Lemma walk_total (h : heap) (segs : JSONPath) (v : value) (e : exn) :
  walk h v segs <> Throw e.
Proof.
  revert v. induction segs as [|seg segs IH]; intros v; [discriminate|].
  simpl. destruct v; try discriminate;
    (destruct (prop_get h _ (key_of seg)) as [c|e'|] eqn:Hget; simpl;
     [apply IH | | discriminate];
     exfalso; revert Hget; apply prop_get_total; discriminate).
Qed.

Lemma prop_get_missing (h : heap) (c : value) (key : string) :
  missing h c key = true -> c <> VUndefined -> c <> VNull ->
  prop_get h c key = Ok VUndefined.
Proof.
  unfold missing, prop_get, from_prototype. intros Hm Hu Hn.
  destruct c; try congruence;
    (destruct (own_prop h _ key); [discriminate|];
     destruct (kind_of h _) as [k|]; [|discriminate];
     apply negb_true_iff in Hm; now rewrite Hm).
Qed.

Lemma walk_from_undefined (h : heap) (segs : JSONPath) :
  walk h VUndefined segs = Ok VUndefined.
Proof. now destruct segs. Qed.

(** C6 (amended): [getValueAtPath] never throws; if the walk reaches
    [undefined] or [null] with a segment left, or a segment that is
    neither an own property of the value at hand nor a member of its
    prototype chain, the result is [undefined]; and [null] held by the
    last segment is returned as [null], which is not [undefined].  A
    segment is looked up by its key text whatever the kind of the value:
    on an array a string key such as [length] or the text of a position
    is an own property, and on a string so is a position. *)
Theorem getValueAtPath_absent (h : heap) (doc : value) :
  (forall (p : option JSONPath) (e : exn), getValueAtPath h doc p <> Throw e)
  /\ (forall (pre rest : JSONPath) (seg : segment) (c : value),
        getValueAtPath h doc (Some pre) = Ok c ->
        missing h c (key_of seg) = true ->
        getValueAtPath h doc (Some (pre ++ seg :: rest)) = Ok VUndefined)
  /\ (forall (pre : JSONPath) (seg : segment) (c : value),
        getValueAtPath h doc (Some pre) = Ok c ->
        own_prop h c (key_of seg) = Some VNull ->
        getValueAtPath h doc (Some (pre ++ [seg])) = Ok VNull
        /\ Ok VNull <> Ok VUndefined).
Proof.
  split; [|split].
  - intros [segs|] e; [|discriminate].
    rewrite getValueAtPath_walk. apply walk_total.
  - intros pre rest seg c Hpre Hmiss.
    rewrite getValueAtPath_walk in *. rewrite walk_app, Hpre. simpl.
    destruct c; try reflexivity;
      (rewrite prop_get_missing by (exact Hmiss || discriminate);
       simpl; apply walk_from_undefined).
  - intros pre seg c Hpre Hown. split; [|discriminate].
    rewrite getValueAtPath_walk in *. rewrite walk_app, Hpre. simpl.
    unfold prop_get. rewrite Hown.
    destruct c; try reflexivity; discriminate.
Qed.
End Resolution.

Lemma getValueAtPath_absent_example :
  @getValueAtPath example_engine example_object.2 example_object.1 (Some [Key "c"; Index 0])
  = Ok VUndefined
  /\ @getValueAtPath example_engine example_object.2 example_object.1 (Some [Key "a"; Key "x"])
     = Ok VUndefined
  /\ @getValueAtPath example_engine example_object.2 example_object.1 (Some [Key "a"])
     = Ok VNull.
Proof.
  split; [|split].
  - exact (proj1 (proj2 (@getValueAtPath_absent example_engine example_object.2 example_object.1))
             [] [Index 0] (Key "c") _ eq_refl eq_refl).
  - exact (proj1 (proj2 (@getValueAtPath_absent example_engine example_object.2 example_object.1))
             [Key "a"] [] (Key "x") _ eq_refl eq_refl).
  - exact (proj1 (proj2 (proj2 (@getValueAtPath_absent example_engine example_object.2 example_object.1))
             [] (Key "a") _ eq_refl eq_refl)).
Defined.

(** C6, as stated, fails: a string key applied to an array is not always
    absent ([length] and the text of a position are own properties of the
    array), and neither is a position applied to a string. *)
Lemma string_key_into_array_is_present :
  @getValueAtPath example_engine example_array.2 example_array.1 (Some [Key "length"])
  = Ok (VNum 2)
  /\ @getValueAtPath example_engine example_array.2 example_array.1 (Some [Key "0"])
     = Ok (VNum 10)
  /\ @getValueAtPath example_engine [] (VStr "abc") (Some [Index 1]) = Ok (VStr "b").
Proof. repeat split. Qed.

(** ** The modal *)

Section ModalFacts.
Context `{Builtins}.
Variable JSON_parse : string -> outcome tree.
Variable setGraph : option string -> outcome (list node).
Variable type_error_text range_error_text : string.

(** C4: when [JSON.parse] throws on the edit buffer, or on the text of
    the live document after the buffer was parsed, [handleSave] leaves
    [editing] as it was (the session stays in Editing), sets [error] to
    the message of the exception thrown by the parser, and makes no call
    on a store: [setContents] is not called, so nothing is published and
    the live document is the one [getJson] returned. *)
Theorem handleSave_parse_failure (m : modal) (s : stores) (e : exn) :
  JSON_parse (buffer_text m) = Throw e
  \/ (exists t, JSON_parse (buffer_text m) = Ok t /\ JSON_parse (getJson s) = Throw e) ->
  handleSave JSON_parse setGraph type_error_text range_error_text m s
  = Ok ({| editing := editing m;
           error := Some (message type_error_text range_error_text e);
           editValue := editValue m |}, []).
Proof.
  unfold handleSave, parse_in.
  intros [Hbuf | (t & Hbuf & Hdoc)]; rewrite Hbuf; simpl; [reflexivity|].
  destruct (alloc t []) as [parsedNew h1]. rewrite Hdoc. reflexivity.
Qed.

Lemma normalizeNodeData_text (rows : list row) :
  normalizeNodeData rows <> Ok None.
Proof.
  unfold normalizeNodeData. destruct rows as [|r rest]; [discriminate|].
  destruct (_ && _); [discriminate|].
  destruct (add_rows [] (r :: rest)); simpl; discriminate.
Qed.

(** C7 (what the code does instead): when the live document parses and
    the path of the selected node resolves to [undefined], the effect
    run on selection, the Edit button and the Cancel button all store
    [undefined] in [editValue]; the normalization of the rows, which is
    never [undefined], is not used for it.  The read-only view shows the
    normalization whatever was resolved; the text area, after Edit,
    shows [editValue]. *)
Theorem resolution_miss_seeds_undefined (m : modal) (s : stores) (t : tree) :
  JSON_parse (getJson s) = Ok t ->
  getValueAtPath (alloc t []).2 (alloc t []).1 (path_of s) = Ok VUndefined ->
  on_select JSON_parse m s
  = Ok {| editing := false; error := None; editValue := None |}
  /\ on_edit JSON_parse m s
     = Ok {| editing := true; error := error m; editValue := None |}
  /\ on_cancel JSON_parse m s
     = Ok {| editing := false; error := None; editValue := None |}
  /\ normalizeNodeData (rows_of s) <> Ok None
  /\ displayed {| editing := false; error := None; editValue := None |} s
     = normalizeNodeData (rows_of s)
  /\ displayed {| editing := true; error := error m; editValue := None |} s
     = Ok None.
Proof.
  intros Hparse Hmiss.
  assert (current_text JSON_parse s = Ok None) as Htext.
  { unfold current_text, parse_in. rewrite Hparse. simpl.
    destruct (alloc t []) as [parsed h]. simpl in Hmiss. rewrite Hmiss.
    reflexivity. }
  unfold on_select, on_edit, on_cancel. rewrite Htext.
  repeat split. apply normalizeNodeData_text.
Qed.
End ModalFacts.

Lemma handleSave_parse_failure_example :
  @handleSave example_engine example_parse example_graph "TypeError" "RangeError"
    {| editing := true; editValue := Some "{invalid"; error := None |}
    {| selectedNode := None; getJson := "{}" |}
  = Ok ({| editing := true; error := Some "Unexpected token i";
           editValue := Some "{invalid" |}, []).
Proof.
  exact (@handleSave_parse_failure example_engine example_parse example_graph "TypeError" "RangeError"
           {| editing := true; editValue := Some "{invalid"; error := None |}
           {| selectedNode := None; getJson := "{}" |}
           (SyntaxError "Unexpected token i") (or_introl eq_refl)).
Defined.

(** The selected node of the example: the member [a] of a document that
    no longer has it. *)
Lemma resolution_miss_example :
  @on_select example_engine example_parse
    {| editing := true; editValue := Some "1"; error := None |}
    {| selectedNode :=
         Some {| path := Some [Key "a"];
                 text := [ {| key := Some "a"; value_of := TNum 1; type := "number" |} ] |};
       getJson := "{}" |}
  = Ok {| editing := false; error := None; editValue := None |}.
Proof.
  exact (proj1 (@resolution_miss_seeds_undefined example_engine example_parse
           {| editing := true; editValue := Some "1"; error := None |}
           {| selectedNode :=
                Some {| path := Some [Key "a"];
                        text := [ {| key := Some "a"; value_of := TNum 1; type := "number" |} ] |};
              getJson := "{}" |}
           (TObj []) eq_refl eq_refl)).
Defined.

(** ** The store under [cur[seg]] and [cur[seg] = x] *)

Section StoreFacts.
Context `{Builtins}.
Implicit Types (h : heap) (l : loc) (v x : value) (key : string).

Lemma prop_get_agree h h' v key :
  (forall l, v = VRef l -> h' !! l = h !! l) ->
  prop_get h' v key = prop_get h v key.
Proof.
  intros Hagree. unfold prop_get, own_prop, kind_of.
  destruct v as [| | | | |l]; try reflexivity.
  now rewrite (Hagree l eq_refl).
Qed.

Lemma prop_get_primitive h h' v key :
  is_ref v = false -> prop_get h' v key = prop_get h v key.
Proof. intros Hv. apply prop_get_agree. intros l ->. discriminate. Qed.

Lemma prop_get_from_primitive h v key c :
  is_ref v = false -> prop_get h v key = Ok c -> is_ref c = false.
Proof.
  unfold prop_get, own_prop, kind_of, from_prototype.
  destruct v as [| | | |s|l]; try discriminate; intros _.
  - destruct (inherited KBoolean key); [discriminate | now intros [= <-]].
  - destruct (inherited KNumber key); [discriminate | now intros [= <-]].
  - destruct (String.eqb key "length"); [now intros [= <-]|].
    destruct (array_index key) as [i|].
    + destruct (char_at s i); simpl; [now intros [= <-]|].
      destruct (inherited KString key); [discriminate | now intros [= <-]].
    + destruct (inherited KString key); [discriminate | now intros [= <-]].
Qed.

Lemma prop_set_primitive h v key x h' :
  is_ref v = false -> prop_set h v key x = Ok h' ->
  h' = h /\ key = "__proto__".
Proof.
  unfold prop_set.
  destruct v; try discriminate; intros _;
    (destruct (String.eqb_spec key "__proto__") as [->|]; [|discriminate]);
    now intros [= <-].
Qed.

(** An assignment that returns changes the one object it is made on,
    and leaves it an array or an object as it was. *)
Lemma prop_set_frame h l key x h' :
  prop_set h (VRef l) key x = Ok h' ->
  exists o o',
    h !! l = Some o /\ h' = <[l := o']> h
    /\ is_array_object o' = is_array_object o.
Proof.
  unfold prop_set. destruct (h !! l) as [[fields|elems extra]|] eqn:Hl;
    [| |discriminate].
  - destruct (assign_prop value_is_proto key x fields) as [fields'| |];
      simpl; [|discriminate..].
    intros [= <-]. now exists (Obj fields), (Obj fields').
  - destruct (String.eqb key "length").
    + destruct (set_length x elems) as [elems'| |]; simpl; [|discriminate..].
      intros [= <-]. now exists (Arr elems extra), (Arr elems' extra).
    + destruct (array_index key) as [i|].
      * intros [= <-]. now eexists (Arr elems extra), (Arr _ extra).
      * destruct (assign_prop value_is_proto key x extra) as [extra'| |];
          simpl; [|discriminate..].
        intros [= <-]. now exists (Arr elems extra), (Arr elems extra').
Qed.

Lemma prop_set_length h l key x h' :
  prop_set h (VRef l) key x = Ok h' -> length h' = length h.
Proof.
  intros Hset. apply prop_set_frame in Hset as (o & o' & _ & -> & _).
  apply length_insert.
Qed.

Lemma prop_set_other h l key x h' l' :
  prop_set h (VRef l) key x = Ok h' -> l' <> l -> h' !! l' = h !! l'.
Proof.
  intros Hset Hne. apply prop_set_frame in Hset as (o & o' & _ & -> & _).
  now apply list_lookup_insert_ne.
Qed.

Lemma lookup_prop_app {A} (ps qs : props A) key :
  lookup_prop key (ps ++ qs)
  = match lookup_prop key ps with
    | Some a => Some a
    | None => lookup_prop key qs
    end.
Proof.
  induction ps as [|[k a] ps IH]; simpl; [reflexivity|].
  now destruct (String.eqb key k).
Qed.

Lemma assign_prop_lookup key x (ps ps' : props value) :
  assign_prop value_is_proto key x ps = Ok ps' ->
  key <> "__proto__" \/ value_is_proto x = true ->
  lookup_prop key ps' = Some x.
Proof.
  unfold assign_prop, add_prop. intros Hassign Hkey.
  destruct (lookup_prop key ps) eqn:Hl.
  - injection Hassign as <-. now rewrite lookup_upsert, String.eqb_refl.
  - destruct (String.eqb_spec key "__proto__") as [->|Hne].
    + destruct Hkey as [Hkey|Hx]; [congruence|]. now rewrite Hx in Hassign.
    + injection Hassign as <-. rewrite lookup_prop_app, Hl. simpl.
      now rewrite String.eqb_refl.
Qed.

Lemma set_elem_lookup (i : nat) x (elems : list (option value)) :
  set_elem i x elems !! i = Some (Some x).
Proof.
  unfold set_elem. destruct (decide (i < length elems)) as [Hlt|Hge].
  - now apply list_lookup_insert_eq.
  - rewrite lookup_app_r by lia.
    rewrite lookup_app_r by (rewrite length_replicate; lia).
    rewrite length_replicate.
    now replace (i - length elems - (i - length elems)) with 0 by lia.
Qed.

(** What was assigned is what is read back, unless the assignment went
    to the [__proto__] setter with a primitive. *)
Lemma prop_get_after_set h l key x h' :
  prop_set h (VRef l) key x = Ok h' ->
  key <> "__proto__" \/ value_is_proto x = true ->
  prop_get h' (VRef l) key = Ok x.
Proof.
  intros Hset Hkey.
  assert (own_prop h' (VRef l) key = Some x) as Hown;
    [|unfold prop_get; now rewrite Hown].
  unfold prop_set in Hset. unfold own_prop.
  destruct (h !! l) as [[fields|elems extra]|] eqn:Hl; [| |discriminate];
    pose proof (lookup_lt_Some _ _ _ Hl) as Hlt.
  - destruct (assign_prop value_is_proto key x fields) as [fields'| |] eqn:Ha;
      simpl in Hset; [|discriminate..].
    injection Hset as <-. rewrite list_lookup_insert_eq by exact Hlt.
    eapply assign_prop_lookup; eassumption.
  - destruct (String.eqb key "length") eqn:Hlen.
    + destruct (set_length x elems) as [elems'| |] eqn:Hs; simpl in Hset;
        [|discriminate..].
      injection Hset as <-. rewrite list_lookup_insert_eq by exact Hlt.
      unfold set_length in Hs.
      destruct x as [| | |n| |]; try discriminate.
      destruct ((0 <=? n)%Z && (n <? 4294967296)%Z) eqn:Hrange; [|discriminate].
      injection Hs as <-. rewrite length_resize.
      apply andb_true_iff in Hrange as [Hpos _]. apply Z.leb_le in Hpos.
      now rewrite Z2Nat.id.
    + destruct (array_index key) as [i|] eqn:Hi.
      * injection Hset as <-. rewrite list_lookup_insert_eq by exact Hlt.
        rewrite set_elem_lookup. reflexivity.
      * destruct (assign_prop value_is_proto key x extra) as [extra'| |] eqn:Ha;
          simpl in Hset; [|discriminate..].
        injection Hset as <-. rewrite list_lookup_insert_eq by exact Hlt.
        eapply assign_prop_lookup; eassumption.
Qed.
End StoreFacts.

(** ** The loop of [setValueAtPath] *)

Section AssignFacts.
Context `{Builtins}.
Implicit Types (h : heap) (l lo : loc) (v x c : value) (key : string)
  (segs rest : JSONPath).

Lemma assign_last h v seg x :
  assign h v [seg] x = prop_set h v (key_of seg) x.
Proof. reflexivity. Qed.

Lemma assign_step h v seg next rest x :
  assign h v (seg :: next :: rest) x
  = let* c := prop_get h v (key_of seg) in
    let* h1 :=
      match c with
      | VUndefined =>
          let '(fresh, h0) := new_container next h in
          prop_set h0 v (key_of seg) fresh
      | _ => Ok h
      end in
    let* c' := prop_get h1 v (key_of seg) in
    assign h1 c' (next :: rest) x.
Proof. reflexivity. Qed.

Lemma proto_last_step seg next rest :
  proto_last (Some (seg :: next :: rest)) = proto_last (Some (next :: rest)).
Proof. reflexivity. Qed.

(** The loop on a primitive returns only through the [__proto__]
    setter, and then it has changed nothing. *)
Lemma assign_primitive segs h v x h' :
  segs <> [] -> is_ref v = false -> assign h v segs x = Ok h' ->
  h' = h /\ proto_last (Some segs) = true.
Proof.
  revert h v. induction segs as [|seg rest IH]; intros h v Hne Hv Hassign;
    [congruence|].
  destruct rest as [|next rest].
  - rewrite assign_last in Hassign.
    apply prop_set_primitive in Hassign as [-> Hkey]; [|exact Hv].
    split; [reflexivity|]. simpl. rewrite Hkey. reflexivity.
  - rewrite assign_step in Hassign. rewrite proto_last_step.
    destruct (prop_get h v (key_of seg)) as [c| |] eqn:Hget;
      cbn [bind new_container new_object] in Hassign; [|discriminate..].
    pose proof (prop_get_from_primitive _ _ _ _ Hv Hget) as Hc.
    destruct c as [| | | | |l]; [| | | | |discriminate];
      try (cbn [bind] in Hassign; rewrite Hget in Hassign; cbn [bind] in Hassign;
           apply IH in Hassign; [exact Hassign | discriminate | reflexivity]).
    destruct (prop_set (h ++ [empty_for next]) v
                (key_of seg) (VRef (length h))) as [h1| |] eqn:Hset;
      cbn [bind new_container new_object] in Hassign; [|discriminate..].
    apply prop_set_primitive in Hset as [-> _]; [|exact Hv].
    rewrite (prop_get_primitive h) in Hassign by exact Hv.
    rewrite Hget in Hassign. cbn [bind new_container new_object] in Hassign.
    destruct rest; discriminate.
Qed.

Lemma lookup_prop_elem {A} (ps : props A) key (a : A) :
  lookup_prop key ps = Some a -> (key, a) ∈ ps.
Proof.
  induction ps as [|[k b] ps IH]; simpl; [discriminate|].
  destruct (String.eqb_spec key k) as [->|Hne].
  - intros [= ->]. apply list_elem_of_here.
  - intros Hl. apply list_elem_of_further, IH, Hl.
Qed.

Lemma own_prop_child h l key l1 :
  own_prop h (VRef l) key = Some (VRef l1) ->
  exists o, h !! l = Some o /\ VRef l1 ∈ children o.
Proof.
  unfold own_prop.
  destruct (h !! l) as [[fields|elems extra]|]; [| |discriminate].
  - intros Hl. exists (Obj fields). split; [reflexivity|].
    apply lookup_prop_elem in Hl. simpl.
    apply list_elem_of_fmap. now exists (key, VRef l1).
  - exists (Arr elems extra). split; [reflexivity|]. simpl.
    destruct (String.eqb key "length"); [discriminate|].
    apply elem_of_app.
    destruct (array_index key) as [i|].
    + left. destruct (elems !! N.to_nat i) as [[e|]|] eqn:Hi; try discriminate.
      simpl in *. injection H0 as ->.
      apply list_elem_of_omap. exists (Some (VRef l1)). split; [|reflexivity].
      eapply list_elem_of_lookup_2, Hi.
    + right. apply lookup_prop_elem in H0.
      apply list_elem_of_fmap. now exists (key, VRef l1).
Qed.

Lemma prop_get_child h lo l key l1 :
  otree h lo (VRef l) ->
  prop_get h (VRef l) key = Ok (VRef l1) ->
  l1 < l /\ otree h lo (VRef l1).
Proof.
  intros Htree Hget. unfold prop_get in Hget.
  destruct (own_prop h (VRef l) key) as [c|] eqn:Hown.
  - injection Hget as ->. apply own_prop_child in Hown as (o & Hl & Hin).
    inversion Htree as [| | | | |? o' Hl' _ Hall]; subst.
    rewrite Hl in Hl'. injection Hl' as <-.
    rewrite Forall_forall in Hall. exact (Hall _ Hin).
  - unfold from_prototype in Hget.
    destruct (kind_of h (VRef l)) as [k|]; [|discriminate].
    destruct (inherited k key); discriminate.
Qed.

Lemma otree_lookup h lo l :
  otree h lo (VRef l) -> lo <= l /\ l < length h.
Proof.
  inversion 1 as [| | | | |? o Hl Hlo _]; subst.
  split; [exact Hlo | eapply lookup_lt_Some, Hl].
Qed.

(** The loop started on a container of an ordered store: it only grows
    the store, touches the containers at or under the one it started
    on and those it makes, keeps arrays arrays and objects objects, and
    the value is then found by walking the same segments. *)
Lemma assign_spec segs h lo l x h' :
  segs <> [] ->
  otree h lo (VRef l) ->
  assign h (VRef l) segs x = Ok h' ->
  length h <= length h'
  /\ (forall l', l' < length h -> l' < lo \/ l < l' -> h' !! l' = h !! l')
  /\ (forall l' o, h !! l' = Some o ->
        exists o', h' !! l' = Some o' /\ is_array_object o' = is_array_object o)
  /\ (proto_last (Some segs) = false -> walk h' (VRef l) segs = Ok x).
Proof.
  revert h lo l. induction segs as [|seg rest IH]; intros h lo l Hne Htree Hassign;
    [congruence|].
  pose proof (otree_lookup _ _ _ Htree) as [Hlo Hlt].
  destruct rest as [|next rest].
  - rewrite assign_last in Hassign.
    pose proof (prop_set_frame _ _ _ _ _ Hassign) as (o & o' & Hl & -> & Hkind).
    split; [now rewrite length_insert|]. split; [|split].
    + intros l' _ Hl'. apply list_lookup_insert_ne. lia.
    + intros l' o0 Hl0. destruct (decide (l' = l)) as [->|Hneq].
      * exists o'. rewrite list_lookup_insert_eq by exact Hlt.
        split; [reflexivity|]. congruence.
      * exists o0. now rewrite list_lookup_insert_ne by congruence.
    + intros Hlast. simpl in Hlast. cbn [walk].
      rewrite (prop_get_after_set _ _ _ _ _ Hassign); [reflexivity|].
      left. intros Heq. rewrite Heq in Hlast. discriminate.
  - rewrite assign_step in Hassign. rewrite proto_last_step.
    destruct (prop_get h (VRef l) (key_of seg)) as [c| |] eqn:Hget;
      cbn [bind new_container new_object] in Hassign; [|discriminate..].
    assert (forall h1, h1 !! l = h !! l ->
              walk h1 (VRef l) (seg :: next :: rest)
              = walk h1 c (next :: rest)) as Hwalk.
    { intros h1 Hh1. cbn [walk].
      rewrite (prop_get_agree h h1) by (intros ? [= <-]; exact Hh1).
      now rewrite Hget. }
    destruct c as [| | | | |l1];
      try (cbn [bind] in Hassign; rewrite Hget in Hassign; cbn [bind] in Hassign;
           apply assign_primitive in Hassign as [-> Hlast];
           [|discriminate|reflexivity];
           split; [lia|]; split; [reflexivity|]; split;
           [intros l' o Hl'; now exists o | congruence]).
    + (* the step is missing: a container is made *)
      set (fresh := empty_for next) in *.
      destruct (prop_set (h ++ [fresh]) (VRef l) (key_of seg) (VRef (length h)))
        as [h1| |] eqn:Hset; cbn [bind new_container new_object] in Hassign; [|discriminate..].
      rewrite (prop_get_after_set _ _ _ _ _ Hset) in Hassign by now right.
      cbn [bind new_container new_object] in Hassign.
      pose proof (prop_set_length _ _ _ _ _ Hset) as Hlen1.
      rewrite length_app in Hlen1. simpl in Hlen1.
      assert (h1 !! length h = Some fresh) as Hfresh.
      { rewrite (prop_set_other _ _ _ _ _ _ Hset) by lia.
        rewrite lookup_app_r by lia. now rewrite Nat.sub_diag. }
      assert (otree h1 (length h) (VRef (length h))) as Htree1.
      { eapply ot_ref; [exact Hfresh | lia |].
        unfold fresh, empty_for. destruct (is_number next); constructor. }
      destruct (IH h1 (length h) (length h) ltac:(discriminate) Htree1 Hassign)
        as (Hlen & Hframe & Hkinds & Hfound).
      assert (forall l', l' < length h -> l' <> l -> h' !! l' = h !! l') as Hold.
      { intros l' Hl' Hneq. rewrite Hframe by lia.
        rewrite (prop_set_other _ _ _ _ _ _ Hset) by exact Hneq.
        now apply lookup_app_l. }
      split; [lia|]. split; [|split].
      * intros l' Hl' Hside. apply Hold; lia.
      * intros l' o Hl'.
        pose proof (lookup_lt_Some _ _ _ Hl') as Hlt'.
        assert (exists o1, h1 !! l' = Some o1
                           /\ is_array_object o1 = is_array_object o)
          as (o1 & Hl1 & Hk1).
        { destruct (decide (l' = l)) as [->|Hneq].
          - apply prop_set_frame in Hset as (o0 & o1 & Hl0 & -> & Hk).
            rewrite lookup_app_l in Hl0 by exact Hlt.
            exists o1. rewrite list_lookup_insert_eq
              by (rewrite length_app; simpl; lia).
            split; [reflexivity|]. congruence.
          - exists o. rewrite (prop_set_other _ _ _ _ _ _ Hset) by exact Hneq.
            rewrite lookup_app_l by exact Hlt'. now split. }
        destruct (Hkinds _ _ Hl1) as (o' & Hl'' & Hk'').
        exists o'. split; [exact Hl''|]. congruence.
      * intros Hlast. cbn [walk].
        rewrite (prop_get_agree h1 h') by (intros ? [= <-]; apply Hframe; lia).
        rewrite (prop_get_after_set _ _ _ _ _ Hset) by now right.
        simpl. now apply Hfound.
    + (* the step is there: the loop goes into it *)
      cbn [bind] in Hassign. rewrite Hget in Hassign. cbn [bind new_container new_object] in Hassign.
      destruct (prop_get_child _ _ _ _ _ Htree Hget) as [Hl1 Htree1].
      destruct (IH h lo l1 ltac:(discriminate) Htree1 Hassign)
        as (Hlen & Hframe & Hkinds & Hfound).
      split; [exact Hlen|]. split; [|split; [exact Hkinds|]].
      * intros l' Hl' Hside. apply Hframe; lia.
      * intros Hlast. rewrite Hwalk; [now apply Hfound|].
        apply Hframe; lia.
Qed.
End AssignFacts.

(** ** Documents in the store *)

Lemma tree_induction (P : tree -> Prop) :
  P TUndefined -> P TNull -> (forall b, P (TBool b)) -> (forall n, P (TNum n)) ->
  (forall s, P (TStr s)) ->
  (forall items, Forall P items -> P (TArr items)) ->
  (forall members, Forall (fun m => P m.2) members -> P (TObj members)) ->
  forall t, P t.
Proof.
  intros Hu Hn Hb Hz Hs Ha Ho.
  fix self 1.
  intros [| | b | n | s | items | members];
    [exact Hu | exact Hn | apply Hb | apply Hz | apply Hs | |].
  - apply Ha. induction items as [|t items IH]; constructor; [apply self | exact IH].
  - apply Ho. induction members as [|[k t] members IH]; constructor;
      [apply self | exact IH].
Qed.

Lemma alloc_array (items : list tree) (h : heap) :
  alloc (TArr items) h
  = let '(vs, h') := alloc_items items h in new_object (Arr vs []) h'.
Proof.
  cbn [alloc].
  assert (forall ts h0,
             (fix go (ts : list tree) (h : heap) : list (option value) * heap :=
                match ts with
                | [] => ([], h)
                | t :: ts' =>
                    let '(v, h1) := alloc t h in
                    let '(vs, h2) := go ts' h1 in (Some v :: vs, h2)
                end) ts h0 = alloc_items ts h0) as ->; [|reflexivity].
  induction ts as [|t ts IH]; intros h0; [reflexivity|].
  cbn [alloc_items]. destruct (alloc t h0) as [v h1]. now rewrite IH.
Qed.

Lemma alloc_object (members : props tree) (h : heap) :
  alloc (TObj members) h
  = let '(ps, h') := alloc_members members h in
    new_object (Obj (fold_left (fun acc kv => upsert kv.1 kv.2 acc) ps [])) h'.
Proof.
  cbn [alloc].
  assert (forall ms h0,
             (fix go (ms : props tree) (h : heap) : props value * heap :=
                match ms with
                | [] => ([], h)
                | (k, t) :: ms' =>
                    let '(v, h1) := alloc t h in
                    let '(ps, h2) := go ms' h1 in ((k, v) :: ps, h2)
                end) ms h0 = alloc_members ms h0) as ->; [|reflexivity].
  induction ms as [|[k t] ms IH]; intros h0; [reflexivity|].
  cbn [alloc_members]. destruct (alloc t h0) as [v h1]. now rewrite IH.
Qed.

Lemma otree_below (h : heap) (lo : nat) (v : value) :
  otree h lo v -> below (length h) v.
Proof.
  inversion 1 as [| | | | |l o Hl _ _]; subst; simpl; try exact I.
  eapply lookup_lt_Some, Hl.
Qed.

(** An ordered value stays one when the store keeps its objects, and
    under a lower bound. *)
Lemma otree_agree (h h' : heap) (lo lo' : nat) (v : value) :
  (forall l o, h !! l = Some o -> h' !! l = Some o) ->
  lo' <= lo ->
  otree h lo v -> otree h' lo' v.
Proof.
  intros Hsub Hlo.
  destruct v as [| | | | |l]; try constructor.
  induction l as [l IH] using lt_wf_ind.
  inversion 1 as [| | | | |? o Hl Hlo' Hall]; subst.
  apply (ot_ref _ _ _ o); [now apply Hsub | lia |].
  eapply Forall_impl; [exact Hall|].
  intros [| | | | |l'] [Hbelow Htree]; split; try exact Hbelow; try constructor.
  apply IH; [exact Hbelow | exact Htree].
Qed.

Lemma otree_app (h ext : heap) (lo lo' : nat) (v : value) :
  otree h lo v -> lo' <= lo -> otree (h ++ ext) lo' v.
Proof.
  intros Htree Hlo. revert Htree. apply otree_agree; [|exact Hlo].
  intros l o Hl. rewrite lookup_app_l; [exact Hl | eapply lookup_lt_Some, Hl].
Qed.

Lemma upsert_elem {A} (ps : props A) (k : string) (a : A) (e : string * A) :
  e ∈ upsert k a ps -> e = (k, a) \/ e ∈ ps.
Proof.
  induction ps as [|[k' a'] ps IH]; simpl.
  - intros He. apply list_elem_of_singleton in He. now left.
  - destruct (String.eqb k k').
    + intros He. apply elem_of_cons in He as [->|He]; [now left|].
      right. now apply list_elem_of_further.
    + intros He. apply elem_of_cons in He as [->|He].
      * right. apply list_elem_of_here.
      * destruct (IH He) as [->|Hin]; [now left|].
        right. now apply list_elem_of_further.
Qed.

Lemma fold_upsert_elem {A} (ms acc : props A) (e : string * A) :
  e ∈ fold_left (fun acc kv => upsert kv.1 kv.2 acc) ms acc ->
  e ∈ ms \/ e ∈ acc.
Proof.
  revert acc. induction ms as [|[k a] ms IH]; intros acc; simpl; [now right|].
  intros He. destruct (IH _ He) as [Hin|Hin].
  - left. now apply list_elem_of_further.
  - apply upsert_elem in Hin as [->|Hin]; [left; apply list_elem_of_here | now right].
Qed.

(** What [alloc] builds is ordered, and made of new objects only, after
    those of the store it was given. *)
Lemma alloc_otree (t : tree) :
  forall (h : heap) (v : value) (h' : heap),
    alloc t h = (v, h') ->
    (exists ext, h' = h ++ ext) /\ otree h' (length h) v.
Proof.
  induction t as [| | b | n | s | items IH | members IH] using tree_induction;
    intros h v h' Halloc;
    try (injection Halloc as <- <-; split;
         [exists []; now rewrite app_nil_r | constructor]).
  - rewrite alloc_array in Halloc.
    destruct (alloc_items items h) as [vs h1] eqn:Hitems.
    injection Halloc as <- <-.
    assert ((exists ext, h1 = h ++ ext)
            /\ Forall (fun e => exists w, e = Some w /\ otree h1 (length h) w) vs)
      as [[ext ->] Hall].
    { clear -IH Hitems. revert h vs h1 Hitems.
      induction IH as [|t ts Ht _ IHts]; intros h vs h1 Hitems.
      - injection Hitems as <- <-. split; [exists []; now rewrite app_nil_r|].
        constructor.
      - cbn [alloc_items] in Hitems.
        destruct (alloc t h) as [w h2] eqn:Hw.
        destruct (alloc_items ts h2) as [ws h3] eqn:Hws.
        injection Hitems as <- <-.
        destruct (Ht _ _ _ Hw) as [[e2 ->] Htree].
        destruct (IHts _ _ _ Hws) as [[e3 ->] Hall].
        split; [exists (e2 ++ e3); now rewrite app_assoc|].
        constructor.
        + exists w. split; [reflexivity|]. eapply otree_app; [eassumption | try rewrite length_app; lia].
        + eapply Forall_impl; [exact Hall|].
          intros e (w' & -> & Hw'). exists w'. split; [reflexivity|].
          eapply otree_agree; [intros; eassumption | | exact Hw'].
          rewrite length_app. lia. }
    split; [exists (ext ++ [Arr vs []]); now rewrite app_assoc|].
    apply (ot_ref _ _ _ (Arr vs [])).
    + rewrite lookup_app_r by lia. now rewrite Nat.sub_diag.
    + rewrite length_app. lia.
    + simpl. rewrite app_nil_r. apply Forall_forall. intros w Hin.
      apply list_elem_of_omap in Hin as (e & Hin & He).
      rewrite Forall_forall in Hall. destruct (Hall _ Hin) as (w' & -> & Hw').
      injection He as <-.
      split; [now apply otree_below in Hw' | eapply otree_app; [eassumption | try rewrite length_app; lia]].
  - rewrite alloc_object in Halloc.
    destruct (alloc_members members h) as [ps h1] eqn:Hmembers.
    injection Halloc as <- <-.
    assert ((exists ext, h1 = h ++ ext)
            /\ Forall (fun kv => otree h1 (length h) kv.2) ps)
      as [[ext ->] Hall].
    { clear -IH Hmembers. revert h ps h1 Hmembers.
      induction IH as [|[k t] ms Ht _ IHms]; intros h ps h1 Hmembers.
      - injection Hmembers as <- <-. split; [exists []; now rewrite app_nil_r|].
        constructor.
      - cbn [alloc_members] in Hmembers.
        destruct (alloc t h) as [w h2] eqn:Hw.
        destruct (alloc_members ms h2) as [ws h3] eqn:Hws.
        injection Hmembers as <- <-.
        destruct (Ht _ _ _ Hw) as [[e2 ->] Htree].
        destruct (IHms _ _ _ Hws) as [[e3 ->] Hall].
        split; [exists (e2 ++ e3); now rewrite app_assoc|].
        constructor.
        + eapply otree_app; [eassumption | try rewrite length_app; lia].
        + eapply Forall_impl; [exact Hall|].
          intros kv Hkv.
          eapply otree_agree; [intros; eassumption | | exact Hkv].
          rewrite length_app. lia. }
    split; [eexists (ext ++ [_]); now rewrite app_assoc|].
    eapply ot_ref.
    + rewrite lookup_app_r by lia. now rewrite Nat.sub_diag.
    + rewrite length_app. lia.
    + simpl. apply Forall_forall. intros w Hin.
      apply list_elem_of_fmap in Hin as ([k w'] & -> & Hin).
      apply fold_upsert_elem in Hin as [Hin|Hin]; [|now apply elem_of_nil in Hin].
      rewrite Forall_forall in Hall. specialize (Hall _ Hin). simpl in *.
      split; [now apply otree_below in Hall | eapply otree_app; [eassumption | try rewrite length_app; lia]].
Qed.

(** ** The order of enumeration *)

Section EntriesFacts.
Context {A : Type}.
Implicit Types (ps : props A) (k : string) (n m : N)
  (L : list (N * (string * A))).

Lemma insert_sorted_elem n (e : string * A) L x :
  x ∈ insert_sorted n e L <-> x = (n, e) \/ x ∈ L.
Proof.
  induction L as [|[m e'] L IH]; simpl.
  - rewrite list_elem_of_singleton, elem_of_nil. tauto.
  - destruct (n <=? m)%N; rewrite !elem_of_cons; [tauto|].
    rewrite IH. tauto.
Qed.

Lemma index_entries_filed ps : Forall filed (index_entries ps).
Proof.
  induction ps as [|[k a] ps IH]; simpl; [constructor|].
  destruct (array_index k) as [n|] eqn:Hk; [|exact IH].
  apply Forall_forall. intros x Hx.
  apply insert_sorted_elem in Hx as [->|Hx]; [exact Hk|].
  rewrite Forall_forall in IH. now apply IH.
Qed.

Lemma index_entries_elem ps x : x ∈ index_entries ps -> x.2 ∈ ps.
Proof.
  induction ps as [|[k a] ps IH]; simpl; [now rewrite elem_of_nil|].
  destruct (array_index k) as [n|].
  - intros Hx. apply insert_sorted_elem in Hx as [->|Hx];
      [apply list_elem_of_here | apply list_elem_of_further, IH, Hx].
  - intros Hx. apply list_elem_of_further, IH, Hx.
Qed.

Lemma named_entries_elem ps (e : string * A) :
  e ∈ named_entries ps -> e ∈ ps /\ array_index e.1 = None.
Proof.
  induction ps as [|[k a] ps IH]; simpl; [now rewrite elem_of_nil|].
  destruct (array_index k) as [n|] eqn:Hk.
  - intros He. destruct (IH He) as [Hin Hnone].
    split; [now apply list_elem_of_further | exact Hnone].
  - intros He. apply elem_of_cons in He as [->|He].
    + split; [apply list_elem_of_here | exact Hk].
    + destruct (IH He) as [Hin Hnone].
      split; [now apply list_elem_of_further | exact Hnone].
Qed.

Lemma own_entries_elem ps (e : string * A) : e ∈ own_entries ps -> e ∈ ps.
Proof.
  unfold own_entries. intros He. apply elem_of_app in He as [He|He].
  - apply list_elem_of_fmap in He as (x & -> & Hx). now apply index_entries_elem.
  - now apply named_entries_elem in He.
Qed.

Lemma lookup_named ps k :
  lookup_prop k (named_entries ps)
  = match array_index k with
    | Some _ => None
    | None => lookup_prop k ps
    end.
Proof.
  induction ps as [|[k0 a0] ps IH]; simpl; [now destruct (array_index k)|].
  destruct (array_index k0) as [n0|] eqn:Hk0; simpl.
  - rewrite IH. destruct (array_index k) eqn:Hk; [reflexivity|].
    destruct (String.eqb_spec k k0); [congruence | reflexivity].
  - destruct (String.eqb_spec k k0) as [->|Hne]; [now rewrite Hk0 | exact IH].
Qed.

Lemma lookup_insert_sorted L n0 k0 (a0 : A) k :
  Forall filed L -> array_index k0 = Some n0 ->
  lookup_prop k (map snd (insert_sorted n0 (k0, a0) L))
  = if String.eqb k k0 then Some a0 else lookup_prop k (map snd L).
Proof.
  intros Hfiled Hk0. induction Hfiled as [|[m [k1 a1]] L Hm _ IH]; simpl;
    [reflexivity|].
  destruct (n0 <=? m)%N eqn:Hle; simpl; [reflexivity|].
  rewrite IH. unfold filed in Hm. simpl in Hm.
  destruct (String.eqb_spec k k1) as [->|Hne]; [|reflexivity].
  destruct (String.eqb_spec k1 k0) as [->|Hne']; [|reflexivity].
  rewrite Hk0 in Hm. injection Hm as ->.
  rewrite N.leb_refl in Hle. discriminate.
Qed.

Lemma lookup_indexed ps k :
  lookup_prop k (map snd (index_entries ps))
  = match array_index k with
    | Some _ => lookup_prop k ps
    | None => None
    end.
Proof.
  induction ps as [|[k0 a0] ps IH]; simpl; [now destruct (array_index k)|].
  destruct (array_index k0) as [n0|] eqn:Hk0.
  - rewrite lookup_insert_sorted by (apply index_entries_filed || exact Hk0).
    rewrite IH. destruct (String.eqb_spec k k0) as [->|Hne]; [|reflexivity].
    now rewrite Hk0.
  - rewrite IH. destruct (array_index k) eqn:Hk; [|reflexivity].
    destruct (String.eqb_spec k k0); [congruence | reflexivity].
Qed.

(** Enumeration moves no value to another key. *)
Lemma lookup_own_entries ps k :
  lookup_prop k (own_entries ps) = lookup_prop k ps.
Proof.
  unfold own_entries. rewrite lookup_prop_app, lookup_indexed, lookup_named.
  destruct (array_index k); [|reflexivity].
  now destruct (lookup_prop k ps).
Qed.

Lemma insert_sorted_sorted n (e : string * A) L :
  Sorted by_index L -> Sorted by_index (insert_sorted n e L).
Proof.
  induction 1 as [|[m e'] L Hs IH Hhd]; simpl.
  - repeat constructor.
  - destruct (n <=? m)%N eqn:Hle.
    + apply N.leb_le in Hle. repeat constructor; assumption.
    + apply N.leb_gt in Hle. constructor; [exact IH|].
      destruct L as [|[m' e''] L]; simpl.
      * constructor. unfold by_index. simpl. lia.
      * inversion Hhd; subst.
        destruct (n <=? m')%N; constructor; unfold by_index in *; simpl in *; lia.
Qed.

Lemma index_entries_sorted ps : Sorted by_index (index_entries ps).
Proof.
  induction ps as [|[k a] ps IH]; simpl; [constructor|].
  destruct (array_index k); [now apply insert_sorted_sorted | exact IH].
Qed.

Lemma index_entries_of_sorted L :
  Sorted by_index L -> Forall filed L ->
  index_entries (map snd L) = L.
Proof.
  induction 1 as [|[m [k a]] L Hs IH Hhd]; intros Hfiled; [reflexivity|].
  inversion Hfiled as [|? ? Hm Hrest]; subst. unfold filed in Hm. simpl in *.
  rewrite Hm, IH by exact Hrest.
  destruct L as [|[m' e'] L]; [reflexivity|]. simpl.
  inversion Hhd as [|? ? Hle]; subst. unfold by_index in Hle. simpl in Hle.
  apply N.leb_le in Hle. now rewrite Hle.
Qed.

Lemma index_entries_app ps qs :
  Forall (fun e => array_index e.1 = None) qs ->
  index_entries (ps ++ qs) = index_entries ps.
Proof.
  intros Hqs. induction ps as [|[k a] ps IH]; simpl.
  - induction Hqs as [|[k a] qs Hk _ IH]; [reflexivity|].
    simpl in *. now rewrite Hk.
  - now rewrite IH.
Qed.

Lemma named_entries_app ps qs :
  named_entries (ps ++ qs) = named_entries ps ++ named_entries qs.
Proof.
  induction ps as [|[k a] ps IH]; simpl; [reflexivity|].
  destruct (array_index k); [exact IH | now rewrite IH].
Qed.

Lemma named_entries_indexed L :
  Forall filed L -> named_entries (map snd L) = [].
Proof.
  induction 1 as [|[m [k a]] L Hm _ IH]; [reflexivity|].
  unfold filed in Hm. simpl in *. now rewrite Hm.
Qed.

Lemma named_entries_named ps :
  Forall (fun e => array_index e.1 = None) ps -> named_entries ps = ps.
Proof.
  induction 1 as [|[k a] ps Hk _ IH]; [reflexivity|].
  simpl in *. now rewrite Hk, IH.
Qed.

Lemma named_entries_all ps :
  Forall (fun e => array_index e.1 = None) (named_entries ps).
Proof.
  apply Forall_forall. intros e He. now apply named_entries_elem in He.
Qed.

(** Enumerating what was enumerated changes nothing. *)
Lemma own_entries_idem ps : own_entries (own_entries ps) = own_entries ps.
Proof.
  unfold own_entries.
  rewrite index_entries_app by apply named_entries_all.
  rewrite index_entries_of_sorted
    by (apply index_entries_sorted || apply index_entries_filed).
  rewrite named_entries_app, named_entries_indexed by apply index_entries_filed.
  now rewrite (named_entries_named (named_entries ps)) by apply named_entries_all.
Qed.
End EntriesFacts.

(** ** The copy made by [setValueAtPath] *)

Section CloneFacts.
Context `{Builtins}.
Implicit Types (h : heap) (l lo : loc) (v x c : value) (key : string)
  (segs rest : JSONPath).

Lemma chars_from_children (s : string) (i : N) (w : value) :
  w ∈ map snd (chars_from i s) -> is_ref w = false.
Proof.
  revert i. induction s as [|a s IH]; intros i; simpl.
  - now rewrite elem_of_nil.
  - rewrite elem_of_cons. intros [->|Hw]; [reflexivity | eapply IH, Hw].
Qed.

(** The copy is a new object, last in the store, and holds nothing but
    primitives and values the original holds. *)
Lemma spread_clone h v clone h1 :
  (if isArray h v then spread_array h v else spread_object h v) = Ok (clone, h1) ->
  exists copy,
    clone = VRef (length h) /\ h1 = h ++ [copy]
    /\ forall w, w ∈ children copy ->
         is_ref w = false
         \/ exists l o, v = VRef l /\ h !! l = Some o /\ w ∈ children o.
Proof.
  unfold isArray, spread_array, spread_object, new_object.
  destruct v as [| | | |s|l].
  1-4: intros [= <- <-]; exists (Obj []); repeat split;
       intros w Hw; now apply elem_of_nil in Hw.
  - intros [= <- <-]. exists (Obj (chars_from 0 s)). repeat split.
    intros w Hw. left. eapply chars_from_children, Hw.
  - destruct (h !! l) as [[fields|elems extra]|] eqn:Hl; [| |discriminate].
    + intros [= <- <-]. exists (Obj (own_entries fields)). repeat split.
      intros w Hw. right. exists l, (Obj fields).
      split; [reflexivity|]. split; [exact Hl|]. simpl in *.
      apply list_elem_of_fmap in Hw as (e & -> & He).
      apply list_elem_of_fmap. exists e. split; [reflexivity|].
      now apply own_entries_elem.
    + intros [= <- <-]. eexists (Arr _ []). repeat split.
      intros w Hw. simpl in Hw. rewrite app_nil_r in Hw.
      apply list_elem_of_omap in Hw as (e' & He' & Hid).
      apply list_elem_of_fmap in He' as (e & -> & He).
      simpl in Hid. injection Hid as <-.
      destruct e as [w|]; [|now left].
      right. exists l, (Arr elems extra).
      split; [reflexivity|]. split; [exact Hl|]. simpl.
      apply elem_of_app. left. apply list_elem_of_omap. now exists (Some w).
Qed.

Lemma otree_primitive h lo v : is_ref v = false -> otree h lo v.
Proof. destruct v; try discriminate; constructor. Qed.

Lemma spread_otree h lo v clone h1 :
  otree h lo v ->
  (if isArray h v then spread_array h v else spread_object h v) = Ok (clone, h1) ->
  otree h1 0 clone.
Proof.
  intros Htree Hspread.
  apply spread_clone in Hspread as (copy & -> & -> & Hcopy).
  apply (ot_ref _ _ _ copy).
  - rewrite lookup_app_r by lia. now rewrite Nat.sub_diag.
  - lia.
  - apply Forall_forall. intros w Hw.
    destruct (Hcopy w Hw) as [Hprim | (l & o & -> & Hl & Hin)].
    + split; [now destruct w | now apply otree_primitive].
    + inversion Htree as [| | | | |? o' Hl' _ Hall]; subst.
      rewrite Hl in Hl'. injection Hl' as <-.
      rewrite Forall_forall in Hall. destruct (Hall _ Hin) as [Hbelow Hw'].
      split.
      * pose proof (lookup_lt_Some _ _ _ Hl). destruct w; simpl in *; try exact I. lia.
      * eapply otree_app; [exact Hw' | lia].
Qed.

(** C2 (amended): for every JSON document [d], in the store [JSON.parse]
    left it in, every path [p] whose last segment is not the key
    [__proto__], and every value [x]: if [setValueAtPath] returns, then
    [getValueAtPath] on the document it returned, along [p], is [x]
    itself. *)
Theorem write_then_read (d : tree) (h0 : heap) (p : option JSONPath)
  (x D' : value) (h' : heap) :
  setValueAtPath (alloc d h0).2 (alloc d h0).1 p x = Ok (D', h') ->
  proto_last p = false ->
  getValueAtPath h' D' p = Ok x.
Proof.
  destruct (alloc d h0) as [D h] eqn:Halloc. cbn [fst snd].
  apply alloc_otree in Halloc as [_ Htree].
  intros Hwrite Hlast.
  destruct p as [[|seg rest]|]; try (injection Hwrite as <- <-; reflexivity).
  unfold setValueAtPath in Hwrite.
  destruct (if isArray h D then spread_array h D else spread_object h D)
    as [[clone h1]| |] eqn:Hspread; cbn [bind] in Hwrite; [|discriminate..].
  destruct (assign h1 clone (seg :: rest) x) as [h2| |] eqn:Hassign;
    cbn [bind] in Hwrite; [|discriminate..].
  injection Hwrite as <- <-.
  pose proof (spread_otree _ _ _ _ _ Htree Hspread) as Hclone.
  apply spread_clone in Hspread as (copy & -> & -> & _).
  rewrite getValueAtPath_walk.
  now apply (assign_spec (seg :: rest) _ 0 _ _ _ ltac:(discriminate) Hclone Hassign).
Qed.
End CloneFacts.

Lemma write_then_read_example :
  match @setValueAtPath example_engine
          (alloc (TObj [("customer", TObj [("name", TStr "Ann")])]) []).2
          (alloc (TObj [("customer", TObj [("name", TStr "Ann")])]) []).1
          (Some [Key "customer"; Key "name"]) (VStr "Bob") with
  | Ok (D', h') =>
      @getValueAtPath example_engine h' D' (Some [Key "customer"; Key "name"]) = Ok (VStr "Bob")
      /\ shape h' D' = Some (TObj [("customer", TObj [("name", TStr "Bob")])])
  | _ => False
  end.
Proof.
  split; [|reflexivity].
  exact (@write_then_read example_engine (TObj [("customer", TObj [("name", TStr "Ann")])]) []
           (Some [Key "customer"; Key "name"]) (VStr "Bob") _ _ eq_refl eq_refl).
Defined.

(** C2, as stated, fails: with [null] on the way the write throws and
    returns no document; and a last segment [__proto__] that the object
    does not own goes to the setter of the prototype, which drops the
    number, so that reading the path back does not give it. *)
Lemma write_then_read_fails :
  @setValueAtPath example_engine (alloc (TObj [("a", TNull)]) []).2
    (alloc (TObj [("a", TNull)]) []).1 (Some [Key "a"; Key "b"]) (VNum 1)
  = Throw TypeError
  /\ match @setValueAtPath example_engine (alloc (TObj []) []).2 (alloc (TObj []) []).1
             (Some [Key "__proto__"]) (VNum 1) with
     | Ok (D', h') =>
         shape h' D' = Some (TObj [])
         /\ @getValueAtPath example_engine h' D' (Some [Key "__proto__"]) = HostDefined
         /\ @getValueAtPath example_engine h' D' (Some [Key "__proto__"]) <> Ok (VNum 1)
     | _ => False
     end.
Proof. split; [reflexivity|]. split; [reflexivity|]. split; [reflexivity|discriminate]. Qed.

(** ** Missing steps *)

Section CreateFacts.
Context `{Builtins}.
Implicit Types (h : heap) (l lo : loc) (v x c : value) (key : string)
  (segs rest pre : JSONPath).

Lemma walk_from_primitive segs h v c :
  is_ref v = false -> walk h v segs = Ok c -> is_ref c = false.
Proof.
  revert v. induction segs as [|seg segs IH]; intros v Hv; simpl.
  - now intros [= <-].
  - destruct v; try discriminate; try (now intros [= <-]);
      (destruct (prop_get h _ (key_of seg)) as [c'| |] eqn:Hget;
       cbn [bind]; [|discriminate..];
       apply IH; eapply prop_get_from_primitive; [|exact Hget]; reflexivity).
Qed.

(** Going into a step that is there. *)
Lemma assign_into h l seg l1 next rest x :
  prop_get h (VRef l) (key_of seg) = Ok (VRef l1) ->
  assign h (VRef l) (seg :: next :: rest) x = assign h (VRef l1) (next :: rest) x.
Proof.
  intros Hget. rewrite assign_step, Hget. cbn [bind]. now rewrite Hget.
Qed.

Lemma walk_step h l seg rest :
  walk h (VRef l) (seg :: rest)
  = let* c := prop_get h (VRef l) (key_of seg) in walk h c rest.
Proof. reflexivity. Qed.


Lemma prop_get_app_store h ext v key c :
  prop_get h v key = Ok c -> prop_get (h ++ ext) v key = Ok c.
Proof.
  intros Hc. rewrite <- Hc. apply prop_get_agree. intros l ->.
  unfold prop_get, own_prop, kind_of in Hc.
  destruct (h !! l) eqn:Hl; [|discriminate].
  rewrite lookup_app_l by (eapply lookup_lt_Some, Hl). now rewrite Hl.
Qed.

Lemma walk_app_store segs h ext v c :
  walk h v segs = Ok c -> walk (h ++ ext) v segs = Ok c.
Proof.
  revert v. induction segs as [|seg segs IH]; intros v; simpl; [trivial|].
  destruct v; trivial;
    (destruct (prop_get h _ (key_of seg)) as [c'| |] eqn:Hc'; cbn [bind];
     [|discriminate..];
     rewrite (prop_get_app_store _ ext _ _ _ Hc'); cbn [bind]; apply IH).
Qed.

(** The own properties of the copy of a parsed document are those of
    the document. *)
Lemma alloc_clone_get d h0 D h clone h1 key :
  alloc d h0 = (D, h) ->
  is_ref D = true ->
  (if isArray h D then spread_array h D else spread_object h D) = Ok (clone, h1) ->
  prop_get h1 clone key = prop_get h D key.
Proof.
  destruct d as [| | | | |items|members];
    try (intros [= <- <-]; discriminate).
  - rewrite alloc_array. destruct (alloc_items items h0) as [vs h2] eqn:Hitems.
    assert (Forall (fun e => is_Some e) vs) as Hsome.
    { clear -Hitems. revert h0 vs h2 Hitems.
      induction items as [|t ts IH]; intros h0 vs h2 Hitems.
      - injection Hitems as <- <-. constructor.
      - cbn [alloc_items] in Hitems. destruct (alloc t h0) as [w h3].
        destruct (alloc_items ts h3) as [ws h4] eqn:Hws.
        injection Hitems as <- <-. constructor; [now exists w | eapply IH, Hws]. }
    unfold new_object. intros [= <- <-] _.
    unfold isArray, spread_array.
    rewrite lookup_app_r by lia. rewrite Nat.sub_diag. cbn [lookup list_lookup].
    unfold new_object. intros [= <- <-].
    unfold prop_get, own_prop, kind_of.
    rewrite !lookup_app_r by (rewrite ?length_app; simpl; lia).
    rewrite !Nat.sub_diag.
    cbn [lookup list_lookup]. rewrite length_map.
    destruct (String.eqb key "length"); [reflexivity|].
    destruct (array_index key) as [i|]; [|reflexivity].
    rewrite list_lookup_fmap.
    destruct (vs !! N.to_nat i) as [e|] eqn:He; [|reflexivity].
    rewrite Forall_forall in Hsome.
    destruct (Hsome e (list_elem_of_lookup_2 _ _ _ He)) as [w ->]. reflexivity.
  - rewrite alloc_object. destruct (alloc_members members h0) as [ps h2].
    unfold new_object. intros [= <- <-] _.
    unfold isArray, spread_object.
    rewrite lookup_app_r by lia. rewrite Nat.sub_diag. cbn [lookup list_lookup].
    unfold new_object. intros [= <- <-].
    unfold prop_get, own_prop, kind_of.
    rewrite !lookup_app_r by (rewrite ?length_app; simpl; lia).
    rewrite !Nat.sub_diag.
    cbn [lookup list_lookup]. now rewrite lookup_own_entries.
Qed.

Lemma setValueAtPath_loop h v seg rest x :
  setValueAtPath h v (Some (seg :: rest)) x
  = let* (clone, h1) :=
      if isArray h v then spread_array h v else spread_object h v in
    let* h2 := assign h1 clone (seg :: rest) x in
    Ok (clone, h2).
Proof. reflexivity. Qed.

Lemma dec_not_length (n : N) : String.eqb (dec n) "length" = false.
Proof.
  unfold dec, NilZero.string_of_uint.
  now destruct (N.to_uint n).
Qed.






Lemma spread_returns h lo l :
  otree h lo (VRef l) ->
  exists clone h1,
    (if isArray h (VRef l) then spread_array h (VRef l)
     else spread_object h (VRef l)) = Ok (clone, h1).
Proof.
  inversion 1 as [| | | | |? o Hl _ _]; subst.
  unfold isArray, spread_array, spread_object. rewrite Hl.
  destruct o; eauto.
Qed.
End CreateFacts.

(** ** Writing back what is there *)

Section WriteBackFacts.
Context `{Builtins}.
Implicit Types (h : heap) (l lo : loc) (v x c : value) (key : string)
  (segs rest : JSONPath).


Lemma prop_get_defined h v key x :
  prop_get h v key = Ok x -> x <> VUndefined -> own_prop h v key = Some x.
Proof.
  unfold prop_get, from_prototype. intros Hget Hx.
  destruct v; try discriminate;
    (destruct (own_prop h _ key); [congruence|];
     destruct (kind_of h _) as [k|]; [|discriminate];
     destruct (inherited k key); congruence).
Qed.




Lemma mapM_agree {A B} (f g : A -> option B) (xs : list A) :
  Forall (fun a => f a = g a) xs -> mapM f xs = mapM g xs.
Proof.
  induction 1 as [|a xs Ha _ IH]; [reflexivity|].
  cbn. now rewrite Ha, IH.
Qed.




End WriteBackFacts.



(** ** The input of [setValueAtPath] *)

(** C1 (what the code does instead): only the outermost container is
    copied.  Writing 2 at [a.b] in the document that holds 1 there changes
    the input: the object under [a] is shared with the copy and is
    assigned in place, so the input is no longer deep-equal to what it
    was. *)
Theorem setValueAtPath_mutates_nested (B : Builtins) :
  match @setValueAtPath B (alloc (TObj [("a", TObj [("b", TNum 1)])]) []).2
          (alloc (TObj [("a", TObj [("b", TNum 1)])]) []).1
          (Some [Key "a"; Key "b"]) (VNum 2) with
  | Ok (D', h') =>
      shape (alloc (TObj [("a", TObj [("b", TNum 1)])]) []).2
        (alloc (TObj [("a", TObj [("b", TNum 1)])]) []).1
      = Some (TObj [("a", TObj [("b", TNum 1)])])
      /\ shape h' (alloc (TObj [("a", TObj [("b", TNum 1)])]) []).1
         = Some (TObj [("a", TObj [("b", TNum 2)])])
      /\ ~ deep_equal h' (alloc (TObj [("a", TObj [("b", TNum 1)])]) []).1
             (alloc (TObj [("a", TObj [("b", TNum 1)])]) []).2
             (alloc (TObj [("a", TObj [("b", TNum 1)])]) []).1
  | _ => False
  end.
Proof.
  split; [reflexivity|]. split; [reflexivity|].
  intros Hequal. specialize (Hequal 2). discriminate.
Qed.
(** ** The comparison of paths in [handleSave] *)

Lemma append_prefix (a b X Y : string) :
  String.append a X = String.append b Y ->
  String.prefix a b = true \/ String.prefix b a = true.
Proof.
  revert b. induction a as [|c a IH]; intros b Heq; [left; now destruct b|].
  destruct b as [|c' b]; [now right|].
  simpl in Heq. injection Heq as -> Heq.
  destruct (IH _ Heq) as [Hp|Hp]; [left|right]; simpl;
    (destruct (ascii_dec c' c'); [exact Hp | contradiction]).
Qed.

Lemma append_cancel (a X Y : string) :
  String.append a X = String.append a Y -> X = Y.
Proof.
  induction a as [|c a IH]; simpl; [trivial|].
  intros [= Heq]. now apply IH.
Qed.

Lemma all_ascii_In (c : ascii) : In c all_ascii.
Proof.
  unfold all_ascii. rewrite <- (ascii_nat_embedding c).
  apply in_map, in_seq. split; [lia|]. simpl. apply nat_ascii_bounded.
Qed.

Lemma quote_code_checked : quote_code_ok = true.
Proof. vm_compute. reflexivity. Qed.

Lemma quote_char_head (c : ascii) :
  exists a rest, quote_char c = String a rest /\ a <> dquote.
Proof.
  pose proof quote_code_checked as Hok. unfold quote_code_ok in Hok.
  rewrite forallb_forall in Hok. specialize (Hok c (all_ascii_In c)).
  apply andb_true_iff in Hok as [Hhead _].
  destruct (quote_char c) as [|a rest]; [discriminate|].
  exists a, rest. split; [reflexivity|].
  intros ->. rewrite Ascii.eqb_refl in Hhead. discriminate.
Qed.

Lemma quote_char_inj (c1 c2 : ascii) (X Y : string) :
  String.append (quote_char c1) X = String.append (quote_char c2) Y ->
  c1 = c2 /\ X = Y.
Proof.
  intros Heq.
  assert (forall a b, String.prefix (quote_char a) (quote_char b) = true -> a = b)
    as Hcode.
  { intros a b Hp. pose proof quote_code_checked as Hok. unfold quote_code_ok in Hok.
    rewrite forallb_forall in Hok. specialize (Hok a (all_ascii_In a)).
    apply andb_true_iff in Hok as [_ Hok].
    rewrite forallb_forall in Hok. specialize (Hok b (all_ascii_In b)).
    rewrite Hp in Hok. simpl in Hok. now apply Ascii.eqb_eq. }
  assert (c1 = c2) as ->.
  { destruct (append_prefix _ _ _ _ Heq) as [Hp|Hp];
      [apply Hcode, Hp | symmetry; apply Hcode, Hp]. }
  split; [reflexivity | eapply append_cancel, Heq].
Qed.

(** A string literal is read back from the text that starts with it. *)
Lemma quote_body_inj (s1 s2 r1 r2 : string) :
  String.append (quote_body s1) (String dquote r1)
  = String.append (quote_body s2) (String dquote r2) ->
  s1 = s2 /\ r1 = r2.
Proof.
  revert s2. induction s1 as [|c1 s1 IH]; intros [|c2 s2]; simpl.
  - now intros [= ->].
  - destruct (quote_char_head c2) as (a & rest & -> & Ha). simpl.
    intros [= Heq _]. now destruct Ha.
  - destruct (quote_char_head c1) as (a & rest & -> & Ha). simpl.
    intros [= Heq _]. now destruct Ha.
  - rewrite !append_assoc. intros Heq.
    apply quote_char_inj in Heq as [-> Heq].
    destruct (IH _ Heq) as [-> ->]. now split.
Qed.

Lemma digits_inj (d1 d2 : Decimal.uint) (r1 r2 : string) :
  String.append (NilEmpty.string_of_uint d1) r1
  = String.append (NilEmpty.string_of_uint d2) r2 ->
  separated_text r1 = true -> separated_text r2 = true ->
  d1 = d2 /\ r1 = r2.
Proof.
  revert d2. induction d1 as [|d1 IH|d1 IH|d1 IH|d1 IH|d1 IH|d1 IH|d1 IH|d1 IH|d1 IH|d1 IH];
    intros d2 Heq H1 H2; destruct d2; simpl in Heq;
    try (subst; discriminate);
    try (injection Heq as Heq; destruct (IH _ Heq H1 H2) as [-> ->]; now split);
    try discriminate.
  now split.
Qed.

Lemma decZ_dec (n : N) : decZ (Z.of_N n) = dec n.
Proof. now destruct n. Qed.

Lemma dec_digits (n : N) : dec n = NilEmpty.string_of_uint (N.to_uint n).
Proof.
  unfold dec, NilZero.string_of_uint.
  destruct (N.to_uint n) eqn:Hn; try reflexivity.
  destruct n as [|p]; [discriminate|].
  now apply DecimalPos.Unsigned.to_uint_nonnil in Hn.
Qed.

Lemma separated_path_tail (segs : JSONPath) : separated_text (path_tail segs) = true.
Proof. now destruct segs. Qed.

(** The text of a segment starts with a digit or a quote. *)
Lemma segment_json_head (seg : segment) (r : string) :
  separated_text (String.append (segment_json seg) r) = false.
Proof.
  destruct seg as [n|k]; cbn [segment_json]; [|reflexivity].
  rewrite decZ_dec. unfold dec, NilZero.string_of_uint.
  now destruct (N.to_uint n).
Qed.

Lemma segment_json_inj (s1 s2 : segment) (r1 r2 : string) :
  String.append (segment_json s1) r1 = String.append (segment_json s2) r2 ->
  separated_text r1 = true -> separated_text r2 = true ->
  s1 = s2 /\ r1 = r2.
Proof.
  destruct s1 as [n1|k1], s2 as [n2|k2]; cbn [segment_json];
    rewrite ?decZ_dec, ?dec_digits; unfold quote, dq; intros Heq H1 H2.
  - destruct (digits_inj _ _ _ _ Heq H1 H2) as [Hd ->].
    split; [|reflexivity]. f_equal.
    rewrite <- (DecimalN.Unsigned.of_to n1), <- (DecimalN.Unsigned.of_to n2).
    now rewrite Hd.
  - exfalso. destruct (N.to_uint n1); simpl in Heq;
      try discriminate. subst r1. discriminate.
  - exfalso. destruct (N.to_uint n2); simpl in Heq;
      try discriminate. subst r2. discriminate.
  - simpl in Heq. injection Heq as Heq. rewrite !append_assoc in Heq. simpl in Heq.
    apply quote_body_inj in Heq as [-> ->]. now split.
Qed.

Lemma path_tail_inj (a b : JSONPath) : path_tail a = path_tail b -> a = b.
Proof.
  revert b. induction a as [|s a IH]; intros [|s' b]; simpl; try discriminate;
    [reflexivity|].
  intros [= Heq].
  apply segment_json_inj in Heq as [-> Heq]; try apply separated_path_tail.
  f_equal. now apply IH.
Qed.

Lemma concat_path_tail (seg : segment) (rest : JSONPath) :
  String.append (String.concat "," (map segment_json (seg :: rest))) "]"
  = String.append (segment_json seg) (path_tail rest).
Proof.
  revert seg. induction rest as [|s rest IH]; intros seg; [reflexivity|].
  change (String.concat "," (map segment_json (seg :: s :: rest)))
    with (String.append (segment_json seg)
            (String.append "," (String.concat "," (map segment_json (s :: rest))))).
  rewrite append_assoc. f_equal.
  change (String "," (String.append (String.concat "," (map segment_json (s :: rest))) "]")
          = String "," (String.append (segment_json s) (path_tail rest))).
  f_equal. apply IH.
Qed.

Lemma path_text_tail (seg : segment) (rest : JSONPath) :
  path_text (Some (seg :: rest))
  = Some (String.append "[" (String.append (segment_json seg) (path_tail rest))).
Proof.
  unfold path_text. cbn [stringify map]. f_equal.
  set (go := fix go (ts : list tree) : list string :=
               match ts with
               | [] => []
               | t :: ts' => default "null" (stringify EmptyString EmptyString t) :: go ts'
               end).
  assert (forall segs, go (map segment_tree segs) = map segment_json segs) as Hgo.
  { induction segs as [|s segs IH]; [reflexivity|].
    simpl. rewrite IH. now destruct s. }
  change (layout "[" "]" EmptyString EmptyString
            (go (map segment_tree (seg :: rest)))
          = String.append "[" (String.append (segment_json seg) (path_tail rest))).
  rewrite Hgo. rewrite <- concat_path_tail. reflexivity.
Qed.

(** [JSON.stringify] tells paths apart: two paths have the same text
    only when they are the same path. *)
Lemma path_text_inj (p q : option JSONPath) : path_text p = path_text q -> p = q.
Proof.
  destruct p as [[|s a]|], q as [[|s' b]|]; try discriminate; try reflexivity;
    rewrite ?path_text_tail.
  - intros [= Heq]. exfalso.
    pose proof (segment_json_head s' (path_tail b)) as Hhead.
    rewrite <- Heq in Hhead. discriminate.
  - intros [= Heq]. exfalso.
    pose proof (segment_json_head s (path_tail a)) as Hhead.
    rewrite Heq in Hhead. discriminate.
  - intros [= Heq].
    apply segment_json_inj in Heq as [-> Heq]; try apply separated_path_tail.
    apply path_tail_inj in Heq. now subst.
Qed.

Lemma path_text_nonempty (segs : JSONPath) :
  exists target, path_text (Some segs) = Some target
                 /\ String.eqb target EmptyString = false.
Proof.
  destruct segs as [|seg rest]; [now exists "[]"|].
  rewrite path_text_tail. eexists. split; reflexivity.
Qed.

(** ** Telling paths apart by the expression shown *)

Lemma quote_free_inj (s1 s2 r1 r2 : string) :
  String.append s1 (String dquote r1) = String.append s2 (String dquote r2) ->
  quote_free s1 = true -> quote_free s2 = true ->
  s1 = s2 /\ r1 = r2.
Proof.
  revert s2. induction s1 as [|c1 s1 IH]; intros [|c2 s2]; simpl.
  - now intros [= ->].
  - intros [= <- _] _ Hfree. now rewrite Ascii.eqb_refl in Hfree.
  - intros [= -> _] Hfree. now rewrite Ascii.eqb_refl in Hfree.
  - intros [= -> Heq] H1 H2.
    apply andb_true_iff in H1 as [_ H1]. apply andb_true_iff in H2 as [_ H2].
    destruct (IH _ Heq H1 H2) as [-> ->]. now split.
Qed.

Lemma bracket_inj (s1 s2 : segment) (r1 r2 : string) :
  String.append (bracket s1) r1 = String.append (bracket s2) r2 ->
  plain_key s1 = true -> plain_key s2 = true ->
  s1 = s2 /\ r1 = r2.
Proof.
  destruct s1 as [n1|k1], s2 as [n2|k2]; cbn [bracket plain_key];
    rewrite ?dec_digits, ?append_assoc; unfold dq; simpl; intros [= Heq] H1 H2.
  - apply digits_inj in Heq as [Hd [= ->]]; [|reflexivity..].
    split; [|reflexivity]. f_equal.
    rewrite <- (DecimalN.Unsigned.of_to n1), <- (DecimalN.Unsigned.of_to n2).
    now rewrite Hd.
  - exfalso. destruct (N.to_uint n1); discriminate.
  - exfalso. destruct (N.to_uint n2); discriminate.
  - apply quote_free_inj in Heq as [-> [= ->]]; [now split | assumption..].
Qed.

Lemma brackets_inj (a b : JSONPath) :
  forallb plain_key a = true -> forallb plain_key b = true ->
  brackets a = brackets b -> a = b.
Proof.
  revert b. induction a as [|s a IH]; intros [|s' b] Ha Hb; simpl.
  - reflexivity.
  - destruct s'; discriminate.
  - destruct s; discriminate.
  - simpl in Ha, Hb.
    apply andb_true_iff in Ha as [Hs Ha]. apply andb_true_iff in Hb as [Hs' Hb].
    intros Heq. apply bracket_inj in Heq as [-> Heq]; [|assumption..].
    f_equal. now apply IH.
Qed.

(** X2: The expression shown under the content tells apart the paths whose
    keys hold no double quote: two such paths with the same expression
    are the same path. *)
Theorem jsonPathToString_inj (a b : JSONPath) :
  forallb plain_key a = true -> forallb plain_key b = true ->
  jsonPathToString (Some a) = jsonPathToString (Some b) -> a = b.
Proof.
  intros Ha Hb Heq. apply brackets_inj; [exact Ha | exact Hb |].
  assert (forall segs, jsonPathToString (Some segs) = String.append "$" (brackets segs))
    as Hshown.
  { intros [|seg rest]; [reflexivity|].
    unfold jsonPathToString. now rewrite <- joined_brackets. }
  rewrite !Hshown in Heq. now injection Heq.
Qed.

Lemma jsonPathToString_inj_example :
  [Key "items"; Index 2] = [Key "items"; Index 2].
Proof.
  exact (jsonPathToString_inj [Key "items"; Index 2] [Key "items"; Index 2]
           eq_refl eq_refl eq_refl).
Defined.

(** A key is shown between quotes without escaping, so a key that holds
    quotes and brackets can show as two keys. *)
Lemma jsonPathToString_collision :
  jsonPathToString
    (Some [Key (String.append "a" (String.append dq (String.append "][" (String.append dq "b"))))])
  = jsonPathToString (Some [Key "a"; Key "b"]).
Proof. reflexivity. Qed.


(** ** The handlers and the session *)

Lemma add_rows_never_throws (rows : list row) (obj : props tree) (e : exn) :
  add_rows obj rows <> Throw e.
Proof.
  revert obj. induction rows as [|r rows IH]; intros obj; [discriminate|].
  cbn [add_rows]. unfold add_row, assign_prop, add_prop.
  destruct (is_scalar_row r); [|apply IH].
  destruct (truthy_key r) as [k|]; [|apply IH].
  destruct (lookup_prop k obj); [apply IH|].
  destruct (String.eqb k "__proto__"); [|apply IH].
  destruct (tree_is_proto (value_of r)); [discriminate | apply IH].
Qed.

Lemma normalizeNodeData_never_throws (rows : list row) (e : exn) :
  normalizeNodeData rows <> Throw e.
Proof.
  unfold normalizeNodeData. destruct rows as [|r rest]; [discriminate|].
  destruct (_ && _); [discriminate|].
  destruct (add_rows [] (r :: rest)) as [obj|e'|] eqn:Hrows; simpl;
    [discriminate | | discriminate].
  exfalso. exact (add_rows_never_throws _ _ _ Hrows).
Qed.

Section SessionFacts.
Context `{Builtins}.
Variable JSON_parse : string -> outcome tree.
Variable setGraph : option string -> outcome (list node).
Variable type_error_text range_error_text : string.

Local Abbreviation save := (handleSave JSON_parse setGraph type_error_text range_error_text).
Local Abbreviation failed m e :=
  {| editing := editing m;
     error := Some (message type_error_text range_error_text e);
     editValue := editValue m |}.

Lemma current_text_never_throws (s : stores) (e : exn) :
  current_text JSON_parse s <> Throw e.
Proof.
  unfold current_text, try_catch.
  destruct (bind _ _); [discriminate | apply normalizeNodeData_never_throws | discriminate].
Qed.

(** X13: When the text of the live document does not parse, the selection
    effect, Edit and Cancel all put the normalization of the rows of the
    selected node in the edit buffer. *)
Theorem parse_failure_falls_back (m : modal) (s : stores) (e : exn) :
  JSON_parse (getJson s) = Throw e ->
  on_select JSON_parse m s
  = (let* text := normalizeNodeData (rows_of s) in
     Ok {| editing := false; error := None; editValue := text |})
  /\ on_edit JSON_parse m s
     = (let* text := normalizeNodeData (rows_of s) in
        Ok {| editing := true; error := error m; editValue := text |})
  /\ on_cancel JSON_parse m s
     = (let* text := normalizeNodeData (rows_of s) in
        Ok {| editing := false; error := None; editValue := text |}).
Proof.
  intros Hparse.
  assert (current_text JSON_parse s = normalizeNodeData (rows_of s)) as Htext.
  { unfold current_text, parse_in. now rewrite Hparse. }
  unfold on_select, on_edit, on_cancel. now rewrite Htext.
Qed.

(** X19: No exception leaves the selection effect, Edit, Cancel or Save:
    whatever the parser throws, and whatever the write throws, is
    caught. *)
Theorem handlers_never_throw (m : modal) (s : stores) (e : exn) :
  on_select JSON_parse m s <> Throw e
  /\ on_edit JSON_parse m s <> Throw e
  /\ on_cancel JSON_parse m s <> Throw e
  /\ save m s <> Throw e.
Proof.
  pose proof (current_text_never_throws s e) as Htext.
  unfold on_select, on_edit, on_cancel, handleSave, try_catch.
  repeat split.
  1-3: destruct (current_text JSON_parse s); cbn [bind];
    [discriminate | intros [= ->]; now apply Htext | discriminate].
  match goal with
  | |- match ?run with _ => _ end <> _ => destruct run; discriminate
  end.
Qed.

(** When both texts parse and the write throws, Save keeps the session
    in Editing, shows the message of the exception, and calls no
    store. *)
Lemma handleSave_write_failure (m : modal) (s : stores) (tnew tdoc : tree)
  (e : exn) :
  JSON_parse (buffer_text m) = Ok tnew ->
  JSON_parse (getJson s) = Ok tdoc ->
  setValueAtPath (alloc tdoc (alloc tnew []).2).2 (alloc tdoc (alloc tnew []).2).1
    (path_of s) (alloc tnew []).1 = Throw e ->
  save m s = Ok (failed m e, []).
Proof.
  intros Hnew Hdoc Hwrite. unfold handleSave, parse_in.
  rewrite Hnew. cbn [bind]. destruct (alloc tnew []) as [parsedNew h1].
  cbn [bind fst snd] in *. rewrite Hdoc. cbn [bind].
  destruct (alloc tdoc h1) as [whole h2]. cbn [bind fst snd] in *.
  now rewrite Hwrite.
Qed.

Lemma reselect_events (s : stores) (h : heap) (updated : value)
  (contents : option string) (rebuilt : list event) :
  stringify_value h updated = Ok contents ->
  reselect setGraph s h updated = Ok rebuilt ->
  rebuilt = [SetGraph contents]
  \/ exists target found,
       rebuilt = [SetGraph contents; SetSelectedNode found]
       /\ path_text (path_of s) = Some target
       /\ path_text (path found) = Some target.
Proof.
  intros Htext. unfold reselect. rewrite Htext. cbn [bind try_catch].
  destruct (setGraph contents) as [nodes| |]; cbn [bind try_catch];
    [|intros [= <-]; now left | discriminate].
  destruct (path_text (path_of s)) as [target|] eqn:Htarget;
    [|intros [= <-]; now left].
  destruct (String.eqb target EmptyString); [intros [= <-]; now left|].
  destruct (find (same_path target) nodes) as [found|] eqn:Hfind;
    intros [= <-]; [|now left].
  right. exists target, found. split; [reflexivity|]. split; [reflexivity|].
  apply find_some in Hfind as [_ Hsame]. unfold same_path in Hsame.
  destruct (path_text (path found)) as [t|]; [|discriminate].
  apply String.eqb_eq in Hsame. now subst.
Qed.

(** X14: Save ends in one of two ways.  Either it failed: the session is as
    it was but for the message of the exception, and no store was
    called.  Or it went through: the session is back to viewing without
    an error, the edit buffer as it was, and the stores were given the
    text of the updated document, once as contents with the unsaved
    mark and once for the graph, followed at most by the selection of a
    node whose path has the text of the saved path. *)
Theorem handleSave_outcomes (m m' : modal) (s : stores) (events : list event) :
  save m s = Ok (m', events) ->
  (exists e, m' = failed m e /\ events = [])
  \/ (m' = {| editing := false; error := None; editValue := editValue m |}
      /\ exists contents,
           events = [SetContents contents true; SetGraph contents]
           \/ exists target found,
                events = [SetContents contents true; SetGraph contents;
                          SetSelectedNode found]
                /\ path_text (path_of s) = Some target
                /\ path_text (path found) = Some target).
Proof.
  unfold handleSave.
  destruct (parse_in JSON_parse (buffer_text m) []) as [[parsedNew h1]|e|];
    cbn [bind try_catch]; [|intros [= <- <-]; left; now exists e | discriminate].
  destruct (parse_in JSON_parse (getJson s) h1) as [[whole h2]|e|];
    cbn [bind try_catch]; [|intros [= <- <-]; left; now exists e | discriminate].
  destruct (setValueAtPath h2 whole (path_of s) parsedNew) as [[updated h3]|e|];
    cbn [bind try_catch]; [|intros [= <- <-]; left; now exists e | discriminate].
  destruct (stringify_value h3 updated) as [contents|e|] eqn:Htext;
    cbn [bind try_catch]; [|intros [= <- <-]; left; now exists e | discriminate].
  destruct (reselect setGraph s h3 updated) as [rebuilt|e|] eqn:Hrebuilt;
    cbn [bind try_catch]; [|intros [= <- <-]; left; now exists e | discriminate].
  intros [= <- <-]. right. split; [reflexivity|]. exists contents.
  destruct (reselect_events _ _ _ _ _ Htext Hrebuilt)
    as [->|(target & found & -> & Htarget & Hfound)]; [now left|].
  right. now exists target, found.
Qed.

(** X15: The node selected again after a Save is one at the saved path, and
    when the rebuilt graph has a node at the saved path, one is
    selected: comparing the texts of two paths is comparing the
    paths. *)
Theorem handleSave_selects_saved_path (m m' : modal) (s : stores)
  (events : list event) :
  save m s = Ok (m', events) ->
  (forall n, In (SetSelectedNode n) events ->
             path n = path_of s /\ path_of s <> None)
  /\ (forall contents nodes n,
        In (SetGraph contents) events -> setGraph contents = Ok nodes ->
        In n nodes -> path n = path_of s -> path_of s <> None ->
        exists n', In (SetSelectedNode n') events).
Proof.
  unfold handleSave.
  destruct (parse_in JSON_parse (buffer_text m) []) as [[parsedNew h1]|e|];
    cbn [bind try_catch];
    [|intros [= <- <-]; split; [intros n [] | intros ? ? ? []] | discriminate].
  destruct (parse_in JSON_parse (getJson s) h1) as [[whole h2]|e|];
    cbn [bind try_catch];
    [|intros [= <- <-]; split; [intros n [] | intros ? ? ? []] | discriminate].
  destruct (setValueAtPath h2 whole (path_of s) parsedNew) as [[updated h3]|e|];
    cbn [bind try_catch];
    [|intros [= <- <-]; split; [intros n [] | intros ? ? ? []] | discriminate].
  destruct (stringify_value h3 updated) as [contents|e|] eqn:Htext;
    cbn [bind try_catch];
    [|intros [= <- <-]; split; [intros n [] | intros ? ? ? []] | discriminate].
  destruct (reselect setGraph s h3 updated) as [rebuilt|e|] eqn:Hrebuilt;
    cbn [bind try_catch];
    [|intros [= <- <-]; split; [intros n [] | intros ? ? ? []] | discriminate].
  intros [= <- <-].
  pose proof (reselect_events _ _ _ _ _ Htext Hrebuilt) as Hcases.
  split.
  - intros n [Hn|Hn]; [discriminate|].
    destruct Hcases as [->|(target & found & -> & Ht & Hf)].
    + destruct Hn as [Hn|[]]. discriminate.
    + destruct Hn as [Hn|[Hn|[]]]; [discriminate|]. injection Hn as <-.
      split; [apply path_text_inj; congruence|].
      intros Hnone. rewrite Hnone in Ht. discriminate.
  - intros contents' nodes n [Hin|Hin] Hgraph Hn Hpath Hsome; [discriminate|].
    assert (contents' = contents) as ->.
    { destruct Hcases as [->|(target & found & -> & _)].
      - destruct Hin as [Hin|[]]. now injection Hin.
      - destruct Hin as [Hin|[Hin|[]]]; [now injection Hin | discriminate]. }
    unfold reselect in Hrebuilt. rewrite Htext in Hrebuilt.
    cbn [bind try_catch] in Hrebuilt. rewrite Hgraph in Hrebuilt.
    cbn [bind try_catch] in Hrebuilt.
    destruct (path_of s) as [segs|] eqn:Hp; [|congruence].
    destruct (path_text_nonempty segs) as (target & Htarget & Hnonempty).
    rewrite Htarget, Hnonempty in Hrebuilt.
    destruct (find (same_path target) nodes) as [found|] eqn:Hfind.
    + injection Hrebuilt as <-. exists found. right. right. now left.
    + exfalso. apply (find_none _ _ Hfind) in Hn. unfold same_path in Hn.
      rewrite Hpath, Htarget, String.eqb_refl in Hn. discriminate.
Qed.

Lemma handleSave_error (m m' : modal) (s : stores) (events : list event) :
  editing m = true ->
  save m s = Ok (m', events) ->
  editing m' = false -> error m' = None.
Proof.
  intros Hedit. unfold handleSave, try_catch.
  destruct (bind _ _) as [[m1 evs]| |] eqn:Hrun; [| |discriminate].
  - intros [= <- <-]. revert Hrun.
    repeat (match goal with
            | |- bind ?x _ = _ -> _ => destruct x as [[? ?]| |]; cbn [bind]; try discriminate
            end).
    destruct (stringify_value _ _); cbn [bind]; try discriminate.
    destruct (reselect _ _ _ _); cbn [bind]; try discriminate.
    now intros [= <- <-].
  - intros [= <- <-]. simpl. congruence.
Qed.

(** X20: In every state the session can reach, an error message is shown
    only while editing: once the text area is gone, so is the message
    of the last failed Save. *)
Theorem error_only_while_editing (m : modal) :
  reachable JSON_parse setGraph type_error_text range_error_text m ->
  editing m = false -> error m = None.
Proof.
  induction 1 as [|m m' _ IH Hstep]; [reflexivity|].
  destruct Hstep as [m s m' Hrun | m s m' Hview Hrun | m typed Hedit
                     | m s m' events Hedit Hrun | m s m' Hedit Hrun].
  - unfold on_select in Hrun. destruct (current_text JSON_parse s);
      [|discriminate..]. now injection Hrun as <-.
  - unfold on_edit in Hrun. destruct (current_text JSON_parse s);
      [|discriminate..]. injection Hrun as <-. discriminate.
  - simpl. congruence.
  - eapply handleSave_error; eassumption.
  - unfold on_cancel in Hrun. destruct (current_text JSON_parse s);
      [|discriminate..]. now injection Hrun as <-.
Qed.

(** X18: Edit on a node whose path no longer resolves, then Save without
    typing: the edit buffer holds [undefined], which the parser is
    given as the text [undefined]; when it rejects that text, Save
    fails with its message and calls no store. *)
Theorem stale_node_save_fails (m : modal) (s : stores) (t : tree) (e : exn) :
  JSON_parse (getJson s) = Ok t ->
  getValueAtPath (alloc t []).2 (alloc t []).1 (path_of s) = Ok VUndefined ->
  JSON_parse "undefined" = Throw e ->
  exists m1,
    on_edit JSON_parse m s = Ok m1
    /\ editing m1 = true
    /\ editValue m1 = None
    /\ save m1 s = Ok (failed m1 e, []).
Proof.
  intros Hparse Hmiss Hreject.
  exists {| editing := true; error := error m; editValue := None |}.
  split; [|split; [reflexivity|split; [reflexivity|]]].
  - unfold on_edit, current_text, parse_in. rewrite Hparse. cbn [bind].
    destruct (alloc t []) as [parsed h]. cbn [fst snd] in Hmiss.
    cbn [bind]. now rewrite Hmiss.
  - unfold handleSave, parse_in, buffer_text. cbn [editValue default].
    now rewrite Hreject.
Qed.
End SessionFacts.

Lemma parse_failure_falls_back_example :
  @on_select example_engine example_parse
    {| editing := true; editValue := Some "1"; error := None |}
    {| selectedNode :=
         Some {| path := Some [Key "a"];
                 text := [ {| key := None; value_of := TNum 42; type := "number" |} ] |};
       getJson := "{invalid" |}
  = Ok {| editing := false; error := None; editValue := Some "42" |}.
Proof.
  exact (proj1 (@parse_failure_falls_back example_engine example_parse
           {| editing := true; editValue := Some "1"; error := None |}
           {| selectedNode :=
                Some {| path := Some [Key "a"];
                        text := [ {| key := None; value_of := TNum 42; type := "number" |} ] |};
              getJson := "{invalid" |}
           (SyntaxError "Unexpected token i") eq_refl)).
Defined.

(** Saving 1 as the whole document. *)
Lemma handleSave_outcomes_example :
  match @handleSave example_engine example_parse example_graph
          "TypeError" "RangeError"
          {| editing := true; editValue := Some "1"; error := None |}
          {| selectedNode := None; getJson := "{}" |} with
  | Ok (m', events) =>
      (exists e,
          m' = {| editing := true;
                  error := Some (message "TypeError" "RangeError" e);
                  editValue := Some "1" |}
          /\ events = [])
      \/ (m' = {| editing := false; error := None; editValue := Some "1" |}
          /\ exists contents,
               events = [SetContents contents true; SetGraph contents]
               \/ exists target found,
                    events = [SetContents contents true; SetGraph contents;
                              SetSelectedNode found]
                    /\ path_text None = Some target
                    /\ path_text (path found) = Some target)
  | _ => False
  end.
Proof.
  exact (@handleSave_outcomes example_engine example_parse example_graph
           "TypeError" "RangeError"
           {| editing := true; editValue := Some "1"; error := None |} _
           {| selectedNode := None; getJson := "{}" |} _ eq_refl).
Defined.

(** Edit, a text that does not parse, a failed Save, then Cancel. *)
Lemma error_only_while_editing_example :
  error {| editing := false; error := None; editValue := Some "{}" |} = None.
Proof.
  refine (@error_only_while_editing example_engine example_parse example_graph
            "TypeError" "RangeError"
            {| editing := false; error := None; editValue := Some "{}" |} _ eq_refl).
  apply (reach_step _ _ _ _
           {| editing := true; error := Some "Unexpected token i";
              editValue := Some "{invalid" |});
    [|now apply step_cancel with (s := {| selectedNode := None; getJson := "{}" |})].
  apply (reach_step _ _ _ _
           {| editing := true; error := None; editValue := Some "{invalid" |});
    [|now apply step_save
        with (s := {| selectedNode := None; getJson := "{}" |}) (events := [])].
  apply (reach_step _ _ _ _
           {| editing := true; error := None; editValue := Some "{}" |});
    [|now apply (step_change _ _ _ _
                   {| editing := true; error := None; editValue := Some "{}" |}
                   "{invalid")].
  apply (reach_step _ _ _ _ initial); [apply reach_initial|].
  now apply step_edit with (s := {| selectedNode := None; getJson := "{}" |}).
Defined.

Lemma stale_node_save_fails_example :
  exists m1,
    @on_edit example_engine example_parse_more initial
      {| selectedNode := Some {| path := Some [Key "a"]; text := [] |};
         getJson := "{}" |} = Ok m1
    /\ editing m1 = true
    /\ editValue m1 = None
    /\ @handleSave example_engine example_parse_more example_graph
         "TypeError" "RangeError" m1
         {| selectedNode := Some {| path := Some [Key "a"]; text := [] |};
            getJson := "{}" |}
       = Ok ({| editing := editing m1;
                error := Some (message "TypeError" "RangeError"
                                 (SyntaxError "Unexpected token u"));
                editValue := editValue m1 |}, []).
Proof.
  exact (@stale_node_save_fails example_engine example_parse_more example_graph
           "TypeError" "RangeError" initial
           {| selectedNode := Some {| path := Some [Key "a"]; text := [] |};
              getJson := "{}" |}
           (TObj []) (SyntaxError "Unexpected token u") eq_refl eq_refl eq_refl).
Defined.

(** Saving 1 at the path [a], in a graph store that rebuilds two nodes. *)
Lemma handleSave_selects_saved_path_example :
  match @handleSave example_engine example_parse example_graph_two
          "TypeError" "RangeError"
          {| editing := true; editValue := Some "1"; error := None |}
          {| selectedNode := Some {| path := Some [Key "a"]; text := [] |};
             getJson := "{}" |} with
  | Ok (m', events) =>
      (forall n, In (SetSelectedNode n) events ->
                 path n = Some [Key "a"] /\ Some [Key "a"] <> None)
      /\ (forall contents nodes n,
            In (SetGraph contents) events -> example_graph_two contents = Ok nodes ->
            In n nodes -> path n = Some [Key "a"] -> Some [Key "a"] <> None ->
            exists n', In (SetSelectedNode n') events)
  | _ => False
  end.
Proof.
  exact (@handleSave_selects_saved_path example_engine example_parse example_graph_two
           "TypeError" "RangeError"
           {| editing := true; editValue := Some "1"; error := None |} _
           {| selectedNode := Some {| path := Some [Key "a"]; text := [] |};
              getJson := "{}" |}
           _ eq_refl).
Defined.

(** ** Reading along a path in two steps *)

(** X3: Resolving a path is resolving its first part and then the rest from
    what was found. *)
Theorem getValueAtPath_concat `{Builtins} (h : heap) (doc : value)
  (pre rest : JSONPath) :
  getValueAtPath h doc (Some (pre ++ rest))
  = let* found := getValueAtPath h doc (Some pre) in
    getValueAtPath h found (Some rest).
Proof.
  rewrite !getValueAtPath_walk, walk_app.
  destruct (walk h doc pre) as [found| |]; cbn [bind]; [|reflexivity..].
  now rewrite getValueAtPath_walk.
Qed.

(** ** Rows that do not count *)

Lemma add_rows_none (rows : list row) (obj : props tree) :
  omap kept rows = [] -> add_rows obj rows = Ok obj.
Proof.
  induction rows as [|r rows IH]; [reflexivity|].
  cbn [omap list_omap add_rows]. unfold kept, add_row.
  destruct (is_scalar_row r); [|exact IH].
  destruct (truthy_key r); [discriminate | exact IH].
Qed.

(** X1: When every row is a container or has no key (the rows of an array
    of numbers, say), and the rows are not a lone row without a key, the
    normalization is the text of the empty object. *)
Theorem normalizeNodeData_no_member (rows : list row) :
  omap kept rows = [] ->
  (forall r, rows = [r] -> truthy_key r <> None) ->
  normalizeNodeData rows = Ok (Some "{}").
Proof.
  intros Hnone Hlone. unfold normalizeNodeData.
  destruct rows as [|r rest]; [reflexivity|].
  rewrite (add_rows_none _ _ Hnone).
  destruct rest as [|r' rest]; [|reflexivity].
  specialize (Hlone r eq_refl).
  destruct (truthy_key r); [reflexivity | congruence].
Qed.

Lemma normalizeNodeData_no_member_example :
  normalizeNodeData
    [ {| key := None; value_of := TNum 1; type := "number" |};
      {| key := None; value_of := TNum 2; type := "number" |} ]
  = Ok (Some "{}").
Proof.
  apply normalizeNodeData_no_member; [reflexivity | discriminate].
Defined.

(** ** What a write leaves alone *)

Section WriteFacts.
Context `{Builtins}.
Implicit Types (h : heap) (l lo : loc) (v x c : value) (key : string)
  (segs rest : JSONPath).

Lemma array_index_dec (i : N) :
  (i < max_index)%N -> array_index (dec i) = Some i.
Proof.
  intros Hi. unfold array_index, dec. rewrite NilZero.usu.
  - rewrite DecimalN.Unsigned.of_to. rewrite String.eqb_refl.
    apply N.ltb_lt in Hi. now rewrite Hi.
  - destruct i as [|p]; [discriminate|].
    apply DecimalPos.Unsigned.to_uint_nonnil.
Qed.

Lemma array_index_key key (i : N) : array_index key = Some i -> key = dec i.
Proof.
  unfold array_index.
  destruct (NilZero.uint_of_string key) as [d|]; [|discriminate].
  destruct (String.eqb_spec (dec (N.of_uint d)) key) as [Heq|]; [|discriminate].
  destruct (_ <? _)%N; [|discriminate]. intros [= <-]. now symmetry.
Qed.




(** The copy of an array is an array; every other copy is an object. *)
Lemma spread_kind h v clone h1 :
  (if isArray h v then spread_array h v else spread_object h v) = Ok (clone, h1) ->
  isArray h1 clone = isArray h v.
Proof.
  unfold isArray, spread_array, spread_object, new_object.
  destruct v as [| | | |s|l];
    try (intros [= <- <-]; now rewrite lookup_app_r, Nat.sub_diag by lia).
  destruct (h !! l) as [[fields|elems extra]|]; [| |discriminate];
    intros [= <- <-]; now rewrite lookup_app_r, Nat.sub_diag by lia.
Qed.

(** A store that agrees with another on its objects gives an ordered
    value the same shape. *)
Lemma snapshot_agree fuel h h' lo v :
  (forall l, l < length h -> h' !! l = h !! l) ->
  otree h lo v -> snapshot fuel h' v = snapshot fuel h v.
Proof.
  intros Hagree. revert v. induction fuel as [|fuel IH]; intros v Htree;
    [destruct v; reflexivity|].
  inversion Htree as [| | | | |l o Hl _ Hall]; subst; try reflexivity.
  cbn [snapshot]. rewrite Hagree by (eapply lookup_lt_Some, Hl).
  rewrite Hl. rewrite Forall_forall in Hall.
  destruct o as [fields|elems extra]; f_equal; apply mapM_agree, Forall_forall.
  - intros [k w] Hin. cbn [fst snd]. rewrite IH; [reflexivity|].
    apply Hall. simpl. apply list_elem_of_fmap. exists (k, w).
    split; [reflexivity | now apply own_entries_elem].
  - intros [w|] Hin; simpl; [|destruct fuel; reflexivity].
    apply IH, Hall. simpl. apply elem_of_app. left.
    apply list_elem_of_omap. now exists (Some w).
Qed.

(** The loop leaves alone every container that is neither the one it
    starts on nor at or under one of the values that one holds. *)
Lemma assign_above segs h lo l x h' l' :
  segs <> [] ->
  otree h lo (VRef l) ->
  assign h (VRef l) segs x = Ok h' ->
  l' < length h -> l' <> l ->
  (forall o (lc : loc), h !! l = Some o -> VRef lc ∈ children o -> lc < l') ->
  h' !! l' = h !! l'.
Proof.
  intros Hne Htree Hassign Hlt' Hneq Hchildren.
  destruct segs as [|seg [|next rest]]; [congruence | |].
  - rewrite assign_last in Hassign.
    now apply (prop_set_other _ _ _ _ _ _ Hassign).
  - rewrite assign_step in Hassign.
    destruct (prop_get h (VRef l) (key_of seg)) as [c| |] eqn:Hget;
      cbn [bind new_container new_object] in Hassign; [|discriminate..].
    destruct c as [| | | | |l1];
      try (cbn [bind] in Hassign; rewrite Hget in Hassign; cbn [bind] in Hassign;
           apply assign_primitive in Hassign as [-> _];
           [reflexivity | discriminate | reflexivity]).
    + set (fresh := empty_for next) in *.
      destruct (prop_set (h ++ [fresh]) (VRef l) (key_of seg) (VRef (length h)))
        as [h1| |] eqn:Hset; cbn [bind new_container new_object] in Hassign;
        [|discriminate..].
      rewrite (prop_get_after_set _ _ _ _ _ Hset) in Hassign by now right.
      cbn [bind] in Hassign.
      pose proof (prop_set_length _ _ _ _ _ Hset) as Hlen1.
      rewrite length_app in Hlen1. simpl in Hlen1.
      assert (h1 !! length h = Some fresh) as Hfresh.
      { rewrite (prop_set_other _ _ _ _ _ _ Hset)
          by (apply otree_lookup in Htree; lia).
        rewrite lookup_app_r by lia. now rewrite Nat.sub_diag. }
      assert (otree h1 (length h) (VRef (length h))) as Htree1.
      { eapply ot_ref; [exact Hfresh | lia |].
        unfold fresh, empty_for. destruct (is_number next); constructor. }
      destruct (assign_spec (next :: rest) h1 (length h) (length h) x h'
                  ltac:(discriminate) Htree1 Hassign) as (_ & Hframe & _).
      rewrite Hframe by lia.
      rewrite (prop_set_other _ _ _ _ _ _ Hset) by exact Hneq.
      now apply lookup_app_l.
    + cbn [bind] in Hassign. rewrite Hget in Hassign. cbn [bind] in Hassign.
      destruct (prop_get_child _ _ _ _ _ Htree Hget) as [Hl1 Htree1].
      apply prop_get_defined in Hget; [|discriminate].
      apply own_prop_child in Hget as (o & Hl & Hin).
      specialize (Hchildren _ _ Hl Hin).
      destruct (assign_spec (next :: rest) h lo l1 x h'
                  ltac:(discriminate) Htree1 Hassign) as (_ & Hframe & _).
      apply Hframe; lia.
Qed.


Lemma alloc_items_length (items : list tree) h vs h1 :
  alloc_items items h = (vs, h1) -> length vs = length items.
Proof.
  revert h vs h1. induction items as [|t ts IH]; intros h vs h1.
  - now intros [= <- <-].
  - cbn [alloc_items]. destruct (alloc t h) as [w h2].
    destruct (alloc_items ts h2) as [ws h3] eqn:Hws.
    intros [= <- <-]. simpl. f_equal. eapply IH, Hws.
Qed.

(** X5: With a path of one segment or more, what [setValueAtPath] returns
    is a container made by the call: an array when the document is an
    array, an object otherwise (also for a document that is a text, a
    number, a boolean or [null]). *)
Theorem write_result_kind (d : tree) (h0 : heap) (seg : segment)
  (rest : JSONPath) (x D' : value) (h' : heap) :
  setValueAtPath (alloc d h0).2 (alloc d h0).1 (Some (seg :: rest)) x
  = Ok (D', h') ->
  D' = VRef (length (alloc d h0).2)
  /\ isArray h' D' = isArray (alloc d h0).2 (alloc d h0).1.
Proof.
  destruct (alloc d h0) as [D h] eqn:Halloc. cbn [fst snd].
  apply alloc_otree in Halloc as [_ Htree].
  rewrite setValueAtPath_loop.
  destruct (if isArray h D then spread_array h D else spread_object h D)
    as [[clone h1]| |] eqn:Hspread; cbn [bind]; [|discriminate..].
  destruct (assign h1 clone (seg :: rest) x) as [h2| |] eqn:Hassign;
    cbn [bind]; [|discriminate..].
  intros [= <- <-].
  pose proof (spread_kind _ _ _ _ Hspread) as Hkind.
  pose proof (spread_otree _ _ _ _ _ Htree Hspread) as Hclone.
  apply spread_clone in Hspread as (copy & -> & -> & _).
  split; [reflexivity|].
  destruct (assign_spec (seg :: rest) _ 0 _ _ _ ltac:(discriminate) Hclone Hassign)
    as (_ & _ & Hkinds & _).
  rewrite <- Hkind. unfold isArray.
  destruct (Hkinds (length h) copy) as (o' & -> & Hk).
  { rewrite lookup_app_r by lia. now rewrite Nat.sub_diag. }
  rewrite lookup_app_r, Nat.sub_diag by lia. cbn [lookup list_lookup].
  destruct o', copy; simpl in Hk; congruence.
Qed.

(** X6: The top level of the input is left as it was: each of its keys
    resolves, in the input, to the value it resolved to before the
    call; and a write along a path of one segment leaves the whole
    input as it was. *)
Theorem write_keeps_top_level (d : tree) (h0 : heap) (p : option JSONPath)
  (x D' : value) (h' : heap) :
  setValueAtPath (alloc d h0).2 (alloc d h0).1 p x = Ok (D', h') ->
  (forall other : segment,
      getValueAtPath h' (alloc d h0).1 (Some [other])
      = getValueAtPath (alloc d h0).2 (alloc d h0).1 (Some [other]))
  /\ (length (default [] p) <= 1 ->
      deep_equal h' (alloc d h0).1 (alloc d h0).2 (alloc d h0).1).
Proof.
  destruct (alloc d h0) as [D h] eqn:Halloc. cbn [fst snd].
  apply alloc_otree in Halloc as [_ Htree].
  intros Hwrite.
  destruct p as [[|seg rest]|];
    try (injection Hwrite as <- <-; split; [reflexivity | intros _ fuel; reflexivity]).
  rewrite setValueAtPath_loop in Hwrite.
  destruct (if isArray h D then spread_array h D else spread_object h D)
    as [[clone h1]| |] eqn:Hspread; cbn [bind] in Hwrite; [|discriminate..].
  destruct (assign h1 clone (seg :: rest) x) as [h2| |] eqn:Hassign;
    cbn [bind] in Hwrite; [|discriminate..].
  injection Hwrite as <- <-.
  pose proof (spread_otree _ _ _ _ _ Htree Hspread) as Hclone.
  apply spread_clone in Hspread as (copy & -> & -> & Hcopy).
  split.
  - intros other. rewrite !getValueAtPath_walk. cbn [walk].
    rewrite (prop_get_agree h h2); [reflexivity|].
    intros l ->. pose proof (otree_lookup _ _ _ Htree) as [_ Hlt].
    rewrite (assign_above (seg :: rest) _ _ _ _ _ l ltac:(discriminate) Hclone Hassign).
    + now apply lookup_app_l.
    + rewrite length_app. simpl. lia.
    + lia.
    + intros o lc Hl Hin.
      rewrite lookup_app_r, Nat.sub_diag in Hl by lia. injection Hl as <-.
      destruct (Hcopy _ Hin) as [Hprim | (l0 & o & [= <-] & Hl0 & Hin0)];
        [discriminate|].
      inversion Htree as [| | | | |? o' Hl' _ Hall]; subst.
      rewrite Hl0 in Hl'. injection Hl' as <-.
      rewrite Forall_forall in Hall. exact (proj1 (Hall _ Hin0)).
  - intros Hshort fuel. destruct rest as [|next rest]; [|simpl in Hshort; lia].
    rewrite assign_last in Hassign.
    eapply snapshot_agree; [|exact Htree]. intros l Hl.
    rewrite (prop_set_other _ _ _ _ _ _ Hassign) by lia.
    now apply lookup_app_l.
Qed.

(** X10: Writing at a position at or past the end of an array returns, and
    gives an array that ends at that position: its length is the
    position plus one, the position holds the value, and the positions
    between the old end and it are holes, which read as [undefined]. *)
Theorem write_past_end (items : list tree) (h0 : heap) (i : N) (x : value) :
  length items <= N.to_nat i ->
  (i < max_index)%N ->
  exists D' h',
    setValueAtPath (alloc (TArr items) h0).2 (alloc (TArr items) h0).1
      (Some [Index i]) x = Ok (D', h')
    /\ getValueAtPath h' D' (Some [Key "length"]) = Ok (VNum (Z.of_N i + 1))
    /\ getValueAtPath h' D' (Some [Index i]) = Ok x
    /\ forall j : N,
         length items <= N.to_nat j -> (j < i)%N ->
         inherited KArray (dec j) = false ->
         getValueAtPath h' D' (Some [Index j]) = Ok VUndefined.
Proof.
  intros Hpast Hindex. rewrite alloc_array.
  destruct (alloc_items items h0) as [vs h] eqn:Hitems.
  apply alloc_items_length in Hitems.
  unfold new_object. cbn [fst snd].
  rewrite setValueAtPath_loop. unfold isArray, spread_array, new_object.
  rewrite lookup_app_r, Nat.sub_diag by lia. cbn [lookup list_lookup bind].
  rewrite assign_last. unfold prop_set. cbn [key_of].
  rewrite lookup_app_r, Nat.sub_diag by lia. cbn [lookup list_lookup].
  rewrite dec_not_length, (array_index_dec _ Hindex). cbn [bind].
  eexists _, _. split; [reflexivity|].
  set (elems := map (fun e => Some (default VUndefined e)) vs).
  assert (length elems = length items) as Hlen
      by (unfold elems; now rewrite length_map).
  rewrite !getValueAtPath_walk. cbn [walk key_of].
  unfold prop_get, own_prop.
  rewrite list_lookup_insert_eq by (rewrite !length_app; simpl; lia).
  split; [|split].
  - cbn [String.eqb Ascii.eqb Bool.eqb bind]. simpl String.eqb. cbn [bind].
    do 2 f_equal. unfold set_elem.
    rewrite decide_False by lia.
    rewrite !length_app, length_replicate. simpl. lia.
  - rewrite dec_not_length, (array_index_dec _ Hindex), set_elem_lookup.
    reflexivity.
  - intros j Hj Hji Hproto.
    rewrite getValueAtPath_walk. cbn [walk key_of]. unfold prop_get, own_prop.
    rewrite list_lookup_insert_eq by (rewrite !length_app; simpl; lia).
    rewrite dec_not_length, array_index_dec
      by (unfold max_index in *; lia).
    unfold set_elem. rewrite decide_False by lia.
    rewrite lookup_app_r by lia.
    rewrite lookup_app_l by (rewrite length_replicate; lia).
    rewrite lookup_replicate_2 by lia. cbn [mjoin option_join].
    unfold kind_of.
    rewrite list_lookup_insert_eq by (rewrite !length_app; simpl; lia).
    unfold from_prototype. now rewrite Hproto.
Qed.
End WriteFacts.

(** Writing into a document that is a text gives an object. *)
Lemma write_result_kind_example :
  match @setValueAtPath example_engine (alloc (TStr "abc") []).2
          (alloc (TStr "abc") []).1 (Some [Index 0]) (VStr "x") with
  | Ok (D', h') =>
      D' = VRef (length (alloc (TStr "abc") []).2)
      /\ isArray h' D' = isArray (alloc (TStr "abc") []).2 (alloc (TStr "abc") []).1
  | _ => False
  end.
Proof.
  exact (@write_result_kind example_engine (TStr "abc") [] (Index 0) []
           (VStr "x") _ _ eq_refl).
Defined.

Lemma write_keeps_top_level_example :
  match @setValueAtPath example_engine
          (alloc (TObj [("a", TObj [("b", TNum 1)])]) []).2
          (alloc (TObj [("a", TObj [("b", TNum 1)])]) []).1
          (Some [Key "a"]) (VNum 2) with
  | Ok (D', h') =>
      (forall other : segment,
          @getValueAtPath example_engine h'
            (alloc (TObj [("a", TObj [("b", TNum 1)])]) []).1 (Some [other])
          = @getValueAtPath example_engine
              (alloc (TObj [("a", TObj [("b", TNum 1)])]) []).2
              (alloc (TObj [("a", TObj [("b", TNum 1)])]) []).1 (Some [other]))
      /\ deep_equal h' (alloc (TObj [("a", TObj [("b", TNum 1)])]) []).1
           (alloc (TObj [("a", TObj [("b", TNum 1)])]) []).2
           (alloc (TObj [("a", TObj [("b", TNum 1)])]) []).1
  | _ => False
  end.
Proof.
  pose proof (@write_keeps_top_level example_engine
                (TObj [("a", TObj [("b", TNum 1)])]) []
                (Some [Key "a"]) (VNum 2) _ _ eq_refl) as [Hkeys Hequal].
  split; [exact Hkeys | apply Hequal; simpl; lia].
Defined.

(** Writing 7 at position 3 of [[10]]. *)
Lemma write_past_end_example :
  exists D' h',
    @setValueAtPath example_engine (alloc (TArr [TNum 10]) []).2
      (alloc (TArr [TNum 10]) []).1 (Some [Index 3]) (VNum 7) = Ok (D', h')
    /\ @getValueAtPath example_engine h' D' (Some [Key "length"]) = Ok (VNum 4)
    /\ @getValueAtPath example_engine h' D' (Some [Index 3]) = Ok (VNum 7)
    /\ forall j : N,
         1 <= N.to_nat j -> (j < 3)%N ->
         @inherited example_engine KArray (dec j) = false ->
         @getValueAtPath example_engine h' D' (Some [Index j]) = Ok VUndefined.
Proof.
  apply (@write_past_end example_engine [TNum 10] [] 3 (VNum 7));
    [simpl; lia | reflexivity].
Defined.

(** ** Every missing step *)

Section CreateAllFacts.
Context `{Builtins}.
Implicit Types (h : heap) (l lo : loc) (v x c : value) (key : string)
  (segs rest pre : JSONPath).











End CreateAllFacts.

(** ** Where a write fails, and what it can touch *)

Section LocalFacts.
Context `{Builtins}.
Implicit Types (h : heap) (l lo : loc) (v x c : value) (key : string)
  (segs rest pre suf : JSONPath).

(** The loop throws when the walk finds [null] before the last
    segment: only [undefined] is filled in. *)
Lemma assign_through_null pre suf h v x :
  pre <> [] -> suf <> [] -> walk h v pre = Ok VNull ->
  assign h v (pre ++ suf) x = Throw TypeError.
Proof.
  revert v. induction pre as [|seg pre IH]; intros v Hpre Hsuf Hwalk;
    [congruence|].
  assert (exists c, prop_get h v (key_of seg) = Ok c /\ walk h c pre = Ok VNull
                    /\ c <> VUndefined)
    as (c & Hget & Hrest & Hc).
  { cbn [walk] in Hwalk.
    destruct v; try discriminate;
      (destruct (prop_get h _ (key_of seg)) as [c| |]; cbn [bind] in Hwalk;
       [|discriminate..]; exists c; split; [reflexivity|]; split; [exact Hwalk|];
       intros ->; rewrite walk_from_undefined in Hwalk; discriminate). }
  change ((seg :: pre) ++ suf) with (seg :: (pre ++ suf)).
  assert (assign h c (pre ++ suf) x = Throw TypeError) as Hthrow.
  { destruct pre as [|seg' pre'].
    - injection Hrest as ->. destruct suf as [|s1 [|s2 suf']];
        [congruence | reflexivity | reflexivity].
    - apply IH; [discriminate | exact Hsuf | exact Hrest]. }
  clear IH. destruct (pre ++ suf) as [|next rest] eqn:Happ.
  { apply app_eq_nil in Happ as [_ ->]. congruence. }
  rewrite assign_step, Hget. cbn [bind].
  destruct c; try congruence; cbn [bind]; rewrite Hget; exact Hthrow.
Qed.

Lemma prop_get_primitive_null h v key c :
  is_ref v = false -> prop_get h v key = Ok c -> c <> VNull.
Proof.
  unfold prop_get, own_prop, kind_of, from_prototype.
  destruct v as [| | | |s|l]; try discriminate; intros _.
  - destruct (inherited KBoolean key); [discriminate | now intros [= <-]].
  - destruct (inherited KNumber key); [discriminate | now intros [= <-]].
  - destruct (String.eqb key "length"); [now intros [= <-]|].
    destruct (array_index key) as [i|].
    + destruct (char_at s i); simpl; [now intros [= <-]|].
      destruct (inherited KString key); [discriminate | now intros [= <-]].
    + destruct (inherited KString key); [discriminate | now intros [= <-]].
Qed.

Lemma walk_primitive_null segs h v :
  is_ref v = false -> segs <> [] -> walk h v segs <> Ok VNull.
Proof.
  revert v. induction segs as [|seg rest IH]; intros v Hv Hne; [congruence|].
  cbn [walk]. destruct v; try discriminate;
    (destruct (prop_get h _ (key_of seg)) as [c| |] eqn:Hget; cbn [bind];
     [|discriminate..];
     pose proof (prop_get_from_primitive _ _ _ _ Hv Hget) as Hc;
     pose proof (prop_get_primitive_null _ _ _ _ Hv Hget) as Hnull;
     destruct rest as [|next rest];
     [cbn [walk]; congruence | apply IH; [exact Hc | discriminate]]).
Qed.

(** New objects do not change what the walk finds from an ordered
    value. *)
Lemma walk_same_store segs h ext lo v :
  otree h lo v -> walk (h ++ ext) v segs = walk h v segs.
Proof.
  revert v. induction segs as [|seg rest IH]; intros v Htree; [reflexivity|].
  cbn [walk].
  assert (prop_get (h ++ ext) v (key_of seg) = prop_get h v (key_of seg)) as ->.
  { apply prop_get_agree. intros l ->. apply lookup_app_l.
    now apply otree_lookup in Htree. }
  destruct v; try reflexivity;
    (destruct (prop_get h _ (key_of seg)) as [c| |] eqn:Hget; cbn [bind];
     [|reflexivity..]; apply IH).
  1-3: apply otree_primitive; eapply prop_get_from_primitive; [|exact Hget];
    reflexivity.
  destruct c as [| | | | |l1]; try constructor.
  eapply prop_get_child; [exact Htree | exact Hget].
Qed.

(** What the walk finds from a container of an ordered store is under
    it. *)
Lemma walk_otree segs h lo l lt :
  otree h lo (VRef l) -> walk h (VRef l) segs = Ok (VRef lt) ->
  lt <= l /\ otree h lo (VRef lt).
Proof.
  revert l. induction segs as [|seg rest IH]; intros l Htree.
  - intros [= <-]. split; [lia | exact Htree].
  - rewrite walk_step.
    destruct (prop_get h (VRef l) (key_of seg)) as [c| |] eqn:Hget; cbn [bind];
      [|discriminate..].
    destruct c as [| | | | |l1];
      try (intros Hwalk; apply walk_from_primitive in Hwalk; [discriminate | reflexivity]).
    destruct (prop_get_child _ _ _ _ _ Htree Hget) as [Hl1 Htree1].
    intros Hwalk. destruct (IH _ Htree1 Hwalk) as [Hle Htreet].
    split; [lia | exact Htreet].
Qed.

(** Of the containers of the store, the loop changes one: the one the
    walk reaches along the segments before the one it assigns or fills
    in. *)
Lemma assign_touches_one segs h lo l x h' :
  segs <> [] ->
  otree h lo (VRef l) ->
  assign h (VRef l) segs x = Ok h' ->
  exists pre suf lt,
    segs = pre ++ suf /\ suf <> []
    /\ walk h (VRef l) pre = Ok (VRef lt)
    /\ forall l', l' < length h -> l' <> lt -> h' !! l' = h !! l'.
Proof.
  revert l. induction segs as [|seg rest IH]; intros l Hne Htree Hassign;
    [congruence|].
  pose proof (otree_lookup _ _ _ Htree) as [Hlo Hlt].
  destruct rest as [|next rest].
  - rewrite assign_last in Hassign.
    exists [], [seg], l. split; [reflexivity|]. split; [discriminate|].
    split; [reflexivity|].
    intros l' _ Hneq. now apply (prop_set_other _ _ _ _ _ _ Hassign).
  - rewrite assign_step in Hassign.
    destruct (prop_get h (VRef l) (key_of seg)) as [c| |] eqn:Hget;
      cbn [bind new_container new_object] in Hassign; [|discriminate..].
    destruct c as [| | | | |l1];
      try (cbn [bind] in Hassign; rewrite Hget in Hassign; cbn [bind] in Hassign;
           apply assign_primitive in Hassign as [-> _];
           [|discriminate|reflexivity];
           exists [], (seg :: next :: rest), l;
           split; [reflexivity|]; split; [discriminate|];
           split; reflexivity).
    + set (fresh := empty_for next) in *.
      destruct (prop_set (h ++ [fresh]) (VRef l) (key_of seg) (VRef (length h)))
        as [h1| |] eqn:Hset; cbn [bind new_container new_object] in Hassign;
        [|discriminate..].
      rewrite (prop_get_after_set _ _ _ _ _ Hset) in Hassign by now right.
      cbn [bind] in Hassign.
      pose proof (prop_set_length _ _ _ _ _ Hset) as Hlen1.
      rewrite length_app in Hlen1. simpl in Hlen1.
      assert (h1 !! length h = Some fresh) as Hfresh.
      { rewrite (prop_set_other _ _ _ _ _ _ Hset) by lia.
        rewrite lookup_app_r by lia. now rewrite Nat.sub_diag. }
      assert (otree h1 (length h) (VRef (length h))) as Htree1.
      { eapply ot_ref; [exact Hfresh | lia |].
        unfold fresh, empty_for. destruct (is_number next); constructor. }
      destruct (assign_spec (next :: rest) h1 (length h) (length h) x h'
                  ltac:(discriminate) Htree1 Hassign) as (_ & Hframe & _).
      exists [], (seg :: next :: rest), l.
      split; [reflexivity|]. split; [discriminate|]. split; [reflexivity|].
      intros l' Hl' Hneq. rewrite Hframe by lia.
      rewrite (prop_set_other _ _ _ _ _ _ Hset) by exact Hneq.
      now apply lookup_app_l.
    + cbn [bind] in Hassign. rewrite Hget in Hassign. cbn [bind] in Hassign.
      destruct (prop_get_child _ _ _ _ _ Htree Hget) as [Hl1 Htree1].
      destruct (IH l1 ltac:(discriminate) Htree1 Hassign)
        as (pre & suf & lt & Hsegs & Hsuf & Hwalk & Hframe).
      exists (seg :: pre), suf, lt.
      split; [simpl; now rewrite Hsegs|]. split; [exact Hsuf|].
      split; [|exact Hframe].
      rewrite walk_step, Hget. exact Hwalk.
Qed.

Lemma setValueAtPath_through_null d h0 D h pre suf x :
  alloc d h0 = (D, h) ->
  pre <> [] -> suf <> [] ->
  walk h D pre = Ok VNull ->
  setValueAtPath h D (Some (pre ++ suf)) x = Throw TypeError.
Proof.
  intros Halloc Hpre Hsuf Hread.
  pose proof (alloc_otree _ _ _ _ Halloc) as [_ Htree].
  destruct (is_ref D) eqn:Href.
  - destruct D as [| | | | |l]; try discriminate.
    destruct pre as [|seg pre]; [congruence|].
    change ((seg :: pre) ++ suf) with (seg :: (pre ++ suf)).
    rewrite setValueAtPath_loop.
    destruct (spread_returns _ _ _ Htree) as (clone & h1 & Hspread).
    rewrite Hspread. cbn [bind].
    pose proof (alloc_clone_get _ _ _ _ _ _ (key_of seg) Halloc Href Hspread)
      as Hsame.
    apply spread_clone in Hspread as (copy & -> & -> & _).
    change (seg :: (pre ++ suf)) with ((seg :: pre) ++ suf).
    rewrite assign_through_null; [reflexivity | discriminate | exact Hsuf |].
    rewrite walk_step, Hsame. rewrite walk_step in Hread.
    destruct (prop_get h (VRef l) (key_of seg)) as [c| |];
      cbn [bind] in *; [|discriminate..].
    now apply walk_app_store.
  - exfalso. revert Hread. now apply walk_primitive_null.
Qed.

(** X9: A write whose path goes through [null] throws a [TypeError]:
    when a proper prefix of the path resolves to [null] in the
    document, nothing is returned. *)
Theorem write_through_null (d : tree) (h0 : heap) (pre suf : JSONPath)
  (x : value) :
  pre <> [] -> suf <> [] ->
  getValueAtPath (alloc d h0).2 (alloc d h0).1 (Some pre) = Ok VNull ->
  setValueAtPath (alloc d h0).2 (alloc d h0).1 (Some (pre ++ suf)) x
  = Throw TypeError.
Proof.
  destruct (alloc d h0) as [D h] eqn:Halloc. cbn [fst snd].
  intros Hpre Hsuf Hread. rewrite getValueAtPath_walk in Hread.
  eapply setValueAtPath_through_null; eassumption.
Qed.

Lemma setValueAtPath_touches d h0 D h seg rest x D' h' :
  alloc d h0 = (D, h) ->
  setValueAtPath h D (Some (seg :: rest)) x = Ok (D', h') ->
  (forall l, l < length h -> h' !! l = h !! l)
  \/ exists pre suf lt,
       rest = pre ++ suf /\ suf <> []
       /\ walk h D (seg :: pre) = Ok (VRef lt)
       /\ lt < length h
       /\ forall l, l < length h -> l <> lt -> h' !! l = h !! l.
Proof.
  intros Halloc Hwrite.
  pose proof (alloc_otree _ _ _ _ Halloc) as [_ Htree].
  rewrite setValueAtPath_loop in Hwrite.
  destruct (if isArray h D then spread_array h D else spread_object h D)
    as [[clone h1]| |] eqn:Hspread; cbn [bind] in Hwrite; [|discriminate..].
  destruct (assign h1 clone (seg :: rest) x) as [h2| |] eqn:Hassign;
    cbn [bind] in Hwrite; [|discriminate..].
  injection Hwrite as <- <-.
  pose proof (spread_otree _ _ _ _ _ Htree Hspread) as Hclone.
  pose proof (fun Href key =>
                alloc_clone_get _ _ _ _ _ _ key Halloc Href Hspread) as Hsame.
  apply spread_clone in Hspread as (copy & -> & -> & Hcopy).
  destruct (assign_touches_one (seg :: rest) _ _ _ _ _
              ltac:(discriminate) Hclone Hassign)
    as (pre & suf & lt & Hsegs & Hsuf & Hwalk & Hframe).
  assert (forall l, l < length h -> l <> lt -> h2 !! l = h !! l) as Hold.
  { intros l Hl Hneq. rewrite Hframe; [now apply lookup_app_l | | exact Hneq].
    rewrite length_app. simpl. lia. }
  destruct (decide (lt = length h)) as [->|Hlt].
  { left. intros l Hl. apply Hold; lia. }
  destruct pre as [|seg' pre]; [injection Hwalk as <-; congruence|].
  injection Hsegs as <- ->.
  right. exists pre, suf, lt.
  split; [reflexivity|]. split; [exact Hsuf|].
  assert (lt < length h) as Hin.
  { apply (walk_otree _ _ _ _ _ Hclone) in Hwalk as [Hle _]. lia. }
  split; [|split; [exact Hin | exact Hold]].
  rewrite walk_step in Hwalk.
  destruct (prop_get (h ++ [copy]) (VRef (length h)) (key_of seg))
    as [c| |] eqn:Hget; cbn [bind] in Hwalk; [|discriminate..].
  destruct (is_ref D) eqn:Href.
  - destruct D as [| | | | |l]; try discriminate.
    rewrite (Hsame eq_refl) in Hget. rewrite walk_step, Hget. cbn [bind].
    rewrite <- Hwalk. symmetry. apply (walk_same_store _ _ _ (length h0)).
    destruct c as [| | | | |l1]; try constructor.
    eapply prop_get_child; [exact Htree | exact Hget].
  - exfalso.
    assert (is_ref c = false) as Hc.
    { destruct c as [| | | | |l1]; try reflexivity.
      apply prop_get_defined in Hget; [|discriminate].
      apply own_prop_child in Hget as (o & Hl & Hin').
      rewrite lookup_app_r, Nat.sub_diag in Hl by lia. injection Hl as <-.
      destruct (Hcopy _ Hin') as [Hprim | (l0 & o & -> & _)]; discriminate. }
    apply walk_from_primitive in Hwalk; [discriminate | exact Hc].
Qed.

(** X8: Of the containers that were there before the call,
    [setValueAtPath] changes at most one, and that one is found in the
    document along a part of the path that is neither empty nor the
    whole of it: every other container, of the document or not, is as
    it was. *)
Theorem write_changes_one_container (d : tree) (h0 : heap)
  (p : option JSONPath) (x D' : value) (h' : heap) :
  setValueAtPath (alloc d h0).2 (alloc d h0).1 p x = Ok (D', h') ->
  (forall l, l < length (alloc d h0).2 -> h' !! l = (alloc d h0).2 !! l)
  \/ exists pre suf lt,
       p = Some (pre ++ suf) /\ pre <> [] /\ suf <> []
       /\ getValueAtPath (alloc d h0).2 (alloc d h0).1 (Some pre) = Ok (VRef lt)
       /\ forall l, l < length (alloc d h0).2 -> l <> lt ->
                    h' !! l = (alloc d h0).2 !! l.
Proof.
  destruct (alloc d h0) as [D h] eqn:Halloc. cbn [fst snd].
  intros Hwrite.
  destruct p as [[|seg rest]|]; try (injection Hwrite as <- <-; now left).
  destruct (setValueAtPath_touches _ _ _ _ _ _ _ _ _ Halloc Hwrite)
    as [Hall | (pre & suf & lt & -> & Hsuf & Hwalk & _ & Hold)]; [now left|].
  right. exists (seg :: pre), suf, lt.
  split; [reflexivity|]. split; [discriminate|]. split; [exact Hsuf|].
  split; [|exact Hold]. now rewrite getValueAtPath_walk.
Qed.
End LocalFacts.

Lemma write_through_null_example :
  @setValueAtPath example_engine (alloc (TObj [("a", TNull)]) []).2
    (alloc (TObj [("a", TNull)]) []).1 (Some [Key "a"; Key "b"]) (VNum 1)
  = Throw TypeError.
Proof.
  refine (@write_through_null example_engine (TObj [("a", TNull)]) []
            [Key "a"] [Key "b"] (VNum 1) _ _ eq_refl); discriminate.
Defined.

(** Writing 2 at [a.b] where 1 is: the object under [a] is the one
    container of the input that changes. *)
Lemma write_changes_one_container_example :
  match @setValueAtPath example_engine
          (alloc (TObj [("a", TObj [("b", TNum 1)])]) []).2
          (alloc (TObj [("a", TObj [("b", TNum 1)])]) []).1
          (Some [Key "a"; Key "b"]) (VNum 2) with
  | Ok (D', h') =>
      (forall l, l < length (alloc (TObj [("a", TObj [("b", TNum 1)])]) []).2 ->
                 h' !! l = (alloc (TObj [("a", TObj [("b", TNum 1)])]) []).2 !! l)
      \/ exists pre suf lt,
           Some [Key "a"; Key "b"] = Some (pre ++ suf) /\ pre <> [] /\ suf <> []
           /\ @getValueAtPath example_engine
                (alloc (TObj [("a", TObj [("b", TNum 1)])]) []).2
                (alloc (TObj [("a", TObj [("b", TNum 1)])]) []).1 (Some pre)
              = Ok (VRef lt)
           /\ forall l,
                l < length (alloc (TObj [("a", TObj [("b", TNum 1)])]) []).2 ->
                l <> lt ->
                h' !! l = (alloc (TObj [("a", TObj [("b", TNum 1)])]) []).2 !! l
  | _ => False
  end.
Proof.
  exact (@write_changes_one_container example_engine
           (TObj [("a", TObj [("b", TNum 1)])]) []
           (Some [Key "a"; Key "b"]) (VNum 2) _ _ eq_refl).
Defined.

(** ** The other members of the document *)

Section SiblingFacts.
Context `{Builtins}.
Implicit Types (h : heap) (l lo : loc) (v x c : value) (key : string)
  (segs rest pre suf : JSONPath).

(** A store that agrees with another between two bounds gives an
    ordered value that lies between them the same shape. *)
Lemma snapshot_agree_range fuel h h' lo hi v :
  (forall l, lo <= l -> l < hi -> h' !! l = h !! l) ->
  otree h lo v -> below hi v -> snapshot fuel h' v = snapshot fuel h v.
Proof.
  intros Hagree. revert v. induction fuel as [|fuel IH]; intros v Htree Hbelow;
    [destruct v; reflexivity|].
  inversion Htree as [| | | | |l o Hl Hlo Hall]; subst; try reflexivity.
  cbn [snapshot]. simpl in Hbelow. rewrite Hagree by lia.
  rewrite Hl. rewrite Forall_forall in Hall.
  assert (forall w, w ∈ children o -> snapshot fuel h' w = snapshot fuel h w)
    as Hchild.
  { intros w Hin. destruct (Hall _ Hin) as [Hb Ht]. apply IH; [exact Ht|].
    destruct w; simpl in *; try exact I. lia. }
  destruct o as [fields|elems extra]; f_equal; apply mapM_agree, Forall_forall.
  - intros [k w] Hin. cbn [fst snd]. rewrite Hchild; [reflexivity|].
    simpl. apply list_elem_of_fmap. exists (k, w).
    split; [reflexivity | now apply own_entries_elem].
  - intros [w|] Hin; simpl; [|destruct fuel; reflexivity].
    apply Hchild. simpl. apply elem_of_app. left.
    apply list_elem_of_omap. now exists (Some w).
Qed.

Lemma alloc_items_otree (items : list tree) h vs h1 :
  alloc_items items h = (vs, h1) ->
  (exists ext, h1 = h ++ ext)
  /\ Forall (fun e => exists w, e = Some w /\ otree h1 (length h) w) vs.
Proof.
  revert h vs h1. induction items as [|t ts IH]; intros h vs h1 Hitems.
  - injection Hitems as <- <-. split; [exists []; now rewrite app_nil_r|].
    constructor.
  - cbn [alloc_items] in Hitems.
    destruct (alloc t h) as [w h2] eqn:Hw.
    destruct (alloc_items ts h2) as [ws h3] eqn:Hws.
    injection Hitems as <- <-.
    destruct (alloc_otree _ _ _ _ Hw) as [[e2 ->] Htree].
    destruct (IH _ _ _ Hws) as [[e3 ->] Hall].
    split; [exists (e2 ++ e3); now rewrite app_assoc|].
    constructor.
    + exists w. split; [reflexivity|]. eapply otree_app; [exact Htree | lia].
    + eapply Forall_impl; [exact Hall|].
      intros e (w' & -> & Hw'). exists w'. split; [reflexivity|].
      eapply otree_agree; [intros; eassumption | | exact Hw'].
      rewrite length_app. lia.
Qed.

Lemma alloc_members_otree (members : props tree) h ps h1 :
  alloc_members members h = (ps, h1) ->
  (exists ext, h1 = h ++ ext)
  /\ Forall (fun kv => otree h1 (length h) kv.2) ps.
Proof.
  revert h ps h1. induction members as [|[k t] ms IH]; intros h ps h1 Hmembers.
  - injection Hmembers as <- <-. split; [exists []; now rewrite app_nil_r|].
    constructor.
  - cbn [alloc_members] in Hmembers.
    destruct (alloc t h) as [w h2] eqn:Hw.
    destruct (alloc_members ms h2) as [ws h3] eqn:Hws.
    injection Hmembers as <- <-.
    destruct (alloc_otree _ _ _ _ Hw) as [[e2 ->] Htree].
    destruct (IH _ _ _ Hws) as [[e3 ->] Hall].
    split; [exists (e2 ++ e3); now rewrite app_assoc|].
    constructor.
    + eapply otree_app; [exact Htree | lia].
    + eapply Forall_impl; [exact Hall|].
      intros kv Hkv.
      eapply otree_agree; [intros; eassumption | | exact Hkv].
      rewrite length_app. lia.
Qed.

(** The items of an array are made one after the other: a later one
    lies wholly above an earlier one. *)
Lemma alloc_items_separated (items : list tree) h vs h1 (i j : nat) vi vj :
  alloc_items items h = (vs, h1) -> i < j ->
  vs !! i = Some (Some vi) -> vs !! j = Some (Some vj) ->
  exists mid, below mid vi /\ otree h1 mid vj.
Proof.
  revert h vs h1 i j. induction items as [|t ts IH];
    intros h vs h1 i j Hitems Hij Hi Hj.
  - injection Hitems as <- <-. discriminate.
  - cbn [alloc_items] in Hitems.
    destruct (alloc t h) as [w h2] eqn:Hw.
    destruct (alloc_items ts h2) as [ws h3] eqn:Hws.
    injection Hitems as <- <-.
    destruct j as [|j]; [lia|]. destruct i as [|i]; simpl in Hi, Hj.
    + injection Hi as ->. exists (length h2). split.
      * apply alloc_otree in Hw as [_ Hw]. eapply otree_below, Hw.
      * apply alloc_items_otree in Hws as [_ Hall].
        rewrite Forall_forall in Hall.
        destruct (Hall _ (list_elem_of_lookup_2 _ _ _ Hj)) as (w' & [= <-] & Hw').
        exact Hw'.
    + eapply IH; [exact Hws | | exact Hi | exact Hj]. lia.
Qed.

Lemma alloc_members_separated (members : props tree) h ps h1 (i j : nat)
  ki vi kj vj :
  alloc_members members h = (ps, h1) -> i < j ->
  ps !! i = Some (ki, vi) -> ps !! j = Some (kj, vj) ->
  exists mid, below mid vi /\ otree h1 mid vj.
Proof.
  revert h ps h1 i j. induction members as [|[k t] ms IH];
    intros h ps h1 i j Hmembers Hij Hi Hj.
  - injection Hmembers as <- <-. discriminate.
  - cbn [alloc_members] in Hmembers.
    destruct (alloc t h) as [w h2] eqn:Hw.
    destruct (alloc_members ms h2) as [ws h3] eqn:Hws.
    injection Hmembers as <- <-.
    destruct j as [|j]; [lia|]. destruct i as [|i]; simpl in Hi, Hj.
    + injection Hi as -> ->. exists (length h2). split.
      * apply alloc_otree in Hw as [_ Hw]. eapply otree_below, Hw.
      * apply alloc_members_otree in Hws as [_ Hall].
        rewrite Forall_forall in Hall.
        exact (Hall _ (list_elem_of_lookup_2 _ _ _ Hj)).
    + eapply IH; [exact Hws | | exact Hi | exact Hj]. lia.
Qed.


End SiblingFacts.

(** ** The shape of a parsed document *)

Section EntriesRelated.
Context {A B : Type}.
Variable R : string * A -> string * B -> Prop.
Hypothesis R_key : forall p m, R p m -> p.1 = m.1.

Lemma upsert_related (ps : props A) (ms : props B) k a b :
  Forall2 R ps ms -> R (k, a) (k, b) ->
  Forall2 R (upsert k a ps) (upsert k b ms).
Proof.
  intros Hall Hnew. induction Hall as [|[k1 a1] [k2 b1] ps ms Hhead Htail IH]; simpl.
  - now constructor.
  - pose proof (R_key _ _ Hhead) as Hk. simpl in Hk. subst k2.
    destruct (String.eqb k k1); constructor; assumption.
Qed.

Lemma fold_upsert_related (ps acc : props A) (ms acc' : props B) :
  Forall2 R ps ms -> Forall2 R acc acc' ->
  Forall2 R (fold_left (fun acc kv => upsert kv.1 kv.2 acc) ps acc)
            (fold_left (fun acc kv => upsert kv.1 kv.2 acc) ms acc').
Proof.
  intros Hall. revert acc acc'.
  induction Hall as [|[k1 a1] [k2 b1] ps ms Hhead _ IH]; intros acc acc' Hacc;
    simpl; [exact Hacc|].
  pose proof (R_key _ _ Hhead) as Hk. simpl in Hk. subst k2.
  apply IH. now apply upsert_related.
Qed.

Lemma insert_sorted_related (n : N) e e'
  (l : list (N * (string * A))) (l' : list (N * (string * B))) :
  Forall2 (fun x y => x.1 = y.1 /\ R x.2 y.2) l l' -> R e e' ->
  Forall2 (fun x y => x.1 = y.1 /\ R x.2 y.2)
          (insert_sorted n e l) (insert_sorted n e' l').
Proof.
  intros Hall He. induction Hall as [|[m1 e1] [m2 e2] l l' [Hm Hhead] Hall IH]; simpl.
  - constructor; [now split | constructor].
  - simpl in Hm. subst m2. destruct (n <=? m1)%N.
    + constructor; [now split|]. constructor; [now split | exact Hall].
    + constructor; [now split | exact IH].
Qed.

Lemma index_entries_related (ps : props A) (ms : props B) :
  Forall2 R ps ms ->
  Forall2 (fun x y => x.1 = y.1 /\ R x.2 y.2) (index_entries ps) (index_entries ms).
Proof.
  induction 1 as [|[k1 a1] [k2 b1] ps ms Hhead _ IH]; simpl; [constructor|].
  pose proof (R_key _ _ Hhead) as Hk. simpl in Hk. subst k2.
  destruct (array_index k1); [now apply insert_sorted_related | exact IH].
Qed.

Lemma named_entries_related (ps : props A) (ms : props B) :
  Forall2 R ps ms -> Forall2 R (named_entries ps) (named_entries ms).
Proof.
  induction 1 as [|[k1 a1] [k2 b1] ps ms Hhead _ IH]; simpl; [constructor|].
  pose proof (R_key _ _ Hhead) as Hk. simpl in Hk. subst k2.
  destruct (array_index k1); [exact IH | now constructor].
Qed.

Lemma own_entries_related (ps : props A) (ms : props B) :
  Forall2 R ps ms -> Forall2 R (own_entries ps) (own_entries ms).
Proof.
  intros Hall. unfold own_entries. apply Forall2_app.
  - pose proof (index_entries_related _ _ Hall) as Hindex.
    induction Hindex as [|x y l l' [_ Hxy] _ IH]; simpl; constructor; assumption.
  - now apply named_entries_related.
Qed.

Lemma lookup_related (ps : props A) (ms : props B) k :
  Forall2 R ps ms ->
  match lookup_prop k ps, lookup_prop k ms with
  | Some a, Some b => R (k, a) (k, b)
  | None, None => True
  | _, _ => False
  end.
Proof.
  induction 1 as [|[k1 a1] [k2 b1] ps ms Hhead _ IH]; simpl; [exact I|].
  pose proof (R_key _ _ Hhead) as Hk. simpl in Hk. subst k2.
  destruct (String.eqb_spec k k1) as [->|_]; [exact Hhead | exact IH].
Qed.
End EntriesRelated.

Lemma mapM_related {A B} (f : A -> option B) (xs : list A) (ys : list B) :
  Forall2 (fun a b => f a = Some b) xs ys -> mapM f xs = Some ys.
Proof.
  induction 1 as [|a b xs ys Hab _ IH]; [reflexivity|].
  cbn. now rewrite Hab, IH.
Qed.

Lemma canon_object (members : props tree) :
  canon (TObj members)
  = TObj (own_entries
            (fold_left (fun acc kv => upsert kv.1 kv.2 acc) (canon_members members) [])).
Proof.
  reflexivity.
Qed.

Lemma extends_app (h ext : heap) : extends (h ++ ext) h.
Proof.
  intros l o Hl. rewrite lookup_app_l; [exact Hl | eapply lookup_lt_Some, Hl].
Qed.

Lemma extends_trans (h1 h2 h3 : heap) :
  extends h3 h2 -> extends h2 h1 -> extends h3 h1.
Proof. intros H32 H21 l o Hl. apply H32, H21, Hl. Qed.

Lemma extends_length (h' h : heap) : extends h' h -> length h <= length h'.
Proof.
  intros Hext. destruct (decide (length h = 0)) as [->|Hne]; [lia|].
  destruct (lookup_lt_is_Some_2 h (length h - 1)) as [o Hl]; [lia|].
  apply Hext, lookup_lt_Some in Hl. lia.
Qed.

(** What [JSON.parse] built reads, in every store that still holds it,
    as the canonical tree. *)
Lemma snapshot_alloc (t : tree) :
  forall (h0 : heap) (v : value) (h h' : heap) (fuel : nat),
    alloc t h0 = (v, h) -> extends h' h -> below fuel v ->
    snapshot fuel h' v = Some (canon t).
Proof.
  induction t as [| | b | n | s | items IH | members IH] using tree_induction;
    intros h0 v h h' fuel Halloc Hext Hbelow;
    try (injection Halloc as <- <-; now destruct fuel).
  - rewrite alloc_array in Halloc.
    destruct (alloc_items items h0) as [vs h1] eqn:Hitems.
    injection Halloc as <- <-.
    destruct fuel as [|fuel]; [simpl in Hbelow; lia|]. simpl in Hbelow.
    cbn [snapshot canon].
    rewrite (Hext (length h1) (Arr vs []))
      by (rewrite lookup_app_r, Nat.sub_diag by lia; reflexivity).
    assert (extends h' h1) as Hext1
        by (eapply extends_trans; [exact Hext | apply extends_app]).
    assert (length h1 <= fuel) as Hfuel by lia.
    clear Hext Hbelow.
    assert (mapM (fun e => snapshot fuel h' (default VUndefined e)) vs
            = Some (map canon items)) as ->; [|reflexivity].
    apply mapM_related.
    revert h0 vs h1 Hitems Hext1 Hfuel.
    induction IH as [|t ts Ht _ IHts]; intros h0 vs h1 Hitems Hext1 Hfuel.
    + injection Hitems as <- <-. constructor.
    + cbn [alloc_items] in Hitems.
      destruct (alloc t h0) as [w h2] eqn:Hw.
      destruct (alloc_items ts h2) as [ws h3] eqn:Hws.
      injection Hitems as <- <-.
      pose proof (alloc_items_otree _ _ _ _ Hws) as [[e3 ->] _].
      pose proof (alloc_otree _ _ _ _ Hw) as [_ Htree].
      constructor.
      * simpl. eapply Ht; [exact Hw | |].
        -- eapply extends_trans; [exact Hext1 | apply extends_app].
        -- apply otree_below in Htree. rewrite length_app in Hfuel.
           destruct w; simpl in *; try exact I. lia.
      * eapply IHts; [exact Hws | exact Hext1 | exact Hfuel].
  - rewrite alloc_object in Halloc.
    destruct (alloc_members members h0) as [ps h1] eqn:Hmembers.
    injection Halloc as <- <-.
    destruct fuel as [|fuel]; [simpl in Hbelow; lia|]. simpl in Hbelow.
    rewrite canon_object. cbn [snapshot].
    rewrite (Hext (length h1) (Obj (fold_left (fun acc kv => upsert kv.1 kv.2 acc) ps [])))
      by (rewrite lookup_app_r, Nat.sub_diag by lia; reflexivity).
    assert (extends h' h1) as Hext1
        by (eapply extends_trans; [exact Hext | apply extends_app]).
    assert (length h1 <= fuel) as Hfuel by lia.
    clear Hext Hbelow.
    set (R := fun (p : string * value) (m : string * tree) =>
                p.1 = m.1 /\ snapshot fuel h' p.2 = Some m.2).
    assert (Forall2 R ps (canon_members members)) as Hall.
    { revert h0 ps h1 Hmembers Hext1 Hfuel.
      induction IH as [|[k t] ms Ht _ IHms]; intros h0 ps h1 Hmembers Hext1 Hfuel.
      - injection Hmembers as <- <-. constructor.
      - cbn [alloc_members] in Hmembers.
        destruct (alloc t h0) as [w h2] eqn:Hw.
        destruct (alloc_members ms h2) as [ws h3] eqn:Hws.
        injection Hmembers as <- <-.
        pose proof (alloc_members_otree _ _ _ _ Hws) as [[e3 ->] _].
        pose proof (alloc_otree _ _ _ _ Hw) as [_ Htree].
        constructor.
        + split; [reflexivity|]. simpl. eapply Ht; [exact Hw | |].
          * eapply extends_trans; [exact Hext1 | apply extends_app].
          * apply otree_below in Htree. rewrite length_app in Hfuel.
            destruct w; simpl in *; try exact I. lia.
        + eapply IHms; [exact Hws | exact Hext1 | exact Hfuel]. }
    assert (forall p m, R p m -> p.1 = m.1) as Hkey by (intros p m [Hk _]; exact Hk).
    pose proof (own_entries_related R Hkey _ _
                  (fold_upsert_related R Hkey _ [] _ [] Hall (List.Forall2_nil R)))
      as Hentries.
    erewrite mapM_related; [reflexivity|].
    eapply Forall2_impl; [exact Hentries|].
    intros [k w] [k' t'] [Hk Hw]. simpl in *. subst k'. now rewrite Hw.
Qed.

Lemma shape_alloc (t : tree) (h0 : heap) (v : value) (h h' : heap) :
  alloc t h0 = (v, h) -> extends h' h -> shape h' v = Some (canon t).
Proof.
  intros Halloc Hext. unfold shape.
  eapply snapshot_alloc; [exact Halloc | exact Hext |].
  apply alloc_otree in Halloc as [_ Htree]. apply otree_below in Htree.
  pose proof (extends_length _ _ Hext).
  destruct v; simpl in *; try exact I. lia.
Qed.
(** ** Reading a parsed document *)

Section ReadFacts.
Context `{Builtins}.
Implicit Types (h : heap) (l lo : loc) (v x c : value) (key : string)
  (segs rest : JSONPath) (t sub : tree).

Lemma holds_extends h h' v t : holds h v t -> extends h' h -> holds h' v t.
Proof.
  intros (h0 & h1 & Halloc & Hext) Hext'. exists h0, h1.
  split; [exact Halloc | eapply extends_trans; eassumption].
Qed.

Lemma holds_undefined h : holds h VUndefined TUndefined.
Proof. exists [], []. split; [reflexivity | intros l o Hl; discriminate]. Qed.

Lemma holds_num h n : holds h (VNum n) (TNum n).
Proof. exists [], []. split; [reflexivity | intros l o Hl; discriminate]. Qed.

Lemma holds_str h s : holds h (VStr s) (TStr s).
Proof. exists [], []. split; [reflexivity | intros l o Hl; discriminate]. Qed.

Lemma holds_shape h v t : holds h v t -> shape h v = Some (canon t).
Proof. intros (h0 & h1 & Halloc & Hext). eapply shape_alloc; eassumption. Qed.

Lemma alloc_items_holds (items : list tree) h0 vs h1 (i : nat) e :
  alloc_items items h0 = (vs, h1) -> vs !! i = Some e ->
  exists w sub, e = Some w /\ items !! i = Some sub /\ holds h1 w sub.
Proof.
  revert h0 vs h1 i. induction items as [|t ts IH]; intros h0 vs h1 i Hitems Hi.
  - injection Hitems as <- <-. discriminate.
  - cbn [alloc_items] in Hitems.
    destruct (alloc t h0) as [w h2] eqn:Hw.
    destruct (alloc_items ts h2) as [ws h3] eqn:Hws.
    injection Hitems as <- <-.
    destruct i as [|i]; simpl in Hi.
    + injection Hi as <-. exists w, t. split; [reflexivity|]. split; [reflexivity|].
      exists h0, h2. split; [exact Hw|].
      apply alloc_items_otree in Hws as [[e3 ->] _]. apply extends_app.
    + eapply IH; eassumption.
Qed.

Lemma alloc_members_holds (members : props tree) h0 ps h1 :
  alloc_members members h0 = (ps, h1) ->
  Forall2 (fun p m => p.1 = m.1 /\ exists sub, holds h1 p.2 sub /\ m.2 = canon sub)
          ps (canon_members members).
Proof.
  revert h0 ps h1. induction members as [|[k t] ms IH]; intros h0 ps h1 Hmembers.
  - injection Hmembers as <- <-. constructor.
  - cbn [alloc_members] in Hmembers.
    destruct (alloc t h0) as [w h2] eqn:Hw.
    destruct (alloc_members ms h2) as [ws h3] eqn:Hws.
    injection Hmembers as <- <-. constructor; [|eapply IH, Hws].
    split; [reflexivity|]. exists t. split; [|reflexivity].
    exists h0, h2. split; [exact Hw|].
    apply alloc_members_otree in Hws as [[e3 ->] _]. apply extends_app.
Qed.

(** One step of the walk finds, in the store, the value that stands
    for what it finds in the tree. *)
Lemma holds_get h v t key :
  holds h v t ->
  match prop_get h v key, tree_get (canon t) key with
  | Ok c, Ok t' => exists sub, holds h c sub /\ t' = canon sub
  | Throw e, Throw e' => e = e'
  | HostDefined, HostDefined => True
  | _, _ => False
  end.
Proof.
  intros (h0 & h1 & Halloc & Hext).
  destruct t as [| | b | n | s | items | members].
  - injection Halloc as <- <-. reflexivity.
  - injection Halloc as <- <-. reflexivity.
  - injection Halloc as <- <-. cbn. unfold from_prototype, tree_proto.
    destruct (inherited KBoolean key); [exact I|].
    exists TUndefined. split; [apply holds_undefined | reflexivity].
  - injection Halloc as <- <-. cbn. unfold from_prototype, tree_proto.
    destruct (inherited KNumber key); [exact I|].
    exists TUndefined. split; [apply holds_undefined | reflexivity].
  - injection Halloc as <- <-. cbn. unfold from_prototype, tree_proto.
    destruct (String.eqb key "length").
    { eexists (TNum _). split; [apply holds_num | reflexivity]. }
    destruct (array_index key) as [i|].
    + destruct (char_at s i) as [c|]; cbn.
      * exists (TStr c). split; [apply holds_str | reflexivity].
      * destruct (inherited KString key); [exact I|].
        exists TUndefined. split; [apply holds_undefined | reflexivity].
    + destruct (inherited KString key); [exact I|].
      exists TUndefined. split; [apply holds_undefined | reflexivity].
  - rewrite alloc_array in Halloc.
    destruct (alloc_items items h0) as [vs h2] eqn:Hitems.
    injection Halloc as <- <-.
    pose proof (alloc_items_length _ _ _ _ Hitems) as Hlen.
    unfold prop_get, own_prop, kind_of.
    rewrite (Hext (length h2) (Arr vs []))
      by (rewrite lookup_app_r, Nat.sub_diag by lia; reflexivity).
    cbn [canon tree_get]. unfold from_prototype, tree_proto.
    destruct (String.eqb key "length").
    { eexists (TNum _). split; [apply holds_num|]. cbn [canon].
      now rewrite length_map, Hlen. }
    destruct (array_index key) as [i|]; cbn [lookup_prop].
    + rewrite list_lookup_fmap.
      destruct (vs !! N.to_nat i) as [e|] eqn:Hi.
      * destruct (alloc_items_holds _ _ _ _ _ _ Hitems Hi)
          as (w & sub & -> & -> & Hw).
        cbn. exists sub. split; [|reflexivity].
        eapply holds_extends; [exact Hw|].
        eapply extends_trans; [exact Hext | apply extends_app].
      * apply lookup_ge_None in Hi. rewrite Hlen in Hi.
        rewrite (lookup_ge_None_2 items) by exact Hi. cbn.
        destruct (inherited KArray key); [exact I|].
        exists TUndefined. split; [apply holds_undefined | reflexivity].
    + destruct (inherited KArray key); [exact I|].
      exists TUndefined. split; [apply holds_undefined | reflexivity].
  - rewrite alloc_object in Halloc.
    destruct (alloc_members members h0) as [ps h2] eqn:Hmembers.
    injection Halloc as <- <-.
    unfold prop_get, own_prop, kind_of.
    rewrite (Hext (length h2) (Obj (fold_left (fun acc kv => upsert kv.1 kv.2 acc) ps [])))
      by (rewrite lookup_app_r, Nat.sub_diag by lia; reflexivity).
    rewrite canon_object. cbn [tree_get]. rewrite lookup_own_entries.
    set (R := fun (p : string * value) (m : string * tree) =>
                p.1 = m.1 /\ exists sub, holds h2 p.2 sub /\ m.2 = canon sub).
    assert (forall p m, R p m -> p.1 = m.1) as Hkey by (intros p m [Hk _]; exact Hk).
    pose proof (lookup_related R Hkey _ _ key
                  (fold_upsert_related R Hkey _ [] _ []
                     (alloc_members_holds _ _ _ _ Hmembers) (List.Forall2_nil R)))
      as Hfound.
    destruct (lookup_prop key (fold_left _ ps [])) as [c|],
             (lookup_prop key (fold_left _ (canon_members members) [])) as [t'|];
      try contradiction.
    + destruct Hfound as [_ (sub & Hc & Ht)]. simpl in Hc, Ht.
      exists sub. split; [|exact Ht].
      eapply holds_extends; [exact Hc|].
      eapply extends_trans; [exact Hext | apply extends_app].
    + unfold from_prototype, tree_proto.
      destruct (inherited KObject key); [exact I|].
      exists TUndefined. split; [apply holds_undefined | reflexivity].
Qed.

Lemma holds_kind h v t :
  holds h v t ->
  match v, canon t with
  | VUndefined, TUndefined | VNull, TNull | VBool _, TBool _ | VNum _, TNum _
  | VStr _, TStr _ | VRef _, TArr _ | VRef _, TObj _ => True
  | _, _ => False
  end.
Proof.
  intros (h0 & h1 & Halloc & _).
  destruct t as [| | b | n | s | items | members];
    try (injection Halloc as <- <-; exact I).
  - rewrite alloc_array in Halloc. destruct (alloc_items items h0).
    injection Halloc as <- <-. exact I.
  - rewrite alloc_object in Halloc. destruct (alloc_members members h0).
    injection Halloc as <- <-. rewrite canon_object. exact I.
Qed.

Lemma holds_walk segs :
  forall h v t,
    holds h v t ->
    match walk h v segs, tree_walk (canon t) segs with
    | Ok c, Ok t' => exists sub, holds h c sub /\ t' = canon sub
    | Throw e, Throw e' => e = e'
    | HostDefined, HostDefined => True
    | _, _ => False
    end.
Proof.
  induction segs as [|seg rest IH]; intros h v t Hv.
  - exists t. now split.
  - pose proof (holds_kind _ _ _ Hv) as Hkind.
    pose proof (holds_get _ _ _ (key_of seg) Hv) as Hget.
    cbn [walk tree_walk].
    destruct v, (canon t) eqn:Ht; try contradiction;
      try (exists TUndefined; split; [apply holds_undefined | reflexivity]);
      (destruct (prop_get h _ (key_of seg)) as [c| |],
                (tree_get _ (key_of seg)) as [t'| |];
       try contradiction; cbn [bind]; try assumption;
       destruct Hget as (sub & Hc & ->); apply IH, Hc).
Qed.

(** What the walk finds in a parsed document has the shape of what it
    finds in the tree of the document. *)
Lemma read_shape d h0 D h (p : option JSONPath) t :
  alloc d h0 = (D, h) ->
  tree_walk (canon d) (default [] p) = Ok t ->
  exists v, getValueAtPath h D p = Ok v /\ shape h v = Some t.
Proof.
  intros Halloc Hwalk.
  assert (holds h D d) as HD by (exists h0, h; split; [exact Halloc | now intros l o]).
  pose proof (holds_walk (default [] p) _ _ _ HD) as Hrel.
  rewrite Hwalk in Hrel.
  assert (getValueAtPath h D p = walk h D (default [] p)) as ->
      by (destruct p as [[|seg rest]|]; reflexivity).
  destruct (walk h D (default [] p)) as [v| |]; try contradiction.
  destruct Hrel as (sub & Hv & ->). exists v. split; [reflexivity|].
  now apply holds_shape.
Qed.

(** X4: [getValueAtPath] on a parsed document is the walk of the tree of
    the document: it returns where the walk of the tree returns, and
    what it returns has the shape of what that walk finds. *)
Theorem getValueAtPath_tree (d : tree) (h0 : heap) (p : option JSONPath) :
  (let* v := getValueAtPath (alloc d h0).2 (alloc d h0).1 p in
   Ok (shape (alloc d h0).2 v))
  = (let* t := tree_walk (canon d) (default [] p) in Ok (Some t)).
Proof.
  destruct (alloc d h0) as [D h] eqn:Halloc. cbn [fst snd].
  assert (holds h D d) as HD by (exists h0, h; split; [exact Halloc | now intros l o]).
  pose proof (holds_walk (default [] p) _ _ _ HD) as Hrel.
  assert (getValueAtPath h D p = walk h D (default [] p)) as ->
      by (destruct p as [[|seg rest]|]; reflexivity).
  destruct (walk h D (default [] p)) as [v|e|],
           (tree_walk (canon d) (default [] p)) as [t|e'|];
    try contradiction; cbn [bind]; [|now subst | reflexivity].
  destruct Hrel as (sub & Hv & ->). now rewrite (holds_shape _ _ _ Hv).
Qed.

Variable JSON_parse : string -> outcome tree.

(** X12: When the live document parses and the walk of its tree along the
    path of the selected node returns, the selection effect, Edit and
    Cancel put in the edit buffer the text [JSON.stringify] writes,
    with two spaces, for what the walk found: the text of the
    sub-document at the path ([undefined] when there is none). *)
Theorem selection_shows_value (m : modal) (s : stores) (d t : tree) :
  JSON_parse (getJson s) = Ok d ->
  tree_walk (canon d) (default [] (path_of s)) = Ok t ->
  on_select JSON_parse m s
  = Ok {| editing := false; error := None; editValue := stringify2 t |}
  /\ on_edit JSON_parse m s
     = Ok {| editing := true; error := error m; editValue := stringify2 t |}
  /\ on_cancel JSON_parse m s
     = Ok {| editing := false; error := None; editValue := stringify2 t |}.
Proof.
  intros Hparse Hwalk.
  assert (current_text JSON_parse s = Ok (stringify2 t)) as Htext.
  { unfold current_text, parse_in. rewrite Hparse. cbn [bind].
    destruct (alloc d []) as [parsed h] eqn:Halloc. cbn [bind].
    destruct (read_shape _ _ _ _ _ _ Halloc Hwalk) as (v & -> & Hshape).
    cbn [bind try_catch]. unfold stringify_value. now rewrite Hshape. }
  unfold on_select, on_edit, on_cancel. now rewrite Htext.
Qed.
End ReadFacts.

Lemma selection_shows_value_example :
  @on_select example_engine example_parse_more initial
    {| selectedNode := Some {| path := Some [Index 0]; text := [] |};
       getJson := "[null]" |}
  = Ok {| editing := false; error := None; editValue := Some "null" |}.
Proof.
  exact (proj1 (@selection_shows_value example_engine example_parse_more initial
                  {| selectedNode := Some {| path := Some [Index 0]; text := [] |};
                     getJson := "[null]" |}
                  (TArr [TNull]) TNull eq_refl eq_refl)).
Defined.

(** ** Saving under [null] *)

Section SaveNullFacts.
Context `{Builtins}.
Variable JSON_parse : string -> outcome tree.
Variable setGraph : option string -> outcome (list node).
Variable type_error_text range_error_text : string.

(** X17: Save on a node whose path goes through [null] in the live
    document (a part of the path that is neither empty nor the whole of
    it leads to [null]): the write throws, so the session stays in
    Editing with the message of the [TypeError], and no store is
    called, whatever the edit buffer holds. *)
Theorem save_through_null_fails (m : modal) (s : stores) (tnew tdoc : tree)
  (pre suf : JSONPath) :
  JSON_parse (buffer_text m) = Ok tnew ->
  JSON_parse (getJson s) = Ok tdoc ->
  path_of s = Some (pre ++ suf) -> pre <> [] -> suf <> [] ->
  tree_walk (canon tdoc) pre = Ok TNull ->
  handleSave JSON_parse setGraph type_error_text range_error_text m s
  = Ok ({| editing := editing m; error := Some type_error_text;
           editValue := editValue m |}, []).
Proof.
  intros Hnew Hdoc Hpath Hpre Hsuf Hnull.
  apply (handleSave_write_failure _ _ _ _ _ _ tnew tdoc TypeError Hnew Hdoc).
  destruct (alloc tnew []) as [parsedNew h1]. cbn [fst snd].
  destruct (alloc tdoc h1) as [whole h2] eqn:Halloc. cbn [fst snd].
  rewrite Hpath.
  eapply setValueAtPath_through_null; [exact Halloc | exact Hpre | exact Hsuf |].
  assert (holds h2 whole tdoc) as Hwhole
      by (exists h1, h2; split; [exact Halloc | now intros l o]).
  pose proof (holds_walk pre _ _ _ Hwhole) as Hrel. rewrite Hnull in Hrel.
  destruct (walk h2 whole pre) as [c| |]; try contradiction.
  destruct Hrel as (sub & Hc & Hsub).
  apply holds_kind in Hc. rewrite <- Hsub in Hc. now destruct c.
Qed.
End SaveNullFacts.

(** Saving 1 at [0.b] in the document [[null]]. *)
Lemma save_through_null_fails_example :
  @handleSave example_engine example_parse_more example_graph "TypeError" "RangeError"
    {| editing := true; editValue := Some "1"; error := None |}
    {| selectedNode := Some {| path := Some [Index 0; Key "b"]; text := [] |};
       getJson := "[null]" |}
  = Ok ({| editing := true; error := Some "TypeError"; editValue := Some "1" |}, []).
Proof.
  refine (@save_through_null_fails example_engine example_parse_more example_graph
            "TypeError" "RangeError"
            {| editing := true; editValue := Some "1"; error := None |}
            {| selectedNode := Some {| path := Some [Index 0; Key "b"]; text := [] |};
               getJson := "[null]" |}
            (TNum 1) (TArr [TNull]) [Index 0] [Key "b"]
            eq_refl eq_refl eq_refl _ _ eq_refl); discriminate.
Defined.

(** ** What a write leaves alone, at any depth *)

Section ElsewhereFacts.
Context `{Builtins}.
Implicit Types (h : heap) (l lo hi : loc) (v x c s : value) (key : string)
  (segs rest common : JSONPath).







End ElsewhereFacts.


(** ** The shape of a container, from its members *)

Section MemberFacts.
Context `{Builtins}.
Implicit Types (h : heap) (l lo hi : loc) (v x c s : value) (key : string)
  (segs rest : JSONPath) (t sub : tree).

Lemma holds_snapshot h h' v t fuel :
  holds h v t -> extends h' h -> length h <= fuel ->
  snapshot fuel h' v = Some (canon t).
Proof.
  intros (h0 & h1 & Halloc & Hext) Hext' Hfuel.
  eapply snapshot_alloc; [exact Halloc | eapply extends_trans; eassumption |].
  apply alloc_otree in Halloc as [_ Htree]. apply otree_below in Htree.
  pose proof (extends_length _ _ Hext).
  destruct v; simpl in *; try exact I. lia.
Qed.

Lemma snapshot_object fuel h l fields (ms : props tree) :
  h !! l = Some (Obj fields) ->
  Forall2 (fun p m => p.1 = m.1 /\ snapshot fuel h p.2 = Some m.2) fields ms ->
  snapshot (S fuel) h (VRef l) = Some (TObj (own_entries ms)).
Proof.
  intros Hl Hall. cbn [snapshot]. rewrite Hl.
  erewrite mapM_related; [reflexivity|].
  eapply Forall2_impl.
  - apply (own_entries_related
             (fun p m => p.1 = m.1 /\ snapshot fuel h p.2 = Some m.2));
      [now intros p m [Hk _] | exact Hall].
  - intros [k w] [k' t'] [Hk Hw]. simpl in *. subst k'. now rewrite Hw.
Qed.

Lemma snapshot_array fuel h l elems extra (items : list tree) :
  h !! l = Some (Arr elems extra) ->
  Forall2 (fun e m => snapshot fuel h (default VUndefined e) = Some m) elems items ->
  snapshot (S fuel) h (VRef l) = Some (TArr items).
Proof.
  intros Hl Hall. cbn [snapshot]. rewrite Hl.
  now erewrite mapM_related by exact Hall.
Qed.
End MemberFacts.
(** ** Enumeration and assignment *)

Section EntriesOrder.
Context {A : Type}.
Implicit Types (ps ms : props A) (k : string) (a : A)
  (L : list (N * (string * A))).

Lemma insert_sorted_perm n (e : string * A) L :
  Permutation (insert_sorted n e L) ((n, e) :: L).
Proof.
  induction L as [|[m e'] L IH]; simpl; [reflexivity|].
  destruct (n <=? m)%N; [reflexivity|].
  rewrite IH. apply perm_swap.
Qed.

(** Enumeration loses and repeats nothing. *)
Lemma own_entries_perm ps : Permutation (own_entries ps) ps.
Proof.
  unfold own_entries. induction ps as [|[k a] ps IH]; simpl; [reflexivity|].
  destruct (array_index k).
  - rewrite insert_sorted_perm. simpl. now rewrite IH.
  - rewrite <- Permutation_middle. now rewrite IH.
Qed.

Lemma own_entries_NoDup ps :
  List.NoDup (map fst ps) -> List.NoDup (map fst (own_entries ps)).
Proof.
  intros Hnd. eapply Permutation_NoDup; [|exact Hnd].
  apply Permutation_map. symmetry. apply own_entries_perm.
Qed.

Lemma lookup_prop_NoDup ps k a :
  List.NoDup (map fst ps) -> (k, a) ∈ ps -> lookup_prop k ps = Some a.
Proof.
  induction ps as [|[k0 a0] ps IH]; simpl; intros Hnd Hin.
  - now apply elem_of_nil in Hin.
  - inversion Hnd as [|? ? Hnotin Hnd']; subst.
    apply elem_of_cons in Hin as [[= -> ->]|Hin].
    + now rewrite String.eqb_refl.
    + destruct (String.eqb_spec k k0) as [->|_]; [|now apply IH].
      exfalso. apply Hnotin. apply in_map_iff. exists (k0, a).
      split; [reflexivity | now apply list_elem_of_In].
Qed.

(** Assignment to a key that is there changes the value of that
    member and nothing else. *)
Lemma upsert_present ps k a :
  List.NoDup (map fst ps) -> In k (map fst ps) ->
  upsert k a ps = map (fun p => if String.eqb k p.1 then (k, a) else p) ps.
Proof.
  induction ps as [|[k0 a0] ps IH]; simpl; intros Hnd Hin; [contradiction|].
  inversion Hnd as [|? ? Hnotin Hnd']; subst.
  destruct (String.eqb_spec k k0) as [->|Hne].
  - f_equal. clear IH Hnd Hnd' Hin.
    induction ps as [|[k1 a1] ps IH]; simpl; [reflexivity|].
    simpl in Hnotin.
    destruct (String.eqb_spec k0 k1) as [->|_]; [tauto|].
    f_equal. apply IH. tauto.
  - f_equal. apply IH; [exact Hnd'|]. destruct Hin; [congruence | assumption].
Qed.

Lemma own_entries_map (f : string * A -> string * A) ps :
  (forall p, (f p).1 = p.1) ->
  own_entries (map f ps) = map f (own_entries ps).
Proof.
  intros Hf.
  assert (Forall2 (fun p m => m = f p) (own_entries ps) (own_entries (map f ps)))
    as Hall.
  { apply (own_entries_related (fun p m => m = f p)).
    - intros p m ->. now rewrite Hf.
    - clear. induction ps; constructor; [reflexivity | assumption]. }
  induction Hall as [|p m l l' -> _ IH]; [reflexivity|].
  simpl. now rewrite IH.
Qed.

Lemma insert_sorted_comm n1 n2 (e1 e2 : string * A) L :
  n1 <> n2 ->
  insert_sorted n1 e1 (insert_sorted n2 e2 L)
  = insert_sorted n2 e2 (insert_sorted n1 e1 L).
Proof.
  intros Hne. induction L as [|[m e] L IH]; simpl.
  - destruct (n1 <=? n2)%N eqn:H12, (n2 <=? n1)%N eqn:H21; try reflexivity;
      [apply N.leb_le in H12, H21 | apply N.leb_gt in H12, H21]; lia.
  - destruct (n2 <=? m)%N eqn:H2, (n1 <=? m)%N eqn:H1; simpl;
      rewrite ?H1, ?H2.
    + destruct (n1 <=? n2)%N eqn:H12, (n2 <=? n1)%N eqn:H21; try reflexivity;
        [apply N.leb_le in H12, H21 | apply N.leb_gt in H12, H21]; lia.
    + assert ((n1 <=? n2)%N = false) as ->; [|reflexivity].
      apply N.leb_gt. apply N.leb_le in H2. apply N.leb_gt in H1. lia.
    + assert ((n2 <=? n1)%N = false) as ->; [|reflexivity].
      apply N.leb_gt. apply N.leb_le in H1. apply N.leb_gt in H2. lia.
    + now rewrite IH.
Qed.

Lemma index_entries_snoc ps k a n :
  array_index k = Some n -> ~ In k (map fst ps) ->
  index_entries (ps ++ [(k, a)]) = insert_sorted n (k, a) (index_entries ps).
Proof.
  intros Hk. induction ps as [|[k0 a0] ps IH]; simpl; intros Hnotin.
  - now rewrite Hk.
  - destruct (array_index k0) as [n0|] eqn:Hk0; [|apply IH; tauto].
    rewrite IH by tauto. apply insert_sorted_comm.
    intros ->. apply Hnotin. left.
    rewrite (array_index_key _ _ Hk), (array_index_key _ _ Hk0). reflexivity.
Qed.

Lemma named_entries_snoc ps k a :
  named_entries (ps ++ [(k, a)])
  = match array_index k with
    | Some _ => named_entries ps
    | None => named_entries ps ++ [(k, a)]
    end.
Proof.
  rewrite named_entries_app. simpl.
  destruct (array_index k); [apply app_nil_r | reflexivity].
Qed.

Lemma index_entries_own ps : index_entries (own_entries ps) = index_entries ps.
Proof.
  unfold own_entries.
  rewrite index_entries_app by apply named_entries_all.
  apply index_entries_of_sorted;
    [apply index_entries_sorted | apply index_entries_filed].
Qed.

Lemma named_entries_own ps : named_entries (own_entries ps) = named_entries ps.
Proof.
  unfold own_entries.
  rewrite named_entries_app, named_entries_indexed by apply index_entries_filed.
  apply named_entries_named, named_entries_all.
Qed.

(** Assigning to a member before or after the keys are enumerated
    gives the same enumeration. *)
Lemma own_entries_upsert ps k a :
  List.NoDup (map fst ps) ->
  own_entries (upsert k a (own_entries ps)) = own_entries (upsert k a ps).
Proof.
  intros Hnd. pose proof (own_entries_NoDup _ Hnd) as Hnd'.
  destruct (lookup_prop k ps) as [a0|] eqn:Hl.
  - assert (In k (map fst ps)) as Hin by (eapply lookup_prop_Some_In, Hl).
    assert (In k (map fst (own_entries ps))) as Hin'.
    { eapply lookup_prop_Some_In. rewrite lookup_own_entries. exact Hl. }
    rewrite !upsert_present by assumption.
    rewrite !own_entries_map, own_entries_idem; [reflexivity | |];
      intros [k1 a1]; simpl; destruct (String.eqb_spec k k1); now subst.
  - assert (lookup_prop k (own_entries ps) = None) as Hl'
        by (now rewrite lookup_own_entries).
    rewrite !upsert_fresh by assumption.
    apply lookup_prop_None in Hl, Hl'.
    unfold own_entries at 1 3.
    rewrite !named_entries_snoc, named_entries_own.
    destruct (array_index k) as [n|] eqn:Hk.
    + now rewrite !(index_entries_snoc _ _ _ n), index_entries_own by assumption.
    + rewrite !index_entries_app, index_entries_own; [reflexivity | |];
        (constructor; [exact Hk | constructor]).
Qed.
End EntriesOrder.

Section EntriesPut.
Context {A B : Type}.
Variable R R' : string * A -> string * B -> Prop.
Hypothesis R_key : forall p m, R p m -> p.1 = m.1.

Lemma related_keys (ps : props A) (ms : props B) :
  Forall2 R ps ms -> map fst ps = map fst ms.
Proof.
  induction 1 as [|p m ps ms Hhead _ IH]; [reflexivity|].
  simpl. now rewrite (R_key _ _ Hhead), IH.
Qed.

Lemma related_impl (ps : props A) (ms : props B) :
  Forall2 R ps ms ->
  (forall p m, p ∈ ps -> R p m -> R' p m) ->
  Forall2 R' ps ms.
Proof.
  induction 1 as [|p m ps ms Hhead _ IH]; intros Himpl; constructor.
  - apply Himpl; [apply list_elem_of_here | exact Hhead].
  - apply IH. intros p' m' Hin. apply Himpl. now apply list_elem_of_further.
Qed.

(** The members of an object after one of them was changed in place. *)
Lemma upsert_related_at (ps : props A) (ms : props B) k b :
  Forall2 R ps ms ->
  List.NoDup (map fst ps) ->
  In k (map fst ps) ->
  (forall p m, p ∈ ps -> R p m -> p.1 <> k -> R' p m) ->
  (forall p m, p ∈ ps -> R p m -> p.1 = k -> R' p (k, b)) ->
  Forall2 R' ps (upsert k b ms).
Proof.
  induction 1 as [|[k1 a1] [k2 b1] ps ms Hhead Htail IH];
    intros Hnd Hin Hother Hsame; [contradiction|].
  pose proof (R_key _ _ Hhead) as Hk. simpl in Hk. subst k2.
  simpl in Hnd, Hin. inversion Hnd as [|? ? Hnotin Hnd']; subst. simpl.
  destruct (String.eqb_spec k k1) as [->|Hne].
  - constructor.
    + eapply Hsame; [apply list_elem_of_here | exact Hhead | reflexivity].
    + apply (related_impl _ _ Htail). intros p m Hp Hpm.
      apply Hother; [now apply list_elem_of_further | exact Hpm |].
      intros Heq. apply Hnotin. rewrite <- Heq.
      apply in_map, list_elem_of_In, Hp.
  - constructor.
    + apply Hother; [apply list_elem_of_here | exact Hhead | simpl; congruence].
    + apply IH; [exact Hnd' | destruct Hin; [congruence | assumption] | |].
      * intros p m Hp. apply Hother. now apply list_elem_of_further.
      * intros p m Hp. apply Hsame. now apply list_elem_of_further.
Qed.
End EntriesPut.
(** ** Writing along a path, on the tree *)

Section ShapeFacts.
Context `{Builtins}.
Implicit Types (h : heap) (l lo : loc) (v w x : value) (key : string)
  (segs rest : JSONPath) (t sub : tree).

Lemma tree_set_last t seg (x : tree) :
  tree_set t [seg] x = tree_put t (key_of seg) x.
Proof. reflexivity. Qed.

Lemma tree_set_step t seg next rest (x : tree) :
  tree_set t (seg :: next :: rest) x
  = match tree_member t (key_of seg) with
    | Some sub =>
        match tree_set sub (next :: rest) x with
        | Some sub' => tree_put t (key_of seg) sub'
        | None => None
        end
    | None => None
    end.
Proof. reflexivity. Qed.

Lemma tree_set_container t seg rest (x t' : tree) :
  tree_set t (seg :: rest) x = Some t' ->
  match t with
  | TArr _ | TObj _ => True
  | _ => False
  end.
Proof. destruct rest, t; simpl; try discriminate; intros; exact I. Qed.

Lemma holds_otree h v t : holds h v t -> otree h 0 v.
Proof.
  intros (h0 & h1 & Halloc & Hext). apply alloc_otree in Halloc as [_ Htree].
  eapply otree_agree; [exact Hext | | exact Htree]. lia.
Qed.

Lemma separate_extends h h' v w :
  extends h' h -> separate h v w -> separate h' v w.
Proof.
  intros Hext (mid & [[Hb Ht]|[Hb Ht]]); exists mid; [left | right];
    (split; [exact Hb|]; eapply otree_agree; [exact Hext | | exact Ht]; lia).
Qed.

Lemma member_of_extends h h' l l' w (m : tree) :
  extends h' h -> l <= l' -> member_of h l w m -> member_of h' l' w m.
Proof.
  intros Hext Hl (sub & hp & Hholds & Hhp & Hlen & ->). exists sub, hp.
  split; [exact Hholds|]. split; [eapply extends_trans; eassumption|].
  split; [lia | reflexivity].
Qed.

Lemma alloc_items_members (items : list tree) h0 vs h1 :
  alloc_items items h0 = (vs, h1) ->
  Forall2 (fun e m => exists w sub, e = Some w /\ holds h1 w sub /\ m = canon sub)
          vs (map canon items).
Proof.
  intros Hitems. apply Forall2_same_length_lookup_2.
  - rewrite length_map. eapply alloc_items_length, Hitems.
  - intros i e m He Hm.
    destruct (alloc_items_holds _ _ _ _ _ _ Hitems He)
      as (w & sub & -> & Hsub & Hholds).
    rewrite list_lookup_fmap, Hsub in Hm. injection Hm as <-. now exists w, sub.
Qed.

(** A container the parser built reads as its tree, member by member. *)
Lemma holds_built h l t : holds h (VRef l) t -> built h l (canon t).
Proof.
  intros (h0 & h1 & Halloc & Hext).
  destruct t as [| | b | n | s | items | members];
    try (simpl in Halloc; discriminate).
  - rewrite alloc_array in Halloc.
    destruct (alloc_items items h0) as [vs h2] eqn:Hitems.
    injection Halloc as <- <-.
    assert (extends h h2) as Hext2
        by (eapply extends_trans; [exact Hext | apply extends_app]).
    unfold built.
    rewrite (Hext (length h2) (Arr vs []))
      by (rewrite lookup_app_r, Nat.sub_diag by lia; reflexivity).
    exists (map canon items). split; [reflexivity|]. split.
    + eapply Forall2_impl; [exact (alloc_items_members _ _ _ _ Hitems)|].
      intros e m (w & sub & -> & Hholds & ->). exists w. split; [reflexivity|].
      exists sub, h2. split; [exact Hholds|]. split; [exact Hext2|].
      split; [lia | reflexivity].
    + intros i j v w Hi Hj Hne.
      destruct (Nat.lt_total i j) as [Hlt|[Heq|Hlt]]; [|congruence|].
      * destruct (alloc_items_separated _ _ _ _ _ _ _ _ Hitems Hlt Hi Hj)
          as (mid & Hb & Ht).
        exists mid. left. split; [exact Hb|].
        eapply otree_agree; [exact Hext2 | | exact Ht]; lia.
      * destruct (alloc_items_separated _ _ _ _ _ _ _ _ Hitems Hlt Hj Hi)
          as (mid & Hb & Ht).
        exists mid. right. split; [exact Hb|].
        eapply otree_agree; [exact Hext2 | | exact Ht]; lia.
  - rewrite alloc_object in Halloc.
    destruct (alloc_members members h0) as [ps h2] eqn:Hmembers.
    injection Halloc as <- <-.
    assert (extends h h2) as Hext2
        by (eapply extends_trans; [exact Hext | apply extends_app]).
    unfold built.
    rewrite (Hext (length h2)
               (Obj (fold_left (fun acc kv => upsert kv.1 kv.2 acc) ps [])))
      by (rewrite lookup_app_r, Nat.sub_diag by lia; reflexivity).
    exists (fold_left (fun acc kv => upsert kv.1 kv.2 acc) (canon_members members) []).
    split; [apply canon_object|]. split; [|split].
    + rewrite fold_upsert_mapping, keys_mapping. apply first_keys_NoDup.
    + set (R := fun (p : string * value) (m : string * tree) =>
                  p.1 = m.1 /\ member_of h (length h2) p.2 m.2).
      apply (fold_upsert_related R); [now intros p m [Hk _] | | constructor].
      eapply Forall2_impl; [exact (alloc_members_holds _ _ _ _ Hmembers)|].
      intros p m [Hk (sub & Hholds & Hm)]. split; [exact Hk|].
      exists sub, h2. split; [exact Hholds|]. split; [exact Hext2|].
      split; [lia | exact Hm].
    + intros [kp vp] [kq vq] Hp Hq Hne. simpl in Hne. cbn [snd].
      apply fold_upsert_elem in Hp as [Hp|Hp]; [|now apply elem_of_nil in Hp].
      apply fold_upsert_elem in Hq as [Hq|Hq]; [|now apply elem_of_nil in Hq].
      apply list_elem_of_lookup_1 in Hp as [i Hi].
      apply list_elem_of_lookup_1 in Hq as [j Hj].
      destruct (Nat.lt_total i j) as [Hlt|[Heq|Hlt]].
      * destruct (alloc_members_separated _ _ _ _ _ _ _ _ _ _ Hmembers Hlt Hi Hj)
          as (mid & Hb & Ht).
        exists mid. left. split; [exact Hb|].
        eapply otree_agree; [exact Hext2 | | exact Ht]; lia.
      * subst j. rewrite Hi in Hj. congruence.
      * destruct (alloc_members_separated _ _ _ _ _ _ _ _ _ _ Hmembers Hlt Hj Hi)
          as (mid & Hb & Ht).
        exists mid. right. split; [exact Hb|].
        eapply otree_agree; [exact Hext2 | | exact Ht]; lia.
Qed.

Lemma spread_otree_at h lo l clone h1 :
  otree h lo (VRef l) ->
  (if isArray h (VRef l) then spread_array h (VRef l)
   else spread_object h (VRef l)) = Ok (clone, h1) ->
  otree h1 lo clone.
Proof.
  intros Htree Hspread. pose proof (otree_lookup _ _ _ Htree) as [Hlo Hlen].
  apply spread_clone in Hspread as (copy & -> & -> & Hcopy).
  apply (ot_ref _ _ _ copy).
  - rewrite lookup_app_r by lia. now rewrite Nat.sub_diag.
  - lia.
  - apply Forall_forall. intros w Hw.
    destruct (Hcopy w Hw) as [Hprim | (l' & o & [= <-] & Hl & Hin)].
    + split; [now destruct w | now apply otree_primitive].
    + inversion Htree as [| | | | |? o' Hl' _ Hall]; subst.
      rewrite Hl in Hl'. injection Hl' as <-.
      rewrite Forall_forall in Hall. destruct (Hall _ Hin) as [Hbelow Hw'].
      split.
      * destruct w; simpl in *; try exact I. lia.
      * eapply otree_app; [exact Hw' | lia].
Qed.

(** The copy the write starts from reads as the document does. *)
Lemma spread_built h lo l t clone h1 :
  otree h lo (VRef l) -> built h l t ->
  (if isArray h (VRef l) then spread_array h (VRef l)
   else spread_object h (VRef l)) = Ok (clone, h1) ->
  clone = VRef (length h) /\ extends h1 h /\ length h1 = S (length h)
  /\ otree h1 lo clone /\ built h1 (length h) t.
Proof.
  intros Htree Hbuilt Hspread.
  pose proof (otree_lookup _ _ _ Htree) as [Hlo Hlen].
  pose proof (spread_otree_at _ _ _ _ _ Htree Hspread) as Htree1.
  unfold built in Hbuilt.
  unfold isArray, spread_array, spread_object, new_object in Hspread.
  destruct (h !! l) as [[fields|elems extra]|] eqn:Hl; [| |contradiction];
    injection Hspread as <- <-;
    (split; [reflexivity|]); (split; [apply extends_app|]);
    (split; [rewrite length_app; simpl; lia|]); (split; [exact Htree1|]);
    unfold built; rewrite lookup_app_r, Nat.sub_diag by lia;
    cbn [lookup list_lookup].
  - destruct Hbuilt as (ms & -> & Hnd & Hall & Hsep).
    exists (own_entries ms). split; [now rewrite own_entries_idem|].
    split; [now apply own_entries_NoDup|]. split.
    + set (R := fun (p : string * value) (m : string * tree) =>
                  p.1 = m.1 /\ member_of h l p.2 m.2) in Hall.
      assert (forall p m, R p m -> p.1 = m.1) as Hkey by (now intros p m [Hk _]).
      eapply Forall2_impl; [apply (own_entries_related R Hkey _ _ Hall)|].
      intros p m [Hk Hm]. split; [exact Hk|].
      eapply member_of_extends; [apply extends_app | | exact Hm]. lia.
    + intros p q Hp Hq Hne. apply own_entries_elem in Hp, Hq.
      eapply separate_extends; [apply extends_app|]. now apply Hsep.
  - destruct Hbuilt as (items & -> & Hall & Hsep).
    exists items. split; [reflexivity|]. split.
    + apply Forall2_fmap_l. eapply Forall2_impl; [exact Hall|].
      intros e m (w & -> & Hm). exists w. split; [reflexivity|].
      eapply member_of_extends; [apply extends_app | | exact Hm]. lia.
    + intros i j v w Hi Hj Hne. rewrite list_lookup_fmap in Hi, Hj.
      destruct (elems !! i) as [ei|] eqn:Hei; [|discriminate].
      destruct (elems !! j) as [ej|] eqn:Hej; [|discriminate].
      destruct (Forall2_lookup_l _ _ _ _ _ Hall Hei) as (mi & _ & wi & -> & _).
      destruct (Forall2_lookup_l _ _ _ _ _ Hall Hej) as (mj & _ & wj & -> & _).
      simpl in Hi, Hj. injection Hi as <-. injection Hj as <-.
      eapply separate_extends; [apply extends_app|]. now apply (Hsep i j).
Qed.

(** What the write leaves of a member beside its path. *)
Lemma sibling_snapshot segs h lo l1 x h' l w (m : tree) fuel :
  segs <> [] -> otree h lo (VRef l1) ->
  assign h (VRef l1) segs x = Ok h' ->
  separate h w (VRef l1) -> member_of h l w m -> l <= fuel ->
  snapshot fuel h' w = Some m.
Proof.
  intros Hsegs Htree Hassign (mid & Hsep)
    (sub & hp & Hholds & Hext & Hlen & ->) Hfuel.
  transitivity (snapshot fuel h w).
  - destruct Hsep as [[Hbelow Hmid]|[Hbelow Hmid]].
    + destruct (assign_spec _ _ _ _ _ _ Hsegs Hmid Hassign) as (_ & Hframe & _).
      pose proof (otree_lookup _ _ _ Hmid) as [Hmid1 Hl1].
      apply (snapshot_agree_range fuel h h' 0 mid).
      * intros l0 _ Hl0. apply Hframe; lia.
      * eapply holds_otree, holds_extends; eassumption.
      * exact Hbelow.
    + destruct (assign_spec _ _ _ _ _ _ Hsegs Htree Hassign) as (_ & Hframe & _).
      simpl in Hbelow.
      apply (snapshot_agree_range fuel h h' mid (length h)).
      * intros l0 Hlo Hhi. apply Hframe; lia.
      * exact Hmid.
      * eapply otree_below, Hmid.
  - eapply holds_snapshot; [exact Hholds | exact Hext | lia].
Qed.

(** The loop of [setValueAtPath] on a container the parser built, along
    members that are there: it returns, and the container then reads as
    its tree with the sub-tree at the path replaced. *)
Lemma assign_shape segs :
  segs <> [] ->
  forall h lo l t x (tx : tree) (hx : heap) (t' : tree),
    otree h lo (VRef l) -> built h l t ->
    holds hx x tx -> extends h hx -> length hx <= lo ->
    tree_set t segs (canon tx) = Some t' ->
    exists h',
      assign h (VRef l) segs x = Ok h'
      /\ forall fuel, l < fuel -> snapshot fuel h' (VRef l) = Some t'.
Proof.
  induction segs as [|seg rest IH]; [congruence|].
  intros _ h lo l t x tx hx t' Htree Hbuilt Hx Hhx Hlo Hset.
  pose proof (otree_lookup _ _ _ Htree) as [Hlol Hlen].
  unfold built in Hbuilt.
  destruct (h !! l) as [[fields|elems extra]|] eqn:Hl; [| |contradiction].
  - (* an object *)
    destruct Hbuilt as (ms & -> & Hnd & Hall & Hsep).
    set (R := fun (p : string * value) (m : string * tree) =>
                p.1 = m.1 /\ member_of h l p.2 m.2) in Hall.
    assert (forall p m, R p m -> p.1 = m.1) as Hkey by (now intros p m [Hk _]).
    assert (List.NoDup (map fst fields)) as Hndf
        by (rewrite (related_keys R Hkey _ _ Hall); exact Hnd).
    destruct rest as [|next rest].
    + rewrite tree_set_last in Hset. cbn [tree_put] in Hset.
      destruct (String.eqb (key_of seg) "__proto__") eqn:Hproto; [discriminate|].
      injection Hset as <-. rewrite own_entries_upsert by exact Hnd.
      rewrite assign_last. unfold prop_set. rewrite Hl.
      assert (assign_prop value_is_proto (key_of seg) x fields
              = Ok (upsert (key_of seg) x fields)) as ->.
      { unfold assign_prop, add_prop. rewrite Hproto.
        destruct (lookup_prop (key_of seg) fields) eqn:Hlk;
          [reflexivity|]. now rewrite upsert_fresh. }
      cbn [bind]. eexists. split; [reflexivity|].
      intros [|fuel] Hfuel; [lia|].
      set (h' := <[l := Obj (upsert (key_of seg) x fields)]> h).
      apply (snapshot_object _ _ _ (upsert (key_of seg) x fields)).
      { apply list_lookup_insert_eq. exact Hlen. }
      apply (upsert_related
               (fun p m => p.1 = m.1 /\ snapshot fuel h' p.2 = Some m.2));
        [now intros p m [Hk _] | |].
      * eapply Forall2_impl; [exact Hall|].
        intros p m [Hk (sub & hp & Hholds & Hext & Hlenp & ->)].
        split; [exact Hk|]. eapply holds_snapshot; [exact Hholds | | lia].
        intros l0 o Hl0. unfold h'.
        rewrite list_lookup_insert_ne; [apply Hext, Hl0|].
        apply lookup_lt_Some in Hl0. lia.
      * split; [reflexivity|]. cbn [fst snd].
        eapply holds_snapshot; [exact Hx | | lia].
        intros l0 o Hl0. unfold h'.
        rewrite list_lookup_insert_ne; [apply Hhx, Hl0|].
        apply lookup_lt_Some in Hl0. lia.
    + rewrite tree_set_step in Hset. cbn [tree_member] in Hset.
      rewrite lookup_own_entries in Hset.
      destruct (lookup_prop (key_of seg) ms) as [sub'|] eqn:Hm; [|discriminate].
      destruct (tree_set sub' (next :: rest) (canon tx)) as [t1|] eqn:Hrec;
        [|discriminate].
      cbn [tree_put] in Hset.
      destruct (String.eqb (key_of seg) "__proto__") eqn:Hproto; [discriminate|].
      injection Hset as <-. rewrite own_entries_upsert by exact Hnd.
      pose proof (lookup_related R Hkey _ _ (key_of seg) Hall) as Hrel.
      rewrite Hm in Hrel.
      destruct (lookup_prop (key_of seg) fields) as [c1|] eqn:Hc1; [|contradiction].
      destruct Hrel as [_ Hmem]. cbn [snd] in Hmem.
      pose proof Hmem as (sub1 & hp & Hholds1 & Hext1 & Hlen1 & Heq). subst sub'.
      assert (holds h c1 sub1) as Hc1h by (eapply holds_extends; eassumption).
      pose proof (tree_set_container _ _ _ _ _ Hrec) as Hkind.
      pose proof (holds_kind _ _ _ Hc1h) as Hkind'.
      destruct c1 as [| | | | |l1]; try (destruct (canon sub1); contradiction).
      assert (prop_get h (VRef l) (key_of seg) = Ok (VRef l1)) as Hget.
      { unfold prop_get, own_prop. now rewrite Hl, Hc1. }
      destruct (prop_get_child _ _ _ _ _ Htree Hget) as [Hl1 Htree1].
      destruct (IH ltac:(discriminate) h lo l1 (canon sub1) x tx hx t1 Htree1
                  (holds_built _ _ _ Hc1h) Hx Hhx Hlo Hrec)
        as (h' & Hassign & Hsnap).
      exists h'. split; [now rewrite (assign_into _ _ _ _ _ _ _ Hget)|].
      destruct (assign_spec (next :: rest) h lo l1 x h' ltac:(discriminate)
                  Htree1 Hassign) as (_ & Hframe & _).
      intros [|fuel] Hfuel; [lia|].
      apply (snapshot_object _ _ _ fields).
      { rewrite Hframe by lia. exact Hl. }
      apply (upsert_related_at R
               (fun p m => p.1 = m.1 /\ snapshot fuel h' p.2 = Some m.2) Hkey);
        [exact Hall | exact Hndf | eapply lookup_prop_Some_In, Hc1 | |].
      * intros p m Hp [Hk Hpm] Hne. split; [exact Hk|].
        eapply (sibling_snapshot (next :: rest));
          [discriminate | exact Htree1 | exact Hassign | | exact Hpm | lia].
        apply (Hsep p (key_of seg, VRef l1));
          [exact Hp | now apply lookup_prop_elem | exact Hne].
      * intros [kp vp] m Hp _ Hk. simpl in Hk. subst kp.
        split; [reflexivity|]. cbn [fst snd].
        rewrite (lookup_prop_NoDup _ _ _ Hndf Hp) in Hc1. injection Hc1 as ->.
        apply Hsnap. lia.
  - (* an array *)
    destruct Hbuilt as (items & -> & Hall & Hsep).
    destruct rest as [|next rest].
    + rewrite tree_set_last in Hset. cbn [tree_put] in Hset.
      destruct (array_index (key_of seg)) as [i|] eqn:Hi; [|discriminate].
      injection Hset as <-.
      rewrite assign_last. unfold prop_set. rewrite Hl.
      rewrite (array_index_key _ _ Hi), dec_not_length.
      rewrite <- (array_index_key _ _ Hi), Hi.
      eexists. split; [reflexivity|].
      intros [|fuel] Hfuel; [lia|].
      set (h' := <[l := Arr (set_elem (N.to_nat i) x elems) extra]> h).
      apply (snapshot_array _ _ _ (set_elem (N.to_nat i) x elems) extra).
      { apply list_lookup_insert_eq. exact Hlen. }
      assert (Forall2 (fun e m => snapshot fuel h' (default VUndefined e) = Some m)
                      elems items) as Hall'.
      { eapply Forall2_impl; [exact Hall|].
        intros e m (w & -> & sub & hp & Hholds & Hext & Hlenp & ->). simpl.
        eapply holds_snapshot; [exact Hholds | | lia].
        intros l0 o Hl0. unfold h'.
        rewrite list_lookup_insert_ne; [apply Hext, Hl0|].
        apply lookup_lt_Some in Hl0. lia. }
      assert (snapshot fuel h' x = Some (canon tx)) as Hxs.
      { eapply holds_snapshot; [exact Hx | | lia].
        intros l0 o Hl0. unfold h'.
        rewrite list_lookup_insert_ne; [apply Hhx, Hl0|].
        apply lookup_lt_Some in Hl0. lia. }
      pose proof (Forall2_length _ _ _ Hall') as Hlens.
      unfold set_elem, set_item. rewrite <- Hlens.
      destruct (decide (N.to_nat i < length elems)).
      * apply Forall2_insert; [exact Hall' | exact Hxs].
      * apply Forall2_app; [exact Hall'|]. apply Forall2_app.
        -- apply Forall2_replicate. now destruct fuel.
        -- constructor; [exact Hxs | constructor].
    + rewrite tree_set_step in Hset. cbn [tree_member] in Hset.
      destruct (array_index (key_of seg)) as [i|] eqn:Hi; [|discriminate].
      destruct (items !! N.to_nat i) as [sub'|] eqn:Hm; [|discriminate].
      destruct (tree_set sub' (next :: rest) (canon tx)) as [t1|] eqn:Hrec;
        [|discriminate].
      cbn [tree_put] in Hset. rewrite Hi in Hset. injection Hset as <-.
      destruct (Forall2_lookup_r _ _ _ _ _ Hall Hm) as (e & He & c1 & -> & Hmem).
      pose proof Hmem as (sub1 & hp & Hholds1 & Hext1 & Hlen1 & Heq). subst sub'.
      assert (holds h c1 sub1) as Hc1h by (eapply holds_extends; eassumption).
      pose proof (tree_set_container _ _ _ _ _ Hrec) as Hkind.
      pose proof (holds_kind _ _ _ Hc1h) as Hkind'.
      destruct c1 as [| | | | |l1]; try (destruct (canon sub1); contradiction).
      assert (prop_get h (VRef l) (key_of seg) = Ok (VRef l1)) as Hget.
      { unfold prop_get, own_prop. rewrite Hl.
        rewrite (array_index_key _ _ Hi), dec_not_length.
        rewrite <- (array_index_key _ _ Hi), Hi, He. reflexivity. }
      destruct (prop_get_child _ _ _ _ _ Htree Hget) as [Hl1 Htree1].
      destruct (IH ltac:(discriminate) h lo l1 (canon sub1) x tx hx t1 Htree1
                  (holds_built _ _ _ Hc1h) Hx Hhx Hlo Hrec)
        as (h' & Hassign & Hsnap).
      exists h'. split; [now rewrite (assign_into _ _ _ _ _ _ _ Hget)|].
      destruct (assign_spec (next :: rest) h lo l1 x h' ltac:(discriminate)
                  Htree1 Hassign) as (_ & Hframe & _).
      intros [|fuel] Hfuel; [lia|].
      apply (snapshot_array _ _ _ elems extra).
      { rewrite Hframe by lia. exact Hl. }
      pose proof (lookup_lt_Some _ _ _ Hm) as Hlt.
      unfold set_item. rewrite decide_True by exact Hlt.
      apply Forall2_same_length_lookup_2.
      { rewrite length_insert. eapply Forall2_length, Hall. }
      intros j e m Hej Hmj.
      destruct (decide (N.to_nat i = j)) as [<-|Hne].
      * rewrite list_lookup_insert_eq in Hmj by exact Hlt. injection Hmj as <-.
        rewrite He in Hej. injection Hej as <-. simpl. apply Hsnap. lia.
      * rewrite list_lookup_insert_ne in Hmj by exact Hne.
        destruct (Forall2_lookup_lr _ _ _ _ _ _ Hall Hej Hmj) as (wj & -> & Hmemj).
        simpl.
        eapply (sibling_snapshot (next :: rest));
          [discriminate | exact Htree1 | exact Hassign | | exact Hmemj | lia].
        apply (Hsep j (N.to_nat i)); [exact Hej | exact He | congruence].
Qed.

Lemma setValueAtPath_shape d h0 D h (p : option JSONPath) x (tx t' : tree) :
  alloc d h0 = (D, h) ->
  holds h0 x tx ->
  tree_set (canon d) (default [] p) (canon tx) = Some t' ->
  exists D' h',
    setValueAtPath h D p x = Ok (D', h') /\ shape h' D' = Some t'.
Proof.
  intros Halloc Hx Hset.
  pose proof (alloc_otree _ _ _ _ Halloc) as [[ext Hh] Htree].
  assert (extends h h0) as Hext by (rewrite Hh; apply extends_app).
  assert (root : exists segs, default [] p = segs) by eauto.
  destruct root as [[|seg rest] Hp]; rewrite Hp in Hset.
  - injection Hset as <-. exists x, h. split.
    + destruct p as [[|]|]; [reflexivity | discriminate | reflexivity].
    + apply holds_shape. eapply holds_extends; eassumption.
  - destruct p as [[|]|]; try discriminate. injection Hp as -> ->.
    pose proof (tree_set_container _ _ _ _ _ Hset) as Hkind.
    assert (holds h D d) as HD by (exists h0, h; split; [exact Halloc | now intros l o Hl]).
    pose proof (holds_kind _ _ _ HD) as Hkind'.
    destruct D as [| | | | |l]; try (destruct (canon d); contradiction).
    destruct (spread_returns _ _ _ Htree) as (clone & h1 & Hspread).
    destruct (spread_built _ _ _ _ _ _ Htree (holds_built _ _ _ HD) Hspread)
      as (-> & Hext1 & Hlen1 & Htree1 & Hbuilt1).
    destruct (assign_shape (seg :: rest) ltac:(discriminate) h1 (length h0)
                (length h) (canon d) x tx h0 t' Htree1 Hbuilt1 Hx
                (extends_trans _ _ _ Hext1 Hext) (le_n _) Hset)
      as (h' & Hassign & Hsnap).
    destruct (assign_spec (seg :: rest) h1 _ _ x h' ltac:(discriminate)
                Htree1 Hassign) as (Hgrow & _).
    rewrite setValueAtPath_loop, Hspread. cbn [bind]. rewrite Hassign. cbn [bind].
    eexists _, h'. split; [reflexivity|]. unfold shape. apply Hsnap. lia.
Qed.
(** X11: A write along a path that goes through members that are there,
    keys of objects other than [__proto__] and positions of arrays,
    returns; what it returns has the shape of the document with the
    sub-tree at the path replaced by the value written: replaced where
    it is or, at the last step, added after the other members (past the
    end of an array, after holes), the keys enumerated again.  The
    value written is one the parser built before the document. *)
Theorem write_replaces_subtree (d : tree) (h0 : heap) (p : option JSONPath)
  (x : value) (tx t' : tree) :
  holds h0 x tx ->
  tree_set (canon d) (default [] p) (canon tx) = Some t' ->
  exists D' h',
    setValueAtPath (alloc d h0).2 (alloc d h0).1 p x = Ok (D', h')
    /\ shape h' D' = Some t'.
Proof.
  destruct (alloc d h0) as [D h] eqn:Halloc. cbn [fst snd].
  intros Hx Hset. eapply setValueAtPath_shape; eassumption.
Qed.

Variable JSON_parse : string -> outcome tree.
Variable setGraph : option string -> outcome (list node).
Variable type_error_text range_error_text : string.

(** X16: Save replaces the sub-document of the node: when the edit buffer
    and the live document parse, the path of the node goes through
    members of the document that are there, and the graph store
    returns, the contents given to the file store, and then to the
    graph store, are the text of the document with the sub-tree at that
    path replaced by the value of the edit buffer; for the root node,
    the text of that value. *)
Theorem save_replaces_subdocument (m : modal) (s : stores)
  (tnew tdoc t' : tree) (nodes : list node) :
  JSON_parse (buffer_text m) = Ok tnew ->
  JSON_parse (getJson s) = Ok tdoc ->
  tree_set (canon tdoc) (default [] (path_of s)) (canon tnew) = Some t' ->
  setGraph (stringify2 t') = Ok nodes ->
  exists selection,
    handleSave JSON_parse setGraph type_error_text range_error_text m s
    = Ok ({| editing := false; error := None; editValue := editValue m |},
          SetContents (stringify2 t') true :: SetGraph (stringify2 t') :: selection).
Proof.
  intros Hnew Hdoc Hset Hgraph. unfold handleSave, parse_in.
  rewrite Hnew. cbn [bind].
  destruct (alloc tnew []) as [parsedNew h1] eqn:Halloc1. cbn [bind].
  rewrite Hdoc. cbn [bind].
  destruct (alloc tdoc h1) as [whole h2] eqn:Halloc2. cbn [bind].
  assert (holds h1 parsedNew tnew) as Hx
      by (exists [], h1; split; [exact Halloc1 | now intros l o Hl]).
  destruct (setValueAtPath_shape _ _ _ _ (path_of s) _ _ _ Halloc2 Hx Hset)
    as (updated & h3 & Hwrite & Hshape).
  rewrite Hwrite. cbn [bind].
  assert (stringify_value h3 updated = Ok (stringify2 t')) as Htext
      by (unfold stringify_value; now rewrite Hshape).
  rewrite Htext. cbn [bind].
  unfold reselect. rewrite Htext. cbn [bind try_catch]. rewrite Hgraph.
  cbn [bind try_catch].
  destruct (path_text (path_of s)) as [target|]; [|now eexists].
  destruct (String.eqb target EmptyString); [now eexists|].
  destruct (find (same_path target) nodes); now eexists.
Qed.
End ShapeFacts.

(** Writing 7 at the position 1 of the array at the key [c] of the
    object at the key [a]: the item is replaced where it is, and nothing
    else changes. *)
Lemma write_replaces_subtree_example :
  exists D' h',
    @setValueAtPath example_engine
      (alloc (TObj [("a", TObj [("b", TNum 1); ("c", TArr [TNum 1; TNum 2])]);
                    ("d", TNull)]) []).2
      (alloc (TObj [("a", TObj [("b", TNum 1); ("c", TArr [TNum 1; TNum 2])]);
                    ("d", TNull)]) []).1
      (Some [Key "a"; Key "c"; Index 1]) (VNum 7) = Ok (D', h')
    /\ shape h' D'
       = Some (TObj [("a", TObj [("b", TNum 1); ("c", TArr [TNum 1; TNum 7])]);
                     ("d", TNull)]).
Proof.
  refine (@write_replaces_subtree example_engine
            (TObj [("a", TObj [("b", TNum 1); ("c", TArr [TNum 1; TNum 2])]);
                   ("d", TNull)]) []
            (Some [Key "a"; Key "c"; Index 1]) (VNum 7) (TNum 7) _ _ eq_refl).
  exists [], []. split; [reflexivity | intros l o Hl; discriminate].
Defined.

(** Saving the empty object on the node at the position 0 of the
    position 0 of a nested array. *)
Lemma save_replaces_subdocument_example :
  exists selection,
    @handleSave example_engine example_parse_more example_graph_two
      "TypeError" "RangeError"
      {| editing := true; editValue := Some "{}"; error := None |}
      {| selectedNode := Some {| path := Some [Index 0; Index 0]; text := [] |};
         getJson := "[[1]]" |}
    = Ok ({| editing := false; error := None; editValue := Some "{}" |},
          SetContents (stringify2 (TArr [TArr [TObj []]])) true
          :: SetGraph (stringify2 (TArr [TArr [TObj []]])) :: selection).
Proof.
  exact (@save_replaces_subdocument example_engine example_parse_more
           example_graph_two "TypeError" "RangeError"
           {| editing := true; editValue := Some "{}"; error := None |}
           {| selectedNode := Some {| path := Some [Index 0; Index 0]; text := [] |};
              getJson := "[[1]]" |}
           (TObj []) (TArr [TArr [TNum 1]]) _ _ eq_refl eq_refl eq_refl eq_refl).
Defined.
